(** * LexicalAnalyser: a shallow embedding of the regex-to-DFA pipeline

    The development follows [LexicalAnalyzerGenerator.h] and its
    implementation file: the regex parser, Thompson's construction, the
    epsilon closure and subset construction, the DFA, the generator that
    ties them together, and the [tokenize] routine that the generator writes
    into the scanner it emits.

    Conventions of the embedding:
    - C++ [int] is [Z].  The counters and state ids are bounded by the
      lengths of the patterns and the sizes of the containers, so they stay
      far below [2^31] for any automaton that fits in memory; signed overflow
      (undefined behaviour in C++) is outside the model.
    - [char] is [ascii]; the NUL character is the epsilon label, as in
      [Transition].  [std::string] is [string], traversed as [list ascii].
    - [std::set<int>] is [gset Z], visited in ascending order ([ascending]).
    - [std::set<char>] and [std::map<string,string>] are visited in key
      order and that order is observable (state numbering, labelling), so
      they are kept as strictly sorted lists.
    - [std::map] with integer or pair keys that is only looked up and
      assigned is a [gmap].
    - [std::stack] is a list whose head is the top, [std::queue] a list whose
      head is the front, [std::vector] a list with [push_back] at the end.
    - A [while] loop whose number of iterations is not the length of a
      container takes a [fuel] argument. *)

From Stdlib Require Import ZArith String Ascii List Bool Lia.
From Stdlib Require OrderedTypeEx.
From stdpp Require Import base gmap sets list strings relations sorting.

Open Scope Z_scope.

(** ** Characters *)

(** ['\0'], the label of an epsilon transition. *)
Definition epsilon : ascii := Ascii.zero.

Definition chars (s : string) : list ascii := list_ascii_of_string s.
Definition str (l : list ascii) : string := string_of_list_ascii l.

(** ** RegexParser *)

Module RegexParser.

(** [isValidRegex]: the loop body, with [parenCount] as an accumulator.  The
    test [parenCount < 0] comes after both updates and leaves the loop at
    once. *)
Fixpoint isValidRegex_loop (parenCount : Z) (regex : list ascii) : bool :=
  match regex with
  | [] => bool_decide (parenCount = 0)
  | c :: rest =>
      let parenCount := if bool_decide (c = "("%char) then parenCount + 1 else parenCount in
      let parenCount := if bool_decide (c = ")"%char) then parenCount - 1 else parenCount in
      if bool_decide (parenCount < 0) then false
      else isValidRegex_loop parenCount rest
  end.

Definition isValidRegex (regex : string) : bool :=
  isValidRegex_loop 0 (chars regex).

Definition getPrecedence (op : ascii) : Z :=
  if bool_decide (op = "*"%char) then 3
  else if bool_decide (op = "."%char) then 2
  else if bool_decide (op = "|"%char) then 1
  else 0.

Definition isOperator (c : ascii) : bool :=
  bool_decide (c = "*"%char) || bool_decide (c = "|"%char) || bool_decide (c = "."%char).

(** The first loop of [infixToPostfix], by index as in the source:
    [processed += c], then a ['.'] when there is a next character and the
    pair asks for one. *)
Definition concatStep (regex : list ascii) (processed : list ascii) (i : nat) : list ascii :=
  let c := nth i regex epsilon in
  let processed := processed ++ [c] in
  if bool_decide (i + 1 < length regex)%nat then
    let next := nth (i + 1) regex epsilon in
    if (bool_decide (c ≠ "("%char) && bool_decide (c ≠ "|"%char))
       && (bool_decide (next ≠ ")"%char) && bool_decide (next ≠ "|"%char)
           && bool_decide (next ≠ "*"%char))
    then processed ++ ["."%char]
    else processed
  else processed.

Definition addConcat (regex : list ascii) : list ascii :=
  foldl (concatStep regex) [] (seq 0 (length regex)).

(** [while (!opStack.empty() && opStack.top() != '(') { result += top; pop }] *)
Fixpoint popToParen (result opStack : list ascii) : list ascii * list ascii :=
  match opStack with
  | [] => (result, [])
  | top :: rest =>
      if bool_decide (top ≠ "("%char) then popToParen (result ++ [top]) rest
      else (result, opStack)
  end.

(** [while (!opStack.empty() && opStack.top() != '(' &&
           getPrecedence(opStack.top()) >= getPrecedence(c)) { ... }] *)
Fixpoint popHigher (c : ascii) (result opStack : list ascii) : list ascii * list ascii :=
  match opStack with
  | [] => (result, [])
  | top :: rest =>
      if bool_decide (top ≠ "("%char) && bool_decide (getPrecedence top >= getPrecedence c)
      then popHigher c (result ++ [top]) rest
      else (result, opStack)
  end.

(** One iteration of the second loop, on the pair [(result, opStack)]. *)
Definition postfixStep (st : list ascii * list ascii) (c : ascii) : list ascii * list ascii :=
  let '(result, opStack) := st in
  if negb (isOperator c) && bool_decide (c ≠ "("%char) && bool_decide (c ≠ ")"%char) then
    (result ++ [c], opStack)
  else if bool_decide (c = "("%char) then
    (result, c :: opStack)
  else if bool_decide (c = ")"%char) then
    let '(result, opStack) := popToParen result opStack in
    (result, match opStack with [] => [] | _ :: rest => rest end)
  else
    let '(result, opStack) := popHigher c result opStack in
    (result, c :: opStack).

(** The final [while (!opStack.empty())] loop appends the stack, top first. *)
Definition toPostfix (processed : list ascii) : list ascii :=
  let '(result, opStack) := foldl postfixStep ([], []) processed in
  result ++ opStack.

Definition infixToPostfix (regex : string) : string :=
  str (toPostfix (addConcat (chars regex))).

End RegexParser.

(** ** Sets of states *)

(** [for (int state : states)] over a [std::set<int>] visits the members in
    ascending order. *)
Definition ascending (s : gset Z) : list Z := merge_sort Z.le (elements s).

(** ** State and Transition *)

Record State := mkState {
  id : Z;
  isAccepting : bool;
  tokenType : string
}.

(** [State(int stateId = 0)] *)
Definition newState (stateId : Z) : State := mkState stateId false "".

Record Transition := mkTransition {
  fromState : Z;
  toState : Z;
  symbol : ascii
}.

(** ** NFA *)

Module NFA.

Record t := mk {
  states : list State;
  transitions : list Transition;
  startState : Z;
  acceptingStates : gset Z;
  stateCounter : Z
}.

(** [NFA::NFA()] *)
Definition new : t := mk [] [] 0 ∅ 0.

Definition addState (stateId : Z) (accepting : bool) (n : t) : t :=
  mk (states n ++ [mkState stateId accepting ""])
     (transitions n)
     (startState n)
     (if accepting then {[stateId]} ∪ acceptingStates n else acceptingStates n)
     (stateCounter n).

Definition addTransition (from to : Z) (sym : ascii) (n : t) : t :=
  mk (states n) (transitions n ++ [mkTransition from to sym])
     (startState n) (acceptingStates n) (stateCounter n).

Definition setStartState (stateId : Z) (n : t) : t :=
  mk (states n) (transitions n) stateId (acceptingStates n) (stateCounter n).

Definition setStateCounter (c : Z) (n : t) : t :=
  mk (states n) (transitions n) (startState n) (acceptingStates n) c.

(** The range-for loops of the combinators.  [addStatesFrom] copies the
    states of [src] shifted by [offset]; [keep] says whether the accepting
    flag is copied ([state.isAccepting]) or cleared ([false]). *)
Definition addStatesFrom (src : list State) (offset : Z) (keep : bool) (n : t) : t :=
  foldl (fun r state => addState (id state + offset) (keep && isAccepting state) r) n src.

Definition addTransitionsFrom (src : list Transition) (offset : Z) (n : t) : t :=
  foldl (fun r trans =>
           addTransition (fromState trans + offset) (toState trans + offset) (symbol trans) r)
        n src.

(** [for (int acceptState : accepting) result.addTransition(acceptState + offset, target, '\0')] *)
Definition linkAccepting (accepting : gset Z) (offset target : Z) (n : t) : t :=
  foldl (fun r acceptState => addTransition (acceptState + offset) target epsilon r)
        n (ascending accepting).

Definition fromSymbol (sym : ascii) : t :=
  setStateCounter 2
    (setStartState 0
       (addTransition 0 1 sym
          (addState 1 true
             (addState 0 false new)))).

Definition concatenate (nfa1 nfa2 : t) : t :=
  let offset := Z.of_nat (length (states nfa1)) in
  let result := new in
  let result := addStatesFrom (states nfa1) 0 false result in
  let result := addStatesFrom (states nfa2) offset true result in
  let result := addTransitionsFrom (transitions nfa1) 0 result in
  let result := linkAccepting (acceptingStates nfa1) 0 (startState nfa2 + offset) result in
  let result := addTransitionsFrom (transitions nfa2) offset result in
  let result := setStartState (startState nfa1) result in
  setStateCounter (Z.of_nat (length (states nfa1)) + Z.of_nat (length (states nfa2))) result.

Definition union_op (nfa1 nfa2 : t) : t :=
  let newStart := 0 in
  let offset1 := 1 in
  let offset2 := offset1 + Z.of_nat (length (states nfa1)) in
  let newAccept := offset2 + Z.of_nat (length (states nfa2)) in
  let result := new in
  let result := addState newStart false result in
  let result := setStartState newStart result in
  let result := addStatesFrom (states nfa1) offset1 false result in
  let result := addStatesFrom (states nfa2) offset2 false result in
  let result := addState newAccept true result in
  let result := addTransition newStart (startState nfa1 + offset1) epsilon result in
  let result := addTransition newStart (startState nfa2 + offset2) epsilon result in
  let result := addTransitionsFrom (transitions nfa1) offset1 result in
  let result := addTransitionsFrom (transitions nfa2) offset2 result in
  let result := linkAccepting (acceptingStates nfa1) offset1 newAccept result in
  let result := linkAccepting (acceptingStates nfa2) offset2 newAccept result in
  setStateCounter (newAccept + 1) result.

Definition kleeneStar (nfa : t) : t :=
  let newStart := 0 in
  let offset := 1 in
  let newAccept := offset + Z.of_nat (length (states nfa)) in
  let result := new in
  let result := addState newStart false result in
  let result := setStartState newStart result in
  let result := addStatesFrom (states nfa) offset false result in
  let result := addState newAccept true result in
  let result := addTransition newStart (startState nfa + offset) epsilon result in
  let result := addTransition newStart newAccept epsilon result in
  let result := addTransitionsFrom (transitions nfa) offset result in
  let result :=
    foldl (fun r acceptState =>
             addTransition (acceptState + offset) newAccept epsilon
               (addTransition (acceptState + offset) (startState nfa + offset) epsilon r))
          result (ascending (acceptingStates nfa)) in
  setStateCounter (newAccept + 1) result.

(** One iteration of [for (char c : postfix)] in [fromRegex], on the stack of
    automata.  Each [continue] leaves the stack as it is. *)
Definition thompsonStep (nfaStack : list t) (c : ascii) : list t :=
  if bool_decide (c = "*"%char) then
    match nfaStack with
    | [] => nfaStack
    | nfa :: rest => kleeneStar nfa :: rest
    end
  else if bool_decide (c = "|"%char) then
    match nfaStack with
    | nfa2 :: nfa1 :: rest => union_op nfa1 nfa2 :: rest
    | _ => nfaStack
    end
  else if bool_decide (c = "."%char) then
    match nfaStack with
    | nfa2 :: nfa1 :: rest => concatenate nfa1 nfa2 :: rest
    | _ => nfaStack
    end
  else fromSymbol c :: nfaStack.

Definition evalPostfix (postfix : list ascii) : list t :=
  foldl thompsonStep [] postfix.

(** [return nfaStack.empty() ? NFA() : nfaStack.top();] *)
Definition fromPostfix (postfix : list ascii) : t :=
  match evalPostfix postfix with
  | [] => new
  | top :: _ => top
  end.

Definition fromRegex (regex : string) : t :=
  fromPostfix (chars (RegexParser.infixToPostfix regex)).


(** One iteration of the inner [for] loop of [epsilonClosure(int)], on the
    pair [(closure, stateStack)]. *)
Definition closureScan (current : Z) (cs : gset Z * list Z) (trans : Transition)
  : gset Z * list Z :=
  if bool_decide (fromState trans = current) && bool_decide (symbol trans = epsilon) then
    if bool_decide (toState trans ∈ cs.1) then cs
    else ({[toState trans]} ∪ cs.1, toState trans :: cs.2)
  else cs.

(** The [while (!stateStack.empty())] loop.  Every iteration pops one state;
    a state is pushed only when it enters [closure], so the loop runs at most
    once per state that can enter.  [closureLoop_fuel] below shows that the
    fuel given by [epsilonClosure_state] is never used up. *)
Fixpoint closureLoop (fuel : nat) (ts : list Transition)
    (closure : gset Z) (stateStack : list Z) : gset Z :=
  match stateStack, fuel with
  | [], _ => closure
  | _ :: _, O => closure
  | current :: rest, S fuel =>
      let cs := foldl (closureScan current) (closure, rest) ts in
      closureLoop fuel ts cs.1 cs.2
  end.

(** [set<int> epsilonClosure(int state) const] *)
Definition epsilonClosure_state (n : t) (state : Z) : gset Z :=
  closureLoop (S (length (transitions n))) (transitions n) {[state]} [state].

(** [set<int> epsilonClosure(const set<int>& states) const] *)
Definition epsilonClosure (n : t) (states : gset Z) : gset Z :=
  foldl (fun closure state => closure ∪ epsilonClosure_state n state) ∅ (ascending states).

Definition move (n : t) (states : gset Z) (sym : ascii) : gset Z :=
  foldl (fun result state =>
           foldl (fun result trans =>
                    if bool_decide (fromState trans = state) && bool_decide (symbol trans = sym)
                    then {[toState trans]} ∪ result
                    else result)
                 result (transitions n))
        ∅ (ascending states).

End NFA.

(** ** DFA *)

Module DFA.

Record t := mk {
  states : list State;
  transitions : gmap (Z * ascii) Z;
  startState : Z;
  acceptingStates : gset Z;
  alphabet : list ascii;
  stateToTokenType : gmap Z string
}.

(** [DFA::DFA()] *)
Definition new : t := mk [] ∅ 0 ∅ [] ∅.

(** [std::set<char>::insert]: the set is a strictly increasing list.
    Characters are compared by their code; for the 7-bit characters of the
    patterns this is the order of [char] whatever its signedness. *)
Fixpoint insertChar (c : ascii) (l : list ascii) : list ascii :=
  match l with
  | [] => [c]
  | x :: rest =>
      match (N_of_ascii c ?= N_of_ascii x)%N with
      | Lt => c :: l
      | Eq => l
      | Gt => x :: insertChar c rest
      end
  end.

Definition addState (stateId : Z) (accepting : bool) (d : t) : t :=
  mk (states d ++ [mkState stateId accepting ""])
     (transitions d) (startState d)
     (if accepting then {[stateId]} ∪ acceptingStates d else acceptingStates d)
     (alphabet d) (stateToTokenType d).

Definition addTransition (from : Z) (sym : ascii) (to : Z) (d : t) : t :=
  mk (states d) (<[(from, sym) := to]> (transitions d)) (startState d)
     (acceptingStates d) (insertChar sym (alphabet d)) (stateToTokenType d).

Definition setStartState (stateId : Z) (d : t) : t :=
  mk (states d) (transitions d) stateId (acceptingStates d) (alphabet d)
     (stateToTokenType d).

(** The loop of [addAcceptingState]: the first state with this id gets the
    flag, then [break]. *)
Fixpoint markAccepting (stateId : Z) (l : list State) : list State :=
  match l with
  | [] => []
  | state :: rest =>
      if bool_decide (id state = stateId)
      then mkState (id state) true (tokenType state) :: rest
      else state :: markAccepting stateId rest
  end.

Definition addAcceptingState (stateId : Z) (d : t) : t :=
  mk (markAccepting stateId (states d)) (transitions d) (startState d)
     ({[stateId]} ∪ acceptingStates d) (alphabet d) (stateToTokenType d).

Definition setTokenType (stateId : Z) (tokenType : string) (d : t) : t :=
  mk (states d) (transitions d) (startState d) (acceptingStates d) (alphabet d)
     (<[stateId := tokenType]> (stateToTokenType d)).

Definition setAlphabet (a : list ascii) (d : t) : t :=
  mk (states d) (transitions d) (startState d) (acceptingStates d) a
     (stateToTokenType d).

(** [for (int nfaState : subset) if (accepting.count(nfaState)) { ...; break; }]
    decides whether the subset holds an accepting state of the automaton. *)
Definition hasAccepting (nfa : NFA.t) (subset : gset Z) : bool :=
  existsb (fun nfaState => bool_decide (nfaState ∈ NFA.acceptingStates nfa)) (ascending subset).

(** The variables that [fromNFA] updates in its loops. *)
Record work := mkWork {
  dfa : t;
  dfaStateMap : gmap (gset Z) Z;
  unmarkedStates : list (gset Z);
  dfaStateCounter : Z
}.

(** The body of [for (char symbol : alphabet)].  [dfaStateMap[newStates]] is
    read after the subset has been entered, so the lookup always hits; the
    default of [operator[]] is [0]. *)
Definition subsetStep (nfa : NFA.t) (currentStates : gset Z) (currentDfaState : Z)
    (w : work) (sym : ascii) : work :=
  let moveResult := NFA.move nfa currentStates sym in
  let newStates := NFA.epsilonClosure nfa moveResult in
  if bool_decide (newStates = ∅) then w
  else
    let w :=
      match dfaStateMap w !! newStates with
      | Some _ => w
      | None =>
          let newDfaState := dfaStateCounter w in
          let d := addState newDfaState false (dfa w) in
          let d := if hasAccepting nfa newStates then addAcceptingState newDfaState d else d in
          mkWork d (<[newStates := newDfaState]> (dfaStateMap w))
                 (unmarkedStates w ++ [newStates]) (dfaStateCounter w + 1)
      end in
    let nextDfaState := default 0 (dfaStateMap w !! newStates) in
    mkWork (addTransition currentDfaState sym nextDfaState (dfa w))
           (dfaStateMap w) (unmarkedStates w) (dfaStateCounter w).

(** [while (!unmarkedStates.empty())].  The loop ends when every subset has
    been processed; [None] means that [fuel] iterations did not suffice. *)
Fixpoint subsetLoop (fuel : nat) (nfa : NFA.t) (alpha : list ascii) (w : work) : option t :=
  match unmarkedStates w with
  | [] => Some (dfa w)
  | currentStates :: rest =>
      match fuel with
      | O => None
      | S fuel =>
          let currentDfaState := default 0 (dfaStateMap w !! currentStates) in
          let w := mkWork (dfa w) (dfaStateMap w) rest (dfaStateCounter w) in
          subsetLoop fuel nfa alpha (foldl (subsetStep nfa currentStates currentDfaState) w alpha)
      end
  end.

Definition fromNFA (fuel : nat) (nfa : NFA.t) : option t :=
  let alpha :=
    foldl (fun a trans => if bool_decide (symbol trans ≠ epsilon) then insertChar (symbol trans) a else a)
          [] (NFA.transitions nfa) in
  let d := setAlphabet alpha new in
  let startClosure := NFA.epsilonClosure_state nfa (NFA.startState nfa) in
  let d := setStartState 0 d in
  let d := addState 0 false d in
  let d := if hasAccepting nfa startClosure then addAcceptingState 0 d else d in
  subsetLoop fuel nfa alpha (mkWork d {[startClosure := 0]} [startClosure] 1).

Definition getNextState (d : t) (currentState : Z) (sym : ascii) : Z :=
  match transitions d !! (currentState, sym) with
  | Some next => next
  | None => -1
  end.

(** The loop of [accepts], with its [return false] as soon as a step
    yields [-1]. *)
Fixpoint accepts_loop (d : t) (currentState : Z) (input : list ascii) : bool :=
  match input with
  | [] => bool_decide (currentState ∈ acceptingStates d)
  | c :: rest =>
      let currentState := getNextState d currentState c in
      if bool_decide (currentState = -1) then false
      else accepts_loop d currentState rest
  end.

Definition accepts (d : t) (input : string) : bool :=
  accepts_loop d (startState d) (chars input).

End DFA.

(** ** LexicalAnalyzerGenerator *)

Module LexicalAnalyzerGenerator.

(** [map<string, string> tokenPatterns;  // tokenType -> regex pattern]
    as the list of its entries in key order, the order in which [build]
    visits them.  [std::string] compares bytewise, as [String.compare]. *)
Record t := mk {
  tokenPatterns : list (string * string);
  combinedNFA : NFA.t;
  finalDFA : DFA.t
}.

Definition new : t := mk [] NFA.new DFA.new.

(** [tokenPatterns[key] = value] *)
Fixpoint mapAssign (key value : string) (m : list (string * string)) : list (string * string) :=
  match m with
  | [] => [(key, value)]
  | (k, v) :: rest =>
      match String.compare key k with
      | Lt => (key, value) :: m
      | Eq => (k, value) :: rest
      | Gt => (k, v) :: mapAssign key value rest
      end
  end.

Definition addTokenPattern (tokenType pattern : string) (g : t) : t :=
  mk (mapAssign tokenType pattern (tokenPatterns g)) (combinedNFA g) (finalDFA g).

(** [combinedNFA = nfas[0]; for (i = 1; ...) combinedNFA = union_op(combinedNFA, nfas[i]);] *)
Definition combine (first : NFA.t) (others : list NFA.t) : NFA.t :=
  foldl NFA.union_op first others.

(** The two nested loops at the end of [build]: for each pattern, for each
    accepting state of the automaton, [setTokenType(state, pattern.first)]. *)
Definition labelAccepting (patterns : list (string * string)) (d : DFA.t) : DFA.t :=
  foldl (fun d pattern =>
           foldl (fun d state => DFA.setTokenType state pattern.1 d)
                 d (ascending (DFA.acceptingStates d)))
        d patterns.

(** [build].  With no pattern it reports an error and returns, leaving the
    generator as it was.  [fuel] bounds the loop of [DFA::fromNFA]. *)
Definition build (fuel : nat) (g : t) : option t :=
  let nfas := map (fun pattern => NFA.fromRegex pattern.2) (tokenPatterns g) in
  match nfas with
  | [] => Some g
  | first :: others =>
      let combined := combine first others in
      match DFA.fromNFA fuel combined with
      | None => None
      | Some d => Some (mk (tokenPatterns g) combined (labelAccepting (tokenPatterns g) d))
      end
  end.

End LexicalAnalyzerGenerator.

(** ** The emitted scanner

    [DFA::generateCppCode] writes a class [LexicalAnalyzer] whose tables are
    the transitions, the accepting states and the labels of the automaton,
    and whose [tokenize] is the routine below.  The tables are read from the
    [DFA.t] they were printed from.

    The characters of the transitions and the labels are written with [<<]
    between quotes, as they are: [transitionTable[{0, 'a'}] = 1;] and
    [stateToToken[1] = "T";].  The scanner holds the tables of the automaton
    when each of these characters stands for itself in a C++ literal
    ([emittable]).  A label with a backslash is read back as another string,
    and a transition on a quote or a backslash gives a file that does not
    compile; of such automata the routine below says nothing. *)

(** A character that stands for itself in a character literal and in a
    string literal: printable ASCII other than the two quotes, the backslash
    and the question mark (which could begin a trigraph). *)
Definition plainChar (c : ascii) : bool :=
  (32 <=? N_of_ascii c)%N && (N_of_ascii c <=? 126)%N
  && negb (bool_decide (c ∈ ["034"%char; "039"%char; "092"%char; "063"%char])).

(** The automaton is printed as it is: every character of its transition
    table and every character of its labels is plain. *)
Definition emittable (d : DFA.t) : bool :=
  forallb (fun entry : Z * ascii * Z => plainChar entry.1.2)
          (map_to_list (DFA.transitions d))
  && forallb (fun entry : Z * string => forallb plainChar (chars entry.2))
             (map_to_list (DFA.stateToTokenType d)).

Module LexicalAnalyzer.

Record Token := mkToken {
  type : string;
  lexeme : string;
  line : Z;
  column : Z
}.

(** The local variables of [tokenize]; [errors] collects the positions
    reported on [cerr]. *)
Record vars := mkVars {
  currentState : Z;
  currentLexeme : list ascii;
  curLine : Z;
  curColumn : Z;
  lastAcceptState : Z;
  lastAcceptPos : Z;
  tokens : list Token;
  errors : list (Z * Z)
}.

(** [stateToToken[state]]: the label, or the empty string that
    [operator[]] creates. *)
Definition stateToToken (d : DFA.t) (state : Z) : string :=
  default "" (DFA.stateToTokenType d !! state).

(** [currentLexeme.substr(0, count)] *)
Definition substr0 (l : list ascii) (count : Z) : list ascii :=
  take (Z.to_nat count) l.

Definition isBlank (c : ascii) : bool :=
  bool_decide (c = " "%char) || bool_decide (c = "009"%char) || bool_decide (c = "010"%char).

(** The body of the [for] loop at index [i]: the new value of [i] before the
    [i++] of the loop header, and the new variables. *)
Definition tokenizeStep (d : DFA.t) (c : ascii) (i : Z) (v : vars) : Z * vars :=
  let nextState := DFA.getNextState d (currentState v) c in
  let '(i, v) :=
    if bool_decide (nextState ≠ -1) then
      let lexeme' := currentLexeme v ++ [c] in
      if bool_decide (nextState ∈ DFA.acceptingStates d) then
        (i, mkVars nextState lexeme' (curLine v) (curColumn v) nextState i
                   (tokens v) (errors v))
      else
        (i, mkVars nextState lexeme' (curLine v) (curColumn v)
                   (lastAcceptState v) (lastAcceptPos v) (tokens v) (errors v))
    else if bool_decide (lastAcceptState v ≠ -1) then
      let token := mkToken (stateToToken d (lastAcceptState v))
                           (str (substr0 (currentLexeme v) (lastAcceptPos v + 1)))
                           (curLine v) (curColumn v) in
      (lastAcceptPos v,
       mkVars (DFA.startState d) [] (curLine v) (curColumn v) (-1) (-1)
              (tokens v ++ [token]) (errors v))
    else
      let errors' := if negb (isBlank c) then errors v ++ [(curLine v, curColumn v)]
                     else errors v in
      (i, mkVars (DFA.startState d) [] (curLine v) (curColumn v)
                 (lastAcceptState v) (lastAcceptPos v) (tokens v) errors')
  in
  let v :=
    if bool_decide (c = "010"%char) then
      mkVars (currentState v) (currentLexeme v) (curLine v + 1) 1
             (lastAcceptState v) (lastAcceptPos v) (tokens v) (errors v)
    else
      mkVars (currentState v) (currentLexeme v) (curLine v) (curColumn v + 1)
             (lastAcceptState v) (lastAcceptPos v) (tokens v) (errors v)
  in (i, v).

(** [for (size_t i = 0; i < input.length(); i++)].  The body may move [i]
    back, so the loop is not a traversal of [input]; [None] means that
    [fuel] iterations did not reach the end. *)
Fixpoint tokenizeLoop (fuel : nat) (d : DFA.t) (input : list ascii) (i : Z) (v : vars)
  : option vars :=
  if bool_decide (i < Z.of_nat (length input)) then
    match fuel with
    | O => None
    | S fuel =>
        let c := nth (Z.to_nat i) input epsilon in
        let '(i, v) := tokenizeStep d c i v in
        tokenizeLoop fuel d input (i + 1) v
    end
  else Some v.

(** The block after the loop ([// Handle last token]). *)
Definition handleLast (d : DFA.t) (v : vars) : list Token :=
  if bool_decide (lastAcceptState v ≠ -1) then
    tokens v ++ [mkToken (stateToToken d (lastAcceptState v)) (str (currentLexeme v))
                         (curLine v) (curColumn v)]
  else tokens v.

(** [tokenize]: the tokens returned, and the positions reported as lexical
    errors on the way. *)
Definition tokenize (fuel : nat) (d : DFA.t) (input : string) : option (list Token * list (Z * Z)) :=
  match tokenizeLoop fuel d (chars input) 0
          (mkVars (DFA.startState d) [] 1 1 (-1) (-1) [] []) with
  | None => None
  | Some v => Some (handleLast d v, errors v)
  end.

End LexicalAnalyzer.

(** * Notions used in the statements *)

(** ** Validation *)

Definition isParen (c : ascii) : bool :=
  bool_decide (c = "("%char) || bool_decide (c = ")"%char).

(** The pattern with every character other than the two parentheses removed. *)
Definition parensOf (regex : string) : string :=
  str (List.filter isParen (chars regex)).

(** ** Postfix translation, in the words of the specification

    Stage one inserts the concatenation operator between adjacent [a] then
    [b] iff [a ∉ {'(', '|'}] and [b ∉ {')', '|', '*'}].  Stage two is the
    shunting-yard: operands go to the output, ['('] is pushed, [')'] pops to
    the output until the matching ['('], an operator pops while the top of the
    stack is an operator of precedence at least its own and is then pushed;
    at the end the rest of the stack goes to the output.  Precedences:
    [* = 3], [. = 2], [| = 1]. *)

Module PostfixSpec.

Definition joins (a b : ascii) : bool :=
  bool_decide (a ∉ ["("%char; "|"%char])
  && bool_decide (b ∉ [")"%char; "|"%char; "*"%char]).

Fixpoint insertConcat (pattern : list ascii) : list ascii :=
  match pattern with
  | [] => []
  | a :: rest =>
      match rest with
      | [] => [a]
      | b :: _ =>
          if joins a b then a :: "."%char :: insertConcat rest
          else a :: insertConcat rest
      end
  end.

(** The precedence of an operator; [None] for any other character. *)
Definition precedence (op : ascii) : option Z :=
  if bool_decide (op = "*"%char) then Some 3
  else if bool_decide (op = "."%char) then Some 2
  else if bool_decide (op = "|"%char) then Some 1
  else None.

(** [top] is an operator of precedence greater than or equal to that of the
    operator [c]. *)
Definition outranks (c top : ascii) : bool :=
  match precedence top, precedence c with
  | Some pt, Some pc => bool_decide (pc ≤ pt)
  | _, _ => false
  end.

(** Pop while the top satisfies [P]: the popped characters, top first, and
    the stack that is left. *)
Fixpoint popWhile (P : ascii → bool) (stack : list ascii) : list ascii * list ascii :=
  match stack with
  | [] => ([], [])
  | top :: rest =>
      if P top then (top :: (popWhile P rest).1, (popWhile P rest).2)
      else ([], stack)
  end.

Definition shunt (st : list ascii * list ascii) (c : ascii) : list ascii * list ascii :=
  if bool_decide (c = "("%char) then (st.1, c :: st.2)
  else if bool_decide (c = ")"%char) then
    let pw := popWhile (λ top, bool_decide (top ≠ "("%char)) st.2 in
    (st.1 ++ pw.1, tail pw.2)
  else match precedence c with
       | Some _ =>
           let pw := popWhile (outranks c) st.2 in
           (st.1 ++ pw.1, c :: pw.2)
       | None => (st.1 ++ [c], st.2)
       end.

Definition shuntingYard (tokens : list ascii) : list ascii :=
  let st := foldl shunt ([], []) tokens in
  st.1 ++ st.2.

Definition toPostfix (pattern : string) : string :=
  str (shuntingYard (insertConcat (chars pattern))).

End PostfixSpec.

(** What the operator stack of [infixToPostfix] holds: open parentheses and
    operators. *)
Definition onStack (c : ascii) : Prop :=
  c = "("%char ∨ RegexParser.isOperator c = true.

(** ** Epsilon moves *)

(** [q'] follows [q] by one epsilon transition of the automaton. *)
Definition epsStep (n : NFA.t) (q q' : Z) : Prop :=
  ∃ trans, trans ∈ NFA.transitions n
           ∧ fromState trans = q ∧ symbol trans = epsilon ∧ toState trans = q'.

(** The states that a transition can lead to: all that can ever enter a
    closure besides its seed. *)
Definition targets (ts : list Transition) : gset Z :=
  list_to_set (toState <$> ts).

(** The transitions that a scan for [current] follows. *)
Definition followed (current : Z) (trans : Transition) : Prop :=
  fromState trans = current ∧ symbol trans = epsilon.

(** The invariant of the [while] loop of [epsilonClosure(int)] started from
    [seed]: the closure holds the seed and only states reached from it; the
    stack is part of the closure; a state of the closure that is no longer on
    the stack has all its epsilon successors in the closure. *)
Definition closureInv (n : NFA.t) (seed : Z) (closure : gset Z) (stateStack : list Z) : Prop :=
  seed ∈ closure
  ∧ (∀ x, x ∈ closure → rtc (epsStep n) seed x)
  ∧ (∀ x, x ∈ stateStack → x ∈ closure)
  ∧ (∀ x y, x ∈ closure → x ∉ stateStack → epsStep n x y → y ∈ closure).

(** ** Thompson's construction *)

(** The number of automata an operator of the postfix stream takes from the
    stack; an operand takes none. *)
Definition operands (c : ascii) : nat :=
  if bool_decide (c = "*"%char) then 1
  else if bool_decide (c = "|"%char) then 2
  else if bool_decide (c = "."%char) then 2
  else 0.

(** ** Languages *)

(** [reaches n q w q']: the automaton can go from [q] to [q'] reading [w],
    by epsilon transitions and by transitions on the characters of [w]. *)
Inductive reaches (n : NFA.t) : Z → list ascii → Z → Prop :=
  | reaches_here q : reaches n q [] q
  | reaches_eps q q' w q'' :
      epsStep n q q' → reaches n q' w q'' → reaches n q w q''
  | reaches_char q c q' w q'' :
      c ≠ epsilon → mkTransition q q' c ∈ NFA.transitions n →
      reaches n q' w q'' → reaches n q (c :: w) q''.

Definition nfaAccepts (n : NFA.t) (w : string) : Prop :=
  ∃ q, q ∈ NFA.acceptingStates n ∧ reaches n (NFA.startState n) (chars w) q.

(** [runs d s w s']: the transition table leads from [s] to [s'] along [w],
    through entries that are present and are not the [-1] that
    [getNextState] returns for a missing one. *)
Inductive runs (d : DFA.t) : Z → list ascii → Z → Prop :=
  | runs_nil s : runs d s [] s
  | runs_cons s c s' w s'' :
      DFA.transitions d !! (s, c) = Some s' → s' ≠ -1 →
      runs d s' w s'' → runs d s (c :: w) s''.

(** ** Sequences of [addTokenPattern] calls *)

Definition addAll (calls : list (string * string)) (g : LexicalAnalyzerGenerator.t)
  : LexicalAnalyzerGenerator.t :=
  foldl (λ g call, LexicalAnalyzerGenerator.addTokenPattern call.1 call.2 g) g calls.

(** The pattern given by the last call for [name], if any. *)
Definition lastPattern (name : string) (calls : list (string * string)) : option string :=
  foldl (λ r call, if bool_decide (call.1 = name) then Some call.2 else r) None calls.

(** [tokenPatterns.find(name)] *)
Definition findPattern (name : string) (m : list (string * string)) : option string :=
  snd <$> List.find (λ entry, bool_decide (entry.1 = name)) m.

(** Entries in strictly increasing order of their names. *)
Definition nameLt (e1 e2 : string * string) : Prop :=
  String.compare e1.1 e2.1 = Lt.

(** Case analysis on the comparisons of characters in a goal. *)
Ltac decide_chars :=
  repeat (case_bool_decide; simplify_eq/=); try done; try lia.

(** ** Balanced parentheses *)

(** The number of ['('] minus the number of [')'] in a string. *)
Definition depth (l : list ascii) : Z :=
  foldl (λ n c, if bool_decide (c = "("%char) then n + 1
                else if bool_decide (c = ")"%char) then n - 1 else n) 0 l.

(** Every prefix has at least as many ['('] as [')'], and the whole string as
    many of the one as of the other. *)
Definition balanced (l : list ascii) : Prop :=
  depth l = 0 ∧ ∀ k : nat, 0 ≤ depth (take k l).

(** ** Operands of a pattern *)

(** A character that [infixToPostfix] sends straight to the output: neither
    an operator nor a parenthesis. *)
Definition isOperand (c : ascii) : bool :=
  negb (RegexParser.isOperator c)
  && bool_decide (c ≠ "("%char) && bool_decide (c ≠ ")"%char).

Definition noParen (c : ascii) : Prop := c ≠ "("%char ∧ c ≠ ")"%char.

(** The number of open parentheses on the operator stack. *)
Definition opens (opStack : list ascii) : nat :=
  length (List.filter (λ c, bool_decide (c = "("%char)) opStack).

(** ** Well-formed automata *)

(** [q] is the id of a state of the automaton. *)
Definition inRange (n : NFA.t) (q : Z) : Prop :=
  0 ≤ q < Z.of_nat (length (NFA.states n)).

(** What Thompson's construction keeps true of the automata on its stack:
    the states are numbered [0, 1, ...] in the order of the vector;
    transitions, start state and accepting states name states of the
    automaton; the set of accepting states and the flags of the states
    agree; [stateCounter] is the number of states. *)
Record wellFormed (n : NFA.t) : Prop := mkWellFormed {
  wf_ids : id <$> NFA.states n = seqZ 0 (Z.of_nat (length (NFA.states n)));
  wf_transitions :
    Forall (λ t, inRange n (fromState t) ∧ inRange n (toState t)) (NFA.transitions n);
  wf_start : inRange n (NFA.startState n);
  wf_accepting :
    ∀ q, q ∈ NFA.acceptingStates n
         ↔ ∃ s, s ∈ NFA.states n ∧ id s = q ∧ isAccepting s = true;
  wf_counter : NFA.stateCounter n = Z.of_nat (length (NFA.states n))
}.

(** The automaton accepts the characters [l]. *)
Definition nfaAcceptsChars (n : NFA.t) (l : list ascii) : Prop :=
  ∃ q, q ∈ NFA.acceptingStates n ∧ reaches n (NFA.startState n) l q.

(** ** The subset construction *)

(** The subset that the construction reaches from [T] on [c]. *)
Definition target (nfa : NFA.t) (T : gset Z) (c : ascii) : gset Z :=
  NFA.epsilonClosure nfa (NFA.move nfa T c).

(** The order of [std::set<char>] in the model. *)
Definition charLt (a b : ascii) : Prop := (N_of_ascii a < N_of_ascii b)%N.

(** The work that is left in the loops of [fromNFA]: for each subset that is
    not finished, the characters it has still to be moved on. *)
Definition pendingAt (pending : list (gset Z * list ascii)) (T : gset Z) (c : ascii) : Prop :=
  ∃ syms, (T, syms) ∈ pending ∧ c ∈ syms.

(** A subset in the queue has the whole alphabet before it. *)
Definition queued (alpha : list ascii) (queue : list (gset Z)) : list (gset Z * list ascii) :=
  (λ T, (T, alpha)) <$> queue.

(** What the table says for the subset [T], numbered [i], on [c]: no entry
    when the target subset is empty, else the number of the target. *)
Definition settled (nfa : NFA.t) (w : DFA.work) (T : gset Z) (i : Z) (c : ascii) : Prop :=
  (target nfa T c = ∅ ∧ DFA.transitions (DFA.dfa w) !! (i, c) = None)
  ∨ (target nfa T c ≠ ∅
     ∧ ∃ j, DFA.dfaStateMap w !! target nfa T c = Some j
            ∧ DFA.transitions (DFA.dfa w) !! (i, c) = Some j).

(** The invariant of the loops of [fromNFA]. *)
Record subsetInv (nfa : NFA.t) (alpha : list ascii) (w : DFA.work)
    (pending : list (gset Z * list ascii)) : Prop := mkSubsetInv {
  si_start :
    DFA.dfaStateMap w !! NFA.epsilonClosure_state nfa (NFA.startState nfa) = Some 0
    ∧ DFA.startState (DFA.dfa w) = 0;
  si_inj : ∀ T T' i,
    DFA.dfaStateMap w !! T = Some i → DFA.dfaStateMap w !! T' = Some i → T = T';
  si_range : ∀ T i, DFA.dfaStateMap w !! T = Some i → 0 ≤ i < DFA.dfaStateCounter w;
  si_closed : ∀ T i, DFA.dfaStateMap w !! T = Some i →
    ∀ a b, a ∈ T → epsStep nfa a b → b ∈ T;
  si_accept : ∀ T i, DFA.dfaStateMap w !! T = Some i →
    (i ∈ DFA.acceptingStates (DFA.dfa w) ↔ DFA.hasAccepting nfa T = true);
  si_acc_range : ∀ s, s ∈ DFA.acceptingStates (DFA.dfa w) → 0 ≤ s < DFA.dfaStateCounter w;
  si_tr_range : ∀ i c j, DFA.transitions (DFA.dfa w) !! (i, c) = Some j →
    0 ≤ i < DFA.dfaStateCounter w;
  si_done : ∀ T i c, DFA.dfaStateMap w !! T = Some i → c ∈ alpha →
    ¬ pendingAt pending T c → settled nfa w T i c;
  si_todo : ∀ T i c, DFA.dfaStateMap w !! T = Some i →
    pendingAt pending T c ∨ c ∉ alpha → DFA.transitions (DFA.dfa w) !! (i, c) = None;
  si_pending : ∀ T syms, (T, syms) ∈ pending →
    is_Some (DFA.dfaStateMap w !! T) ∧ NoDup syms ∧ ∀ c, c ∈ syms → c ∈ alpha;
  si_nodup : NoDup pending.*1
}.

(** The automaton accepts the characters [l] from one of the states of [T]. *)
Definition acceptsFrom (nfa : NFA.t) (T : gset Z) (l : list ascii) : Prop :=
  ∃ q q', q ∈ T ∧ q' ∈ NFA.acceptingStates nfa ∧ reaches nfa q l q'.

(** ** Positions in the input *)

(** The line and column after the character [c], as [tokenize] counts them. *)
Definition advance (p : Z * Z) (c : ascii) : Z * Z :=
  if bool_decide (c = "010"%char) then (p.1 + 1, 1) else (p.1, p.2 + 1).

(** The states that a subset of the construction can hold: the start state
    and the targets of the transitions. *)
Definition reachable (nfa : NFA.t) : gset Z :=
  {[NFA.startState nfa]} ∪ targets (NFA.transitions nfa).

(** A number of iterations that is enough for the loop of [fromNFA]: each
    iteration finishes one subset of [reachable], and there are at most
    [2 ^ (1 + number of transitions)] of them. *)
Definition subsetFuel (nfa : NFA.t) : nat :=
  2 * 2 ^ S (length (NFA.transitions nfa)).

(** Every numbered subset is a subset of [reachable]. *)
Definition bounded (nfa : NFA.t) (w : DFA.work) : Prop :=
  ∀ T, is_Some (DFA.dfaStateMap w !! T) → T ⊆ reachable nfa.

(** Twice the subsets numbered less the subsets queued: it goes up by one in
    each iteration of the outer loop of [fromNFA]. *)
Definition progress (w : DFA.work) : Z :=
  2 * Z.of_nat (size (DFA.dfaStateMap w)) - Z.of_nat (length (DFA.unmarkedStates w)).

(** ** The language of a postfix expression *)

Definition language : Type := list ascii → Prop.

(** The NUL character is the label of an epsilon transition, so as an
    operand it stands for the empty string. *)
Definition langSymbol (c : ascii) : language :=
  λ w, if bool_decide (c = epsilon) then w = [] else w = [c].

Definition langUnion (L1 L2 : language) : language := λ w, L1 w ∨ L2 w.

Definition langConcat (L1 L2 : language) : language :=
  λ w, ∃ u v, w = u ++ v ∧ L1 u ∧ L2 v.

Definition langStar (L : language) : language :=
  λ w, ∃ ls, w = concat ls ∧ Forall L ls.

(** The languages on the stack after one more character of the postfix
    expression: an operator combines the languages on top of the stack, and
    is passed over when the stack holds too few; any other character is an
    operand. *)
Definition denoteStep (stack : list language) (c : ascii) : list language :=
  if bool_decide (c = "*"%char) then
    match stack with
    | [] => stack
    | L :: rest => langStar L :: rest
    end
  else if bool_decide (c = "|"%char) then
    match stack with
    | L2 :: L1 :: rest => langUnion L1 L2 :: rest
    | _ => stack
    end
  else if bool_decide (c = "."%char) then
    match stack with
    | L2 :: L1 :: rest => langConcat L1 L2 :: rest
    | _ => stack
    end
  else langSymbol c :: stack.

Definition denotePostfix (postfix : list ascii) : list language :=
  foldl denoteStep [] postfix.

(** The automaton is well formed and accepts the language [L]. *)
Definition recognizes (n : NFA.t) (L : language) : Prop :=
  wellFormed n ∧ ∀ l, nfaAcceptsChars n l ↔ L l.

(** ** Well-formed deterministic automata *)

(** What the loops of [fromNFA] keep true of the automaton under
    construction: the states are numbered [0, 1, ...] up to the counter;
    the flags of the states and the set of accepting states agree; the
    numbers in the map of subsets, in the accepting set and in the table are
    numbers of states; the table has entries for characters of the alphabet
    only; no state has a label. *)
Record structInv (alpha : list ascii) (w : DFA.work) : Prop := mkStructInv {
  sv_ids : id <$> DFA.states (DFA.dfa w) = seqZ 0 (DFA.dfaStateCounter w);
  sv_counter : 1 ≤ DFA.dfaStateCounter w;
  sv_start : DFA.startState (DFA.dfa w) = 0;
  sv_flags : ∀ s, s ∈ DFA.states (DFA.dfa w) →
    (isAccepting s = true ↔ id s ∈ DFA.acceptingStates (DFA.dfa w));
  sv_types : ∀ s, s ∈ DFA.states (DFA.dfa w) → tokenType s = ""%string;
  sv_accepting : ∀ q, q ∈ DFA.acceptingStates (DFA.dfa w) → 0 ≤ q < DFA.dfaStateCounter w;
  sv_map : ∀ T j, DFA.dfaStateMap w !! T = Some j → 0 ≤ j < DFA.dfaStateCounter w;
  sv_transitions : ∀ i c j, DFA.transitions (DFA.dfa w) !! (i, c) = Some j →
    0 ≤ i < DFA.dfaStateCounter w ∧ 0 ≤ j < DFA.dfaStateCounter w ∧ c ∈ alpha;
  sv_alphabet : DFA.alphabet (DFA.dfa w) = alpha;
  sv_labels : DFA.stateToTokenType (DFA.dfa w) = ∅
}.

(** [s] is the number of a state of the automaton. *)
Definition isState (d : DFA.t) (s : Z) : Prop :=
  0 ≤ s < Z.of_nat (length (DFA.states d)).

(** What is true of the automaton that [fromNFA] returns for [nfa]. *)
Record dfaWellFormed (nfa : NFA.t) (d : DFA.t) : Prop := mkDfaWellFormed {
  dw_ids : id <$> DFA.states d = seqZ 0 (Z.of_nat (length (DFA.states d)));
  dw_start : DFA.startState d = 0 ∧ isState d 0;
  dw_flags : ∀ s, s ∈ DFA.states d →
    (isAccepting s = true ↔ id s ∈ DFA.acceptingStates d);
  dw_accepting : ∀ q, q ∈ DFA.acceptingStates d → isState d q;
  dw_transitions : ∀ i c j, DFA.transitions d !! (i, c) = Some j →
    isState d i ∧ isState d j ∧ c ∈ DFA.alphabet d;
  dw_alphabet :
    NoDup (DFA.alphabet d)
    ∧ ∀ c, c ∈ DFA.alphabet d
           ↔ c ≠ epsilon ∧ ∃ t, t ∈ NFA.transitions nfa ∧ symbol t = c;
  dw_labels :
    DFA.stateToTokenType d = ∅ ∧ ∀ s, s ∈ DFA.states d → tokenType s = ""%string
}.

(** ** Tokens *)

(** What every token of [tokenize] is: a piece of the input that is not
    empty, labelled with the label of an accepting state. *)
Definition goodToken (d : DFA.t) (input : list ascii) (t : LexicalAnalyzer.Token) : Prop :=
  LexicalAnalyzer.lexeme t ≠ ""%string
  ∧ (∃ pre post, input = pre ++ chars (LexicalAnalyzer.lexeme t) ++ post)
  ∧ ∃ s, s ∈ DFA.acceptingStates d
         ∧ LexicalAnalyzer.type t = LexicalAnalyzer.stateToToken d s.

(** The invariant of the loop of [tokenize] at index [i]: the tokens so far
    are good, the current lexeme ends where the scan is, and a last match
    stands for an accepting state reached on a lexeme that is not empty. *)
Definition tokenInv (d : DFA.t) (input : list ascii) (i : Z) (v : LexicalAnalyzer.vars) : Prop :=
  0 ≤ i
  ∧ Forall (goodToken d input) (LexicalAnalyzer.tokens v)
  ∧ (∃ pre, take (Z.to_nat i) input = pre ++ LexicalAnalyzer.currentLexeme v)
  ∧ (LexicalAnalyzer.lastAcceptState v ≠ -1 →
     LexicalAnalyzer.lastAcceptState v ∈ DFA.acceptingStates d
     ∧ LexicalAnalyzer.currentLexeme v ≠ []
     ∧ 0 ≤ LexicalAnalyzer.lastAcceptPos v).

(** ** Patterns of the usual grammar

    A pattern as the generator is meant to read it: alternatives of
    sequences of starred atoms, an atom being a character or a group in
    parentheses. *)
Inductive pattern : Type :=
  | PSym (c : ascii)
  | PGroup (p : pattern)
  | PStar (p : pattern)
  | PCat (p1 p2 : pattern)
  | PAlt (p1 p2 : pattern).










(** * Properties *)

Lemma chars_str (l : list ascii) : chars (str l) = l.
Proof. apply list_ascii_of_string_of_list_ascii. Qed.

(** ** The pipeline on small inputs *)

Example infixToPostfix_samples :
  RegexParser.infixToPostfix "a(b|c)*" = "abc|*."%string
  ∧ RegexParser.infixToPostfix "ab|c" = "ab.c|"%string
  ∧ RegexParser.infixToPostfix "(a|b)c" = "ab|c."%string
  ∧ RegexParser.infixToPostfix "" = ""%string.
Proof. by vm_compute. Qed.

Example fromSymbol_sample :
  NFA.fromSymbol "a"%char
  = NFA.mk [mkState 0 false ""; mkState 1 true ""] [mkTransition 0 1 "a"%char] 0 {[1]} 2.
Proof. by vm_compute. Qed.

Example epsilonClosure_sample :
  NFA.epsilonClosure_state (NFA.fromRegex "a|b") 0 = {[0; 1; 3]}
  ∧ NFA.move (NFA.fromRegex "a|b") {[0; 1; 3]} "a"%char = {[2]}
  ∧ NFA.epsilonClosure (NFA.fromRegex "a|b") {[2]} = {[2; 5]}.
Proof. by vm_compute. Qed.

(** The pattern ["(a|b)c"] matches ["ac"] and ["bc"] and neither ["c"] nor
    ["abc"]. *)
Example grouping_sample :
  ∃ d, DFA.fromNFA 20 (NFA.fromRegex "(a|b)c") = Some d
       ∧ DFA.accepts d "ac" = true ∧ DFA.accepts d "bc" = true
       ∧ DFA.accepts d "c" = false ∧ DFA.accepts d "abc" = false.
Proof. eexists. split; [by vm_compute|]. repeat split; by vm_compute. Qed.

Lemma elem_of_ascending (s : gset Z) (x : Z) : x ∈ ascending s ↔ x ∈ s.
Proof. unfold ascending. by rewrite merge_sort_Permutation, elem_of_elements. Qed.

(** ** RegexParser::isValidRegex *)

Section Validation.
Import RegexParser.

(** Between two characters the counter is never negative, so a character
    that is no parenthesis passes the test it meets. *)
Lemma isValidRegex_loop_filter (l : list ascii) (n : Z) :
  0 ≤ n → isValidRegex_loop n l = isValidRegex_loop n (List.filter isParen l).
Proof.
  revert n; induction l as [|c l IH]; intros n Hn; [done|].
  cbn [isValidRegex_loop List.filter]. unfold isParen at 1.
  destruct (decide (c = "("%char)) as [->|Hl].
  - rewrite (bool_decide_eq_true_2 ("("%char = "("%char)) by done.
    rewrite (bool_decide_eq_false_2 ("("%char = ")"%char)) by done.
    cbn [orb isValidRegex_loop].
    rewrite (bool_decide_eq_true_2 ("("%char = "("%char)) by done.
    rewrite (bool_decide_eq_false_2 ("("%char = ")"%char)) by done.
    case_bool_decide; [done|]. apply IH; lia.
  - rewrite (bool_decide_eq_false_2 _ Hl).
    destruct (decide (c = ")"%char)) as [->|Hr].
    + rewrite (bool_decide_eq_true_2 (")"%char = ")"%char)) by done.
      cbn [orb isValidRegex_loop].
      rewrite (bool_decide_eq_true_2 (")"%char = ")"%char)) by done.
      rewrite (bool_decide_eq_false_2 (")"%char = "("%char)) by done.
      case_bool_decide; [done|]. apply IH; lia.
    + rewrite (bool_decide_eq_false_2 _ Hr). cbn [orb].
      case_bool_decide; [lia|]. by apply IH.
Qed.

Lemma isValidRegex_loop_no_paren (l : list ascii) (n : Z) :
  0 ≤ n → Forall (λ c, c ≠ "("%char ∧ c ≠ ")"%char) l →
  isValidRegex_loop n l = bool_decide (n = 0).
Proof.
  intros Hn Hl; induction Hl as [|c l [H1 H2] _ IH]; [done|].
  cbn [isValidRegex_loop].
  rewrite (bool_decide_eq_false_2 _ H1), (bool_decide_eq_false_2 _ H2).
  by rewrite (bool_decide_eq_false_2 (n < 0)) by lia.
Qed.

(** C10.  [isValidRegex] looks at the parentheses only: a pattern and the
    string of its parentheses get the same verdict, and a pattern without
    any parenthesis is valid, whatever its operators; so are ["*"], ["|a"]
    and ["a||b"]. *)
Theorem isValidRegex_parens_only (p : string) :
  isValidRegex p = isValidRegex (parensOf p)
  ∧ (Forall (λ c, c ≠ "("%char ∧ c ≠ ")"%char) (chars p) → isValidRegex p = true)
  ∧ isValidRegex "*" = true ∧ isValidRegex "|a" = true ∧ isValidRegex "a||b" = true.
Proof.
  split; [|split; [|by vm_compute]].
  - unfold isValidRegex, parensOf. rewrite chars_str.
    by apply isValidRegex_loop_filter.
  - intros Hp. unfold isValidRegex. by rewrite isValidRegex_loop_no_paren.
Qed.

Lemma isValidRegex_parens_only_witness :
  Forall (λ c, c ≠ "("%char ∧ c ≠ ")"%char) (chars "a||b")
  ∧ isValidRegex "a||b" = isValidRegex (parensOf "a||b")
  ∧ isValidRegex "a||b" = true.
Proof.
  assert (Hp : Forall (λ c, c ≠ "("%char ∧ c ≠ ")"%char) (chars "a||b")).
  { repeat constructor; discriminate. }
  destruct (isValidRegex_parens_only "a||b") as (H1 & H2 & _).
  split; [exact Hp|]. split; [exact H1|exact (H2 Hp)].
Defined.

End Validation.

(** ** RegexParser::infixToPostfix *)

Section Postfix.
Import RegexParser.

(** The loop by index over [pre ++ l], started at the first index of [l]. *)
Lemma addConcat_from (l pre acc : list ascii) :
  foldl (concatStep (pre ++ l)) acc (seq (length pre) (length l))
  = acc ++ PostfixSpec.insertConcat l.
Proof.
  revert pre acc; induction l as [|a rest IH]; intros pre acc.
  { cbn. by rewrite app_nil_r. }
  cbn [length seq foldl].
  assert (Hc : nth (length pre) (pre ++ a :: rest) epsilon = a).
  { rewrite app_nth2 by lia. by rewrite Nat.sub_diag. }
  assert (Hstep : concatStep (pre ++ a :: rest) acc (length pre)
                  = acc ++ match rest with
                           | [] => [a]
                           | b :: _ => if PostfixSpec.joins a b then [a; "."%char] else [a]
                           end).
  { unfold concatStep. rewrite Hc. destruct rest as [|b rest'].
    - rewrite bool_decide_eq_false_2; [done|]. rewrite length_app; cbn; lia.
    - rewrite bool_decide_eq_true_2 by (rewrite length_app; cbn; lia).
      assert (Hn : nth (length pre + 1) (pre ++ a :: b :: rest') epsilon = b).
      { rewrite app_nth2 by lia.
        by replace (length pre + 1 - length pre)%nat with 1%nat by lia. }
      rewrite Hn. unfold PostfixSpec.joins.
      rewrite <- app_assoc. cbn [app].
      assert (Ha : bool_decide (a ≠ "("%char) && bool_decide (a ≠ "|"%char)
                   = bool_decide (a ∉ ["("%char; "|"%char])).
      { apply eq_true_iff_eq. rewrite andb_true_iff, !bool_decide_eq_true.
        rewrite !not_elem_of_cons. pose proof (not_elem_of_nil a). tauto. }
      assert (Hb : bool_decide (b ≠ ")"%char) && bool_decide (b ≠ "|"%char)
                     && bool_decide (b ≠ "*"%char)
                   = bool_decide (b ∉ [")"%char; "|"%char; "*"%char])).
      { apply eq_true_iff_eq. rewrite !andb_true_iff, !bool_decide_eq_true.
        rewrite !not_elem_of_cons. pose proof (not_elem_of_nil b). tauto. }
      rewrite Ha, Hb. clear. by destruct (andb _ _). }
  rewrite Hstep.
  replace (pre ++ a :: rest) with ((pre ++ [a]) ++ rest) by (by rewrite <- app_assoc).
  replace (S (length pre)) with (length (pre ++ [a])) by (rewrite length_app; cbn; lia).
  rewrite IH. rewrite <- app_assoc. f_equal.
  cbn [PostfixSpec.insertConcat]. destruct rest as [|b rest']; [done|].
  by destruct (PostfixSpec.joins a b).
Qed.

Lemma addConcat_insertConcat (l : list ascii) :
  addConcat l = PostfixSpec.insertConcat l.
Proof. unfold addConcat. apply (addConcat_from l [] []). Qed.

Lemma isOperator_precedence (c : ascii) :
  PostfixSpec.precedence c = if isOperator c then Some (getPrecedence c) else None.
Proof. unfold PostfixSpec.precedence, isOperator, getPrecedence. decide_chars. Qed.

Lemma isOperator_not_paren (c : ascii) :
  isOperator c = true → c ≠ "("%char ∧ c ≠ ")"%char.
Proof. unfold isOperator. decide_chars. Qed.

Lemma popToParen_popWhile (result opStack : list ascii) :
  popToParen result opStack
  = (result ++ (PostfixSpec.popWhile (λ top, bool_decide (top ≠ "("%char)) opStack).1,
     (PostfixSpec.popWhile (λ top, bool_decide (top ≠ "("%char)) opStack).2).
Proof.
  revert result; induction opStack as [|top rest IH]; intros result; cbn.
  { by rewrite app_nil_r. }
  destruct (bool_decide (top ≠ "("%char)); cbn.
  - rewrite IH. by rewrite <- app_assoc.
  - by rewrite app_nil_r.
Qed.

Lemma popHigher_popWhile (c : ascii) (result opStack : list ascii) :
  isOperator c = true → Forall onStack opStack →
  popHigher c result opStack
  = (result ++ (PostfixSpec.popWhile (PostfixSpec.outranks c) opStack).1,
     (PostfixSpec.popWhile (PostfixSpec.outranks c) opStack).2).
Proof.
  intros Hc Hst; revert result; induction Hst as [|top rest Htop _ IH]; intros result; cbn.
  { by rewrite app_nil_r. }
  assert (Heq : bool_decide (top ≠ "("%char)
                && bool_decide (getPrecedence top >= getPrecedence c)
                = PostfixSpec.outranks c top).
  { unfold PostfixSpec.outranks. rewrite !isOperator_precedence, Hc.
    destruct Htop as [->|Hop].
    - by rewrite bool_decide_eq_false_2 by (by intros []).
    - rewrite Hop. rewrite bool_decide_eq_true_2 by (by apply isOperator_not_paren).
      cbn. apply bool_decide_ext. lia. }
  rewrite Heq. destruct (PostfixSpec.outranks c top); cbn.
  - rewrite IH. by rewrite <- app_assoc.
  - by rewrite app_nil_r.
Qed.

Lemma popWhile_Forall (P : ascii → bool) (Q : ascii → Prop) (stack : list ascii) :
  Forall Q stack → Forall Q (PostfixSpec.popWhile P stack).2.
Proof.
  induction 1 as [|top rest Htop Hrest IH]; cbn; [done|].
  destruct (P top); cbn; [done|]. by constructor.
Qed.

Lemma postfixStep_shunt (st : list ascii * list ascii) (c : ascii) :
  Forall onStack st.2 →
  postfixStep st c = PostfixSpec.shunt st c ∧ Forall onStack (PostfixSpec.shunt st c).2.
Proof.
  destruct st as [result opStack]; cbn [snd]; intros Hst.
  unfold postfixStep, PostfixSpec.shunt; cbn [fst snd].
  destruct (decide (c = "("%char)) as [->|Hl].
  { rewrite (bool_decide_eq_true_2 ("("%char = "("%char)) by done.
    assert (negb (isOperator "("%char) && bool_decide ("("%char ≠ "("%char)
            && bool_decide ("("%char ≠ ")"%char) = false) as -> by (by vm_compute).
    split; [done|]. constructor; [by left|done]. }
  rewrite (bool_decide_eq_false_2 _ Hl), (bool_decide_eq_true_2 _ Hl).
  destruct (decide (c = ")"%char)) as [->|Hr].
  { assert (isOperator ")"%char = false) as -> by (by vm_compute).
    rewrite (bool_decide_eq_true_2 (")"%char = ")"%char)) by done.
    rewrite (bool_decide_eq_false_2 (")"%char ≠ ")"%char)) by (by intros []).
    cbn [negb andb]. rewrite popToParen_popWhile.
    pose proof (popWhile_Forall (λ top, bool_decide (top ≠ "("%char)) _ _ Hst) as Hleft.
    destruct (PostfixSpec.popWhile _ opStack) as [popped left]; cbn [fst snd] in *.
    split; [by destruct left|].
    destruct Hleft; [done|]. cbn. done. }
  rewrite (bool_decide_eq_false_2 _ Hr), (bool_decide_eq_true_2 _ Hr).
  rewrite isOperator_precedence. rewrite !andb_true_r.
  destruct (isOperator c) eqn:Hop; cbn [negb].
  - rewrite (popHigher_popWhile c result opStack Hop Hst).
    split; [done|]. cbn [snd]. constructor; [by right|].
    by apply popWhile_Forall.
  - done.
Qed.

Lemma toPostfix_shuntingYard (tokens : list ascii) :
  toPostfix tokens = PostfixSpec.shuntingYard tokens.
Proof.
  unfold toPostfix, PostfixSpec.shuntingYard.
  assert (H : ∀ st, Forall onStack st.2 →
              foldl postfixStep st tokens = foldl PostfixSpec.shunt st tokens).
  { induction tokens as [|c tokens IH]; intros st Hst; [done|].
    cbn [foldl]. destruct (postfixStep_shunt st c Hst) as [-> Hst'].
    by apply IH. }
  rewrite H by (cbn; constructor).
  by destruct (foldl PostfixSpec.shunt _ _).
Qed.

(** C8.  [infixToPostfix] is the two-stage translation of the
    specification: the first loop inserts ['.'] between adjacent [a] then [b]
    exactly when [a] is neither ['('] nor ['|'] and [b] is none of [')'],
    ['|'], ['*']; the second loop is the shunting-yard in which an operator
    pops the operators of greater or equal precedence, ['('] is pushed and
    [')'] pops to the matching ['(']; the precedences are 3, 2 and 1. *)
Theorem infixToPostfix_two_stages (pattern : string) :
  addConcat (chars pattern) = PostfixSpec.insertConcat (chars pattern)
  ∧ infixToPostfix pattern = PostfixSpec.toPostfix pattern
  ∧ getPrecedence "*"%char = 3 ∧ getPrecedence "."%char = 2
  ∧ getPrecedence "|"%char = 1.
Proof.
  split; [apply addConcat_insertConcat|]. split; [|by vm_compute].
  unfold infixToPostfix, PostfixSpec.toPostfix.
  by rewrite addConcat_insertConcat, toPostfix_shuntingYard.
Qed.

End Postfix.

(** ** NFA::fromRegex *)

Section Thompson.
Import NFA.

Lemma thompsonStep_underfull (c : ascii) (nfaStack : list NFA.t) :
  (length nfaStack < operands c)%nat → thompsonStep nfaStack c = nfaStack.
Proof.
  unfold operands, thompsonStep.
  repeat case_bool_decide; intros Hlen.
  - destruct nfaStack; [done|cbn in Hlen; lia].
  - destruct nfaStack as [|? [|? ?]]; [done|done|cbn in Hlen; lia].
  - destruct nfaStack as [|? [|? ?]]; [done|done|cbn in Hlen; lia].
  - lia.
Qed.

(** C5, as the code has it.  The Thompson builder has no failure: an
    operator that finds fewer automata on the stack than it needs is skipped,
    so the stream is evaluated as if the operator were not there; and the
    builder returns the top of the final stack, whatever its depth, or the
    default-constructed automaton when the stack is empty. *)
Theorem fromPostfix_skips_operator (pre post : list ascii) (c : ascii) :
  (length (evalPostfix pre) < operands c)%nat →
  evalPostfix (pre ++ c :: post) = evalPostfix (pre ++ post)
  ∧ fromPostfix (pre ++ c :: post) = fromPostfix (pre ++ post)
  ∧ fromPostfix (pre ++ post) = hd NFA.new (evalPostfix (pre ++ post)).
Proof.
  intros Hlen.
  assert (Heval : evalPostfix (pre ++ c :: post) = evalPostfix (pre ++ post)).
  { unfold evalPostfix in *. rewrite !foldl_app. cbn [foldl].
    by rewrite thompsonStep_underfull. }
  split; [done|]. unfold fromPostfix. rewrite Heval.
  split; [done|]. by destruct (evalPostfix (pre ++ post)).
Qed.

Lemma fromPostfix_skips_operator_witness :
  (length (evalPostfix []) < operands "*"%char)%nat
  ∧ evalPostfix ([] ++ "*"%char :: ["a"%char]) = evalPostfix ([] ++ ["a"%char])
  ∧ fromPostfix ([] ++ "*"%char :: ["a"%char]) = fromPostfix ([] ++ ["a"%char])
  ∧ fromPostfix ([] ++ ["a"%char]) = hd NFA.new (evalPostfix ([] ++ ["a"%char])).
Proof.
  assert (H : (length (evalPostfix []) < operands "*"%char)%nat) by (vm_compute; lia).
  split; [exact H|]. exact (fromPostfix_skips_operator [] ["a"%char] "*"%char H).
Defined.

(** C5, as stated, fails.  The postfix stream ["*"] leaves the stack empty
    and ["ab"] leaves two automata on it; in both cases the builder returns
    an automaton: the empty one, and the automaton of ['b'] alone, with the
    one of ['a'] dropped.  So does [fromRegex] on the pattern ["*"]. *)
Lemma fromPostfix_returns_on_bad_depth :
  length (evalPostfix ["*"%char]) = 0%nat
  ∧ fromPostfix ["*"%char] = NFA.new
  ∧ length (evalPostfix ["a"%char; "b"%char]) = 2%nat
  ∧ fromPostfix ["a"%char; "b"%char] = fromSymbol "b"%char
  ∧ RegexParser.infixToPostfix "*" = "*"%string
  ∧ fromRegex "*" = NFA.new.
Proof. by vm_compute. Qed.

End Thompson.

(** ** NFA::epsilonClosure *)

Section Closure.
Import NFA.

Variable n : NFA.t.

Lemma size_list_to_set_le (l : list Z) :
  (size (list_to_set l : gset Z) ≤ length l)%nat.
Proof.
  induction l as [|x l IH]; cbn [length list_to_set].
  { by rewrite size_empty. }
  destruct (decide (x ∈ (list_to_set l : gset Z))) as [Hin|Hout].
  - replace ({[x]} ∪ list_to_set l) with (list_to_set l : gset Z) by set_solver. lia.
  - rewrite (size_union ({[x]} : gset Z) (list_to_set l)) by set_solver.
    rewrite size_singleton. lia.
Qed.

Lemma size_difference_insert (U c : gset Z) (x : Z) :
  x ∈ U → x ∉ c → S (size (U ∖ ({[x]} ∪ c))) = size (U ∖ c).
Proof.
  intros HU Hc.
  replace (U ∖ c) with ({[x]} ∪ U ∖ ({[x]} ∪ c)).
  - rewrite (size_union ({[x]} : gset Z) (U ∖ ({[x]} ∪ c))) by set_solver.
    by rewrite size_singleton.
  - apply set_eq; intros y. destruct (decide (y = x)); set_solver.
Qed.

(** *** One scan of the transitions *)

Section Scan.
Variable current : Z.

Lemma closureScan_cases (cs : gset Z * list Z) (trans : Transition) :
  (closureScan current cs trans = cs
   ∧ (followed current trans → toState trans ∈ cs.1))
  ∨ (closureScan current cs trans = ({[toState trans]} ∪ cs.1, toState trans :: cs.2)
     ∧ followed current trans ∧ toState trans ∉ cs.1).
Proof.
  unfold closureScan, followed.
  destruct (decide (fromState trans = current)) as [Hf|Hf];
    [rewrite (bool_decide_eq_true_2 _ Hf)|rewrite (bool_decide_eq_false_2 _ Hf)];
    cbn [andb]; [|left; split; [done|tauto]].
  destruct (decide (symbol trans = epsilon)) as [He|He];
    [rewrite (bool_decide_eq_true_2 _ He)|rewrite (bool_decide_eq_false_2 _ He)];
    [|left; split; [done|tauto]].
  destruct (decide (toState trans ∈ cs.1)) as [Hin|Hin];
    [rewrite (bool_decide_eq_true_2 _ Hin)|rewrite (bool_decide_eq_false_2 _ Hin)].
  - by left.
  - by right.
Qed.

(** What a scan does to the closure and the stack: the closure grows by the
    targets of the followed current transitions, the stack by those of them that are
    new, and the number of candidates left shrinks by as much as the stack
    grows. *)
Lemma scan_spec (U : gset Z) (ts : list Transition) (cs : gset Z * list Z) :
  (∀ trans, trans ∈ ts → toState trans ∈ U) →
  let cs' := foldl (closureScan current) cs ts in
  cs.1 ⊆ cs'.1
  ∧ (∀ x, x ∈ cs'.1 → x ∈ cs.1 ∨ ∃ trans, trans ∈ ts ∧ followed current trans ∧ toState trans = x)
  ∧ (∀ trans, trans ∈ ts → followed current trans → toState trans ∈ cs'.1)
  ∧ (∀ x, x ∈ cs'.2 → x ∈ cs.2 ∨ x ∈ cs'.1)
  ∧ (∀ x, x ∈ cs.2 → x ∈ cs'.2)
  ∧ (∀ x, x ∈ cs'.1 → x ∈ cs.1 ∨ x ∈ cs'.2)
  ∧ (length cs'.2 + size (U ∖ cs'.1) = length cs.2 + size (U ∖ cs.1))%nat.
Proof.
  revert cs; induction ts as [|trans ts IH]; intros cs HU; cbn [foldl].
  { repeat split; try set_solver. }
  assert (HU' : ∀ t, t ∈ ts → toState t ∈ U) by (intros; apply HU; set_solver).
  specialize (IH (closureScan current cs trans) HU').
  cbn zeta in IH. destruct IH as (I1 & I2 & I3 & I4 & I5 & I6 & I7).
  destruct (closureScan_cases cs trans) as [[Heq Hin]|(Heq & Hfol & Hnew)];
    rewrite Heq in *; cbn [fst snd] in *.
  - repeat split; try done.
    + intros x Hx. destruct (I2 x Hx) as [?|(t & ? & ? & ?)]; [by left|].
      right. exists t. set_solver.
    + intros t Ht Hft. apply elem_of_cons in Ht as [->|Ht]; [|by apply I3].
      apply I1. by apply Hin.
  - repeat split.
    + set_solver.
    + intros x Hx. destruct (I2 x Hx) as [Hx'|(t & ? & ? & ?)].
      * apply elem_of_union in Hx' as [Hx'|Hx']; [|by left].
        right. exists trans. set_solver.
      * right. exists t. set_solver.
    + intros t Ht Hft. apply elem_of_cons in Ht as [->|Ht]; [|by apply I3].
      apply I1. set_solver.
    + intros x Hx. destruct (I4 x Hx) as [Hx'|Hx']; [|by right].
      apply elem_of_cons in Hx' as [->|Hx']; [|by left].
      right. apply I1. set_solver.
    + intros x Hx. apply I5. set_solver.
    + intros x Hx. destruct (I6 x Hx) as [Hx'|Hx']; [|by right].
      apply elem_of_union in Hx' as [Hx'|Hx']; [|by left].
      right. apply I5. set_solver.
    + rewrite I7. cbn [length].
      rewrite <- (size_difference_insert U cs.1 (toState trans)); [lia| |done].
      apply HU. set_solver.
Qed.

End Scan.

(** A set closed under epsilon steps holds all that is reached from it. *)
Lemma closed_rtc (closure : gset Z) (x y : Z) :
  (∀ a b, a ∈ closure → epsStep n a b → b ∈ closure) →
  rtc (epsStep n) x y → x ∈ closure → y ∈ closure.
Proof. intros Hclosed. induction 1; eauto. Qed.

(** *** The worklist loop *)

Variable seed : Z.

Lemma closureLoop_spec (fuel : nat) (closure : gset Z) (stateStack : list Z) :
  closureInv n seed closure stateStack →
  (length stateStack + size (targets (transitions n) ∖ closure) ≤ fuel)%nat →
  ∀ x, x ∈ closureLoop fuel (transitions n) closure stateStack ↔ rtc (epsStep n) seed x.
Proof.
  revert closure stateStack; induction fuel as [|fuel IH];
    intros closure stateStack (Hseed & Hreach & Hstack & Hclosed) Hfuel.
  - destruct stateStack as [|current rest]; [|cbn in Hfuel; lia].
    cbn. intros x; split; [by apply Hreach|].
    intros Hx. apply (closed_rtc closure seed x); [|done|done].
    intros a b Ha. apply Hclosed; [done|set_solver].
  - destruct stateStack as [|current rest].
    { cbn. intros x; split; [by apply Hreach|].
      intros Hx. apply (closed_rtc closure seed x); [|done|done].
      intros a b Ha. apply Hclosed; [done|set_solver]. }
    cbn [closureLoop].
    pose proof (scan_spec current (targets (transitions n)) (transitions n) (closure, rest))
      as Hscan.
    cbn zeta in Hscan. cbn [fst snd] in Hscan.
    destruct Hscan as (S1 & S2 & S3 & S4 & S5 & S6 & S7).
    { intros trans Ht. unfold targets. apply elem_of_list_to_set.
      apply list_elem_of_fmap. by exists trans. }
    assert (Hcur : current ∈ closure) by (apply Hstack; set_solver).
    apply IH.
    + split; [set_solver|]. split; [|split].
      * intros x Hx. destruct (S2 x Hx) as [Hx'|(t & Ht & [Hf He] & Hto)]; [by apply Hreach|].
        apply rtc_r with current; [by apply Hreach|].
        exists t. done.
      * intros x Hx. destruct (S4 x Hx) as [Hx'|Hx']; [|done].
        apply S1, Hstack. set_solver.
      * intros x y Hx Hnot Hxy.
        destruct (decide (x = current)) as [->|Hne].
        { destruct Hxy as (t & Ht & Hf & He & Hto). rewrite <- Hto. by apply S3. }
        destruct (S6 x Hx) as [Hx'|Hx']; [|done].
        apply S1, (Hclosed x y); [done| |done].
        intros Hin. apply elem_of_cons in Hin as [?|Hin]; [done|].
        apply Hnot. by apply S5.
    + cbn [length] in Hfuel. lia.
Qed.

(** The closure of one state is the set of states reached from it by
    epsilon transitions; in particular the fuel suffices. *)
Lemma epsilonClosure_state_spec (x : Z) :
  x ∈ epsilonClosure_state n seed ↔ rtc (epsStep n) seed x.
Proof.
  unfold epsilonClosure_state. apply closureLoop_spec.
  - split; [set_solver|]. split; [|split].
    + intros y Hy. apply elem_of_singleton in Hy as ->. done.
    + intros y Hy. set_solver.
    + intros y z Hy Hnot. set_solver.
  - cbn [length].
    assert (size (targets (transitions n) ∖ {[seed]}) ≤ length (transitions n))%nat; [|lia].
    transitivity (size (targets (transitions n))).
    + apply subseteq_size. set_solver.
    + unfold targets. rewrite <- (length_fmap toState (transitions n)).
      apply size_list_to_set_le.
Qed.

End Closure.

Section ClosureSet.
Import NFA.

Variable n : NFA.t.

Lemma epsilonClosure_spec (states : gset Z) (x : Z) :
  x ∈ epsilonClosure n states ↔ ∃ q, q ∈ states ∧ rtc (epsStep n) q x.
Proof.
  unfold epsilonClosure.
  assert (H : ∀ (l : list Z) (acc : gset Z),
            x ∈ foldl (λ closure state, closure ∪ epsilonClosure_state n state) acc l
            ↔ x ∈ acc ∨ ∃ q, q ∈ l ∧ rtc (epsStep n) q x).
  { induction l as [|q l IH]; intros acc; cbn [foldl].
    - split; [by left|]. intros [?|(q & Hq & _)]; [done|]. by apply elem_of_nil in Hq.
    - rewrite IH, elem_of_union, epsilonClosure_state_spec. split.
      + intros [[?|?]|(q' & ? & ?)]; [by left|right; exists q|right; exists q']; set_solver.
      + intros [?|(q' & Hq' & ?)]; [by left; left|].
        apply elem_of_cons in Hq' as [->|?]; [by left; right|]. right. by exists q'. }
  rewrite H. split.
  - intros [Hx|(q & Hq & ?)]; [set_solver|]. exists q. by rewrite <- elem_of_ascending.
  - intros (q & Hq & ?). right. exists q. by rewrite elem_of_ascending.
Qed.

(** The closure is saturated: it contains its seeds and every epsilon
    successor of its members. *)
Lemma epsilonClosure_saturated (states : gset Z) :
  states ⊆ epsilonClosure n states
  ∧ ∀ q q', q ∈ epsilonClosure n states → epsStep n q q' → q' ∈ epsilonClosure n states.
Proof.
  split.
  - intros q Hq. apply epsilonClosure_spec. by exists q.
  - intros q q' Hq Hstep. apply epsilonClosure_spec in Hq as (q0 & H0 & Hreach).
    apply epsilonClosure_spec. exists q0. split; [done|]. by apply rtc_r with q.
Qed.

(** C9.  Closing a closure adds nothing, because the closure that is
    computed is saturated already: for every automaton and every set of
    states [S], [epsilonClosure (epsilonClosure S) = epsilonClosure S]; the
    closure holds the states of [S]; it holds every state that an epsilon
    transition reaches from one of its members; and it holds no state but
    those that epsilon transitions reach from a state of [S]. *)
Theorem epsilonClosure_idempotent (states : gset Z) :
  epsilonClosure n (epsilonClosure n states) = epsilonClosure n states
  ∧ states ⊆ epsilonClosure n states
  ∧ (∀ q q', q ∈ epsilonClosure n states → epsStep n q q' →
             q' ∈ epsilonClosure n states)
  ∧ (∀ q', q' ∈ epsilonClosure n states →
           ∃ q, q ∈ states ∧ rtc (epsStep n) q q').
Proof.
  destruct (epsilonClosure_saturated states) as [Hseeds Hclosed].
  split; [|split; [done|split; [done|]]].
  - apply set_eq; intros x. rewrite !epsilonClosure_spec. split.
    + intros (q & Hq & Hqx). apply epsilonClosure_spec in Hq as (q0 & H0 & H0q).
      exists q0. split; [done|]. by etrans.
    + intros (q & Hq & Hqx). exists q. split; [|done].
      apply epsilonClosure_spec. by exists q.
  - intros q' Hq'. by apply epsilonClosure_spec in Hq'.
Qed.

End ClosureSet.

(** ** NFA::union_op *)

Section Union.
Import NFA.

Lemma addStatesFrom_fields (src : list State) (offset : Z) (keep : bool) (n : NFA.t) :
  states (addStatesFrom src offset keep n)
  = states n ++ ((λ s, mkState (id s + offset) (keep && isAccepting s) "") <$> src)
  ∧ transitions (addStatesFrom src offset keep n) = transitions n
  ∧ startState (addStatesFrom src offset keep n) = startState n
  ∧ (keep = false →
     acceptingStates (addStatesFrom src offset keep n) = acceptingStates n).
Proof.
  unfold addStatesFrom. revert n; induction src as [|s src IH]; intros n; cbn [foldl fmap list_fmap].
  { by rewrite app_nil_r. }
  destruct (IH (addState (id s + offset) (keep && isAccepting s) n)) as (I1 & I2 & I3 & I4).
  rewrite I1, I2, I3. cbn [states transitions startState addState].
  rewrite <- app_assoc. repeat split; try done.
  intros ->. by rewrite I4.
Qed.

Lemma addTransitionsFrom_fields (src : list Transition) (offset : Z) (n : NFA.t) :
  states (addTransitionsFrom src offset n) = states n
  ∧ transitions (addTransitionsFrom src offset n)
    = transitions n
      ++ ((λ t, mkTransition (fromState t + offset) (toState t + offset) (symbol t)) <$> src)
  ∧ startState (addTransitionsFrom src offset n) = startState n
  ∧ acceptingStates (addTransitionsFrom src offset n) = acceptingStates n.
Proof.
  unfold addTransitionsFrom. revert n; induction src as [|t src IH]; intros n;
    cbn [foldl fmap list_fmap].
  { by rewrite app_nil_r. }
  destruct (IH (addTransition (fromState t + offset) (toState t + offset) (symbol t) n))
    as (I1 & I2 & I3 & I4).
  rewrite I1, I2, I3, I4. cbn [states transitions startState acceptingStates addTransition].
  by rewrite <- app_assoc.
Qed.

Lemma linkAccepting_fields (accepting : gset Z) (offset target : Z) (n : NFA.t) :
  states (linkAccepting accepting offset target n) = states n
  ∧ transitions (linkAccepting accepting offset target n)
    = transitions n
      ++ ((λ a, mkTransition (a + offset) target epsilon) <$> ascending accepting)
  ∧ startState (linkAccepting accepting offset target n) = startState n
  ∧ acceptingStates (linkAccepting accepting offset target n) = acceptingStates n.
Proof.
  unfold linkAccepting. generalize (ascending accepting) as l.
  intros l; revert n; induction l as [|a l IH]; intros n; cbn [foldl fmap list_fmap].
  { by rewrite app_nil_r. }
  destruct (IH (addTransition (a + offset) target epsilon n)) as (I1 & I2 & I3 & I4).
  rewrite I1, I2, I3, I4. cbn [states transitions startState acceptingStates addTransition].
  by rewrite <- app_assoc.
Qed.

(** The automaton that [union_op] returns, field by field. *)
Lemma union_op_fields (nfa1 nfa2 : NFA.t) :
  let offset2 := 1 + Z.of_nat (length (states nfa1)) in
  let newAccept := offset2 + Z.of_nat (length (states nfa2)) in
  states (union_op nfa1 nfa2)
  = mkState 0 false ""
    :: ((λ s, mkState (id s + 1) false "") <$> states nfa1)
    ++ ((λ s, mkState (id s + offset2) false "") <$> states nfa2)
    ++ [mkState newAccept true ""]
  ∧ transitions (union_op nfa1 nfa2)
    = mkTransition 0 (startState nfa1 + 1) epsilon
      :: mkTransition 0 (startState nfa2 + offset2) epsilon
      :: ((λ t, mkTransition (fromState t + 1) (toState t + 1) (symbol t))
            <$> transitions nfa1)
      ++ ((λ t, mkTransition (fromState t + offset2) (toState t + offset2) (symbol t))
            <$> transitions nfa2)
      ++ ((λ a, mkTransition (a + 1) newAccept epsilon) <$> ascending (acceptingStates nfa1))
      ++ ((λ a, mkTransition (a + offset2) newAccept epsilon)
            <$> ascending (acceptingStates nfa2))
  ∧ startState (union_op nfa1 nfa2) = 0
  ∧ acceptingStates (union_op nfa1 nfa2) = {[newAccept]}.
Proof.
  intros offset2 newAccept. unfold union_op. fold offset2. fold newAccept.
  set (r1 := setStartState 0 (addState 0 false new)).
  set (r2 := addStatesFrom (states nfa1) 1 false r1).
  set (r3 := addStatesFrom (states nfa2) offset2 false r2).
  set (r6 := addTransition 0 (startState nfa2 + offset2) epsilon
               (addTransition 0 (startState nfa1 + 1) epsilon
                  (addState newAccept true r3))).
  set (r7 := addTransitionsFrom (transitions nfa1) 1 r6).
  set (r8 := addTransitionsFrom (transitions nfa2) offset2 r7).
  set (r9 := linkAccepting (acceptingStates nfa1) 1 newAccept r8).
  set (r10 := linkAccepting (acceptingStates nfa2) offset2 newAccept r9).
  destruct (addStatesFrom_fields (states nfa1) 1 false r1) as (S2 & T2 & Q2 & A2).
  destruct (addStatesFrom_fields (states nfa2) offset2 false r2) as (S3 & T3 & Q3 & A3).
  destruct (addTransitionsFrom_fields (transitions nfa1) 1 r6) as (S7 & T7 & Q7 & A7).
  destruct (addTransitionsFrom_fields (transitions nfa2) offset2 r7) as (S8 & T8 & Q8 & A8).
  destruct (linkAccepting_fields (acceptingStates nfa1) 1 newAccept r8) as (S9 & T9 & Q9 & A9).
  destruct (linkAccepting_fields (acceptingStates nfa2) offset2 newAccept r9)
    as (S10 & T10 & Q10 & A10).
  fold r2 in S2, T2, Q2, A2. fold r3 in S3, T3, Q3, A3. fold r7 in S7, T7, Q7, A7.
  fold r8 in S8, T8, Q8, A8. fold r9 in S9, T9, Q9, A9. fold r10 in S10, T10, Q10, A10.
  cbn [acceptingStates states transitions startState setStateCounter].
  rewrite S10, S9, S8, S7, T10, T9, T8, T7, Q10, Q9, Q8, Q7, A10, A9, A8, A7.
  cbn [acceptingStates states transitions startState addTransition addState r6].
  rewrite S3, S2, T3, T2, Q3, Q2, A3, A2 by done.
  cbn [acceptingStates states transitions startState setStartState addState r1 new app
       andb].
  repeat split.
  - by rewrite <- !app_assoc.
  - by rewrite <- !app_assoc.
  - set_solver.
Qed.



(** The automaton that [build] hands to the subset construction has a
    single accepting state as soon as there are two patterns. *)
Lemma combine_single_accepting (first : NFA.t) (others : list NFA.t) :
  others ≠ [] →
  ∃ q, acceptingStates (LexicalAnalyzerGenerator.combine first others) = {[q]}.
Proof.
  unfold LexicalAnalyzerGenerator.combine.
  induction others as [|other others _] using rev_ind; [done|]. intros _.
  rewrite foldl_app. cbn [foldl].
  destruct (union_op_fields (foldl union_op first others) other) as (_ & _ & _ & ->).
  by eexists.
Qed.


End Union.

(** ** LexicalAnalyzerGenerator::addTokenPattern *)

Section TokenPatterns.
Import LexicalAnalyzerGenerator.

Lemma compare_Lt_trans (a b c : string) :
  String.compare a b = Lt → String.compare b c = Lt → String.compare a c = Lt.
Proof.
  intros Hab Hbc. apply OrderedTypeEx.String_as_OT.cmp_lt.
  apply OrderedTypeEx.String_as_OT.lt_trans with b;
    by apply OrderedTypeEx.String_as_OT.cmp_lt.
Qed.

Lemma compare_Gt_Lt (a b : string) :
  String.compare a b = Gt → String.compare b a = Lt.
Proof. intros H. rewrite String.compare_antisym, H. done. Qed.

Lemma compare_refl (a : string) : String.compare a a = Eq.
Proof. by apply OrderedTypeEx.String_as_OT.cmp_eq. Qed.

Lemma mapAssign_elem (key value : string) (m : list (string * string)) (e : string * string) :
  e ∈ mapAssign key value m → e = (key, value) ∨ e ∈ m.
Proof.
  induction m as [|[k v] rest IH]; cbn [mapAssign].
  { intros ->%list_elem_of_singleton. by left. }
  destruct (String.compare key k) eqn:Hcmp.
  - apply String.compare_eq_iff in Hcmp as ->. set_solver.
  - set_solver.
  - set_solver.
Qed.

Lemma mapAssign_sorted (key value : string) (m : list (string * string)) :
  StronglySorted nameLt m → StronglySorted nameLt (mapAssign key value m).
Proof.
  induction 1 as [|[k v] rest Hrest IH Hall]; cbn [mapAssign].
  { repeat constructor. }
  destruct (String.compare key k) eqn:Hcmp.
  - apply String.compare_eq_iff in Hcmp as ->. by constructor.
  - constructor; [by constructor|]. constructor; [done|].
    eapply Forall_impl; [exact Hall|]. intros e He. unfold nameLt in *; cbn in *.
    by eapply compare_Lt_trans.
  - constructor; [done|]. apply Forall_forall. intros e He.
    apply mapAssign_elem in He as [->|He].
    + unfold nameLt; cbn. by apply compare_Gt_Lt.
    + rewrite Forall_forall in Hall. by apply Hall.
Qed.

Lemma findPattern_mapAssign (name key value : string) (m : list (string * string)) :
  findPattern name (mapAssign key value m)
  = if bool_decide (key = name) then Some value else findPattern name m.
Proof.
  unfold findPattern. induction m as [|[k v] rest IH]; cbn [mapAssign List.find fst].
  { by case_bool_decide. }
  destruct (String.compare key k) eqn:Hcmp; cbn [List.find fst].
  - apply String.compare_eq_iff in Hcmp as ->. by case_bool_decide.
  - by case_bool_decide.
  - assert (key ≠ k) by (intros ->; by rewrite compare_refl in Hcmp).
    destruct (decide (k = name)) as [->|Hk].
    + rewrite (bool_decide_eq_true_2 (name = name)) by done.
      by rewrite (bool_decide_eq_false_2 (key = name)).
    + rewrite (bool_decide_eq_false_2 (k = name)) by done. apply IH.
Qed.

Lemma tokenPatterns_addAll_snoc (calls : list (string * string)) (call : string * string) :
  tokenPatterns (addAll (calls ++ [call]) new)
  = mapAssign call.1 call.2 (tokenPatterns (addAll calls new)).
Proof. unfold addAll. by rewrite foldl_app. Qed.

(** C4, as the code has it.  The specs are the entries of a map keyed by the
    token name.  After any sequence of [addTokenPattern] calls the entries
    stand in strictly increasing order of their names (so no name occurs
    twice, and [build], which visits them in this order, does not follow the
    order of the calls), and the pattern kept for a name is the one of the
    last call for that name. *)
Theorem addTokenPattern_is_map_assignment (calls : list (string * string)) :
  StronglySorted nameLt (tokenPatterns (addAll calls new))
  ∧ ∀ name, findPattern name (tokenPatterns (addAll calls new)) = lastPattern name calls.
Proof.
  induction calls as [|call calls [IHs IHf]] using rev_ind.
  { split; [constructor|done]. }
  rewrite tokenPatterns_addAll_snoc. split.
  - by apply mapAssign_sorted.
  - intros name. rewrite findPattern_mapAssign, IHf.
    unfold lastPattern. by rewrite foldl_app.
Qed.

(** C4, as stated, fails.  A second spec with the name of an earlier one
    replaces its pattern instead of standing next to it, and two specs added
    as [B] then [A] are kept, and built, as [A] then [B]. *)
Lemma addTokenPattern_not_insertion_order :
  tokenPatterns (addAll [("A", "a"); ("A", "b")] new) = [("A", "b")]
  ∧ tokenPatterns (addAll [("B", "b"); ("A", "a")] new) = [("A", "a"); ("B", "b")]
  ∧ tokenPatterns (addAll [("B", "b"); ("A", "a")] new) ≠ [("B", "b"); ("A", "a")].
Proof. by vm_compute. Qed.

End TokenPatterns.

(** ** Fuel *)

Section Fuel.

(** More fuel does not change a result that was reached. *)
Lemma subsetLoop_fuel_mono (fuel fuel' : nat) (nfa : NFA.t) (alpha : list ascii)
    (w : DFA.work) (d : DFA.t) :
  DFA.subsetLoop fuel nfa alpha w = Some d → (fuel ≤ fuel')%nat →
  DFA.subsetLoop fuel' nfa alpha w = Some d.
Proof.
  revert fuel' w; induction fuel as [|fuel IH]; intros fuel' w Hrun Hle.
  - destruct fuel'; cbn in *; by destruct (DFA.unmarkedStates w).
  - destruct fuel' as [|fuel']; [lia|]. cbn in *.
    destruct (DFA.unmarkedStates w); [done|]. apply IH; [done|lia].
Qed.

Lemma fromNFA_fuel_mono (fuel fuel' : nat) (nfa : NFA.t) (d : DFA.t) :
  DFA.fromNFA fuel nfa = Some d → (fuel ≤ fuel')%nat → DFA.fromNFA fuel' nfa = Some d.
Proof. unfold DFA.fromNFA. apply subsetLoop_fuel_mono. Qed.

Lemma build_fuel_mono (fuel fuel' : nat) (g g' : LexicalAnalyzerGenerator.t) :
  LexicalAnalyzerGenerator.build fuel g = Some g' → (fuel ≤ fuel')%nat →
  LexicalAnalyzerGenerator.build fuel' g = Some g'.
Proof.
  unfold LexicalAnalyzerGenerator.build. intros Hrun Hle.
  destruct (map _ _) as [|first others]; [done|].
  destruct (DFA.fromNFA fuel _) as [d|] eqn:Hd; [|done].
  by rewrite (fromNFA_fuel_mono fuel fuel' _ d Hd Hle).
Qed.

Lemma tokenizeLoop_fuel_mono (fuel fuel' : nat) (d : DFA.t) (input : list ascii)
    (i : Z) (v v' : LexicalAnalyzer.vars) :
  LexicalAnalyzer.tokenizeLoop fuel d input i v = Some v' → (fuel ≤ fuel')%nat →
  LexicalAnalyzer.tokenizeLoop fuel' d input i v = Some v'.
Proof.
  revert fuel' i v; induction fuel as [|fuel IH]; intros fuel' i v Hrun Hle.
  - destruct fuel'; cbn in *; by case_bool_decide.
  - destruct fuel' as [|fuel']; [lia|]. cbn in *.
    case_bool_decide; [|done].
    destruct (LexicalAnalyzer.tokenizeStep _ _ _ _) as [i1 v1]. apply IH; [done|lia].
Qed.

Lemma tokenize_fuel_mono (fuel fuel' : nat) (d : DFA.t) (input : string)
    (r : list LexicalAnalyzer.Token * list (Z * Z)) :
  LexicalAnalyzer.tokenize fuel d input = Some r → (fuel ≤ fuel')%nat →
  LexicalAnalyzer.tokenize fuel' d input = Some r.
Proof.
  unfold LexicalAnalyzer.tokenize. intros Hrun Hle.
  destruct (LexicalAnalyzer.tokenizeLoop fuel _ _ _ _) as [v|] eqn:Hv; [|done].
  by rewrite (tokenizeLoop_fuel_mono fuel fuel' _ _ _ _ v Hv Hle).
Qed.

End Fuel.

(** ** DFA::accepts *)

Section Accepts.
Import DFA.

Lemma accepts_loop_runs (d : DFA.t) (input : list ascii) (s : Z) :
  accepts_loop d s input = true ↔ ∃ s', runs d s input s' ∧ s' ∈ acceptingStates d.
Proof.
  revert s; induction input as [|c input IH]; intros s; cbn [accepts_loop].
  - rewrite bool_decide_eq_true. split.
    + intros Hs. exists s. split; [constructor|done].
    + intros (s' & Hrun & Hs'). by inversion Hrun; subst.
  - unfold getNextState. destruct (transitions d !! (s, c)) as [next|] eqn:Hnext.
    + case_bool_decide as Hdead.
      * split; [done|]. intros (s' & Hrun & _). inversion Hrun; subst. congruence.
      * rewrite IH. split.
        -- intros (s' & Hrun & Hs'). exists s'. split; [|done]. by econstructor.
        -- intros (s' & Hrun & Hs'). inversion Hrun; subst.
           exists s'. split; [|done]. congruence.
    + rewrite bool_decide_eq_true_2 by done. split; [done|].
      intros (s' & Hrun & _). inversion Hrun; subst. congruence.
Qed.

(** C3, as the code has it.  [accepts] runs the automaton once over the
    whole input: it answers [true] exactly when the transition table leads
    from the start state, through entries that are all present, to an
    accepting state at the end of the input.  It never restarts after a
    token, so the input has to be one single match. *)
Theorem accepts_single_run (d : DFA.t) (input : string) :
  accepts d input = true
  ↔ ∃ s, runs d (startState d) (chars input) s ∧ s ∈ acceptingStates d.
Proof. apply accepts_loop_runs. Qed.

End Accepts.

(** ** The empty pattern *)

Section EmptyPattern.

(** C7, as the code has it.  For the empty pattern [fromRegex] returns the
    default-constructed automaton: no state, no transition, start state [0]
    and no accepting state.  It accepts no input at all, not even the empty
    one, and so does the automaton that the subset construction makes of
    it: a single state that is not accepting. *)
Theorem fromRegex_empty_pattern (w : string) :
  NFA.fromRegex "" = NFA.new
  ∧ NFA.states (NFA.fromRegex "") = []
  ∧ ¬ nfaAccepts (NFA.fromRegex "") w
  ∧ ∃ d, (∀ fuel, DFA.fromNFA (S fuel) (NFA.fromRegex "") = Some d)
         ∧ DFA.states d = [mkState 0 false ""]
         ∧ DFA.accepts d w = false.
Proof.
  assert (Hnew : NFA.fromRegex "" = NFA.new) by (by vm_compute).
  rewrite Hnew. split; [done|]. split; [done|]. split.
  - intros (q & Hq & _). cbn in Hq. set_solver.
  - exists (DFA.mk [mkState 0 false ""] ∅ 0 ∅ [] ∅). split; [|split; [done|]].
    + intros fuel. apply (fromNFA_fuel_mono 1); [by vm_compute|lia].
    + unfold DFA.accepts. destruct (chars w) as [|c rest]; by vm_compute.
Qed.

(** C7, as stated, fails.  The automaton built for the empty pattern does
    not accept the empty string, and neither does the automaton obtained from
    it by the subset construction; it is the automaton without states. *)
Lemma fromRegex_empty_rejects_empty :
  ¬ nfaAccepts (NFA.fromRegex "") ""
  ∧ NFA.states (NFA.fromRegex "") = []
  ∧ NFA.acceptingStates (NFA.fromRegex "") = ∅
  ∧ (DFA.fromNFA 1 (NFA.fromRegex "") ≫= λ d, Some (DFA.accepts d "")) = Some false.
Proof.
  assert (Hnew : NFA.fromRegex "" = NFA.new) by (by vm_compute).
  rewrite Hnew. split; [|by vm_compute].
  intros (q & Hq & _). cbn in Hq. set_solver.
Qed.

End EmptyPattern.

(** ** Labels of the accepting states *)

Section Labels.
Import LexicalAnalyzerGenerator.

(** The inner loop of the labelling: every accepting state gets the name. *)
Lemma labelStates_fields (name : string) (l : list Z) (d : DFA.t) :
  let d' := foldl (λ d state, DFA.setTokenType state name d) d l in
  DFA.acceptingStates d' = DFA.acceptingStates d
  ∧ DFA.transitions d' = DFA.transitions d
  ∧ DFA.startState d' = DFA.startState d
  ∧ ∀ s, s ∈ l → DFA.stateToTokenType d' !! s = Some name.
Proof.
  revert d; induction l as [|x l IH] using rev_ind; intros d; cbn zeta.
  { repeat split; try done. intros s Hs. by apply elem_of_nil in Hs. }
  rewrite foldl_app. cbn [foldl]. destruct (IH d) as (I1 & I2 & I3 & I4).
  repeat split; try done.
  intros s Hs. cbn [DFA.stateToTokenType DFA.setTokenType].
  destruct (decide (x = s)) as [->|Hne]; [by rewrite lookup_insert_eq|].
  rewrite lookup_insert_ne by done. apply I4. set_solver.
Qed.

Lemma labelAccepting_fields (patterns : list (string * string)) (d : DFA.t) :
  DFA.acceptingStates (labelAccepting patterns d) = DFA.acceptingStates d
  ∧ DFA.transitions (labelAccepting patterns d) = DFA.transitions d
  ∧ DFA.startState (labelAccepting patterns d) = DFA.startState d.
Proof.
  unfold labelAccepting. induction patterns as [|p patterns IH] using rev_ind; [done|].
  rewrite foldl_app. cbn [foldl]. fold (labelAccepting patterns d) in *.
  destruct IH as (I1 & I2 & I3).
  pose proof (labelStates_fields p.1
                (ascending (DFA.acceptingStates (labelAccepting patterns d)))
                (labelAccepting patterns d)) as H.
  cbn zeta in H. destruct H as (H1 & H2 & H3 & _).
  by rewrite H1, H2, H3.
Qed.

(** What the labelling loops of [build] do: when they are done, every
    accepting state carries the name of the last entry of the map, whatever
    the subsets and whatever the other names. *)
Lemma labelAccepting_last (patterns : list (string * string)) (last : string * string)
    (d : DFA.t) (s : Z) :
  s ∈ DFA.acceptingStates d →
  DFA.stateToTokenType (labelAccepting (patterns ++ [last]) d) !! s = Some last.1.
Proof.
  intros Hs. unfold labelAccepting. rewrite foldl_app. cbn [foldl].
  fold (labelAccepting patterns d).
  pose proof (labelStates_fields last.1
                (ascending (DFA.acceptingStates (labelAccepting patterns d)))
                (labelAccepting patterns d)) as H.
  cbn zeta in H. destruct H as (_ & _ & _ & H). apply H.
  apply elem_of_ascending. by destruct (labelAccepting_fields patterns d) as [-> _].
Qed.

(** The same for a generator that has been built. *)
Lemma build_labels_last (fuel : nat) (g g' : t) (patterns : list (string * string))
    (last : string * string) (s : Z) :
  tokenPatterns g = patterns ++ [last] → build fuel g = Some g' →
  s ∈ DFA.acceptingStates (finalDFA g') →
  DFA.stateToTokenType (finalDFA g') !! s = Some last.1.
Proof.
  unfold build. intros Hpat Hbuild Hs.
  destruct (map _ (tokenPatterns g)) as [|first others] eqn:Hmap.
  { rewrite Hpat, map_app in Hmap. by destruct (map _ patterns). }
  destruct (DFA.fromNFA fuel _) as [d|]; [|done].
  injection Hbuild as <-. cbn [finalDFA] in *. rewrite Hpat in *.
  apply labelAccepting_last.
  by destruct (labelAccepting_fields (patterns ++ [last]) d) as [<- _].
Qed.

(** C1 on the code.  The specs [A = "a"] and [B = "b"], added in this
    order, are built.  The pattern of [A] matches ["a"] and the pattern of
    [B] does not.  The state reached on ['a'] is accepting, yet its label is
    [B], the name that the labelling loop visits last; the scanner reports
    the lexeme ["a"] as a [B]. *)
Theorem build_labels_with_last_name :
  ∃ g dA dB,
    build 20 (addTokenPattern "B" "b" (addTokenPattern "A" "a" new)) = Some g
    ∧ tokenPatterns g = [("A", "a"); ("B", "b")]
    ∧ DFA.fromNFA 20 (NFA.fromRegex "a") = Some dA ∧ DFA.accepts dA "a" = true
    ∧ DFA.fromNFA 20 (NFA.fromRegex "b") = Some dB ∧ DFA.accepts dB "a" = false
    ∧ DFA.getNextState (finalDFA g) (DFA.startState (finalDFA g)) "a"%char = 1
    ∧ 1 ∈ DFA.acceptingStates (finalDFA g)
    ∧ DFA.accepts (finalDFA g) "a" = true
    ∧ DFA.stateToTokenType (finalDFA g) !! 1 = Some "B"%string
    ∧ LexicalAnalyzer.tokenize 20 (finalDFA g) "a"
      = Some ([LexicalAnalyzer.mkToken "B" "a" 1 2], []).
Proof.
  do 3 eexists. split; [by vm_compute|]. split; [by vm_compute|].
  split; [by vm_compute|]. split; [by vm_compute|].
  split; [by vm_compute|].
  repeat split; by vm_compute.
Qed.

End Labels.

(** ** The emitted scanner *)

Section Scanner.
Import LexicalAnalyzerGenerator.

(** C6 on the code.  One spec, [T = "a|abc"], and the input ["ab"].  The
    automaton accepts ["a"] and does not accept ["ab"], so the longest
    accepting prefix is ["a"]; the block after the loop emits the whole of
    [currentLexeme], the lexeme ["ab"].  On ["aabd"] the second token starts
    at index 1 and its last accepting position is index 1, which [substr]
    takes as a length of 2: again ["ab"] is emitted where ["a"] was
    matched. *)
Theorem tokenize_past_last_accept :
  ∃ g, build 20 (addTokenPattern "T" "a|abc" new) = Some g
       ∧ DFA.accepts (finalDFA g) "a" = true
       ∧ DFA.accepts (finalDFA g) "ab" = false
       ∧ LexicalAnalyzer.tokenize 20 (finalDFA g) "ab"
         = Some ([LexicalAnalyzer.mkToken "T" "ab" 1 3], [])
       ∧ LexicalAnalyzer.tokenize 20 (finalDFA g) "aabd"
         = Some ([LexicalAnalyzer.mkToken "T" "a" 1 2;
                  LexicalAnalyzer.mkToken "T" "ab" 1 5], [(1, 6); (1, 7)]).
Proof. eexists. split; [by vm_compute|]. repeat split; by vm_compute. Qed.

(** C3, as stated, fails.  With the single spec [T = "a"] the scanner turns
    ["aa"] into two tokens and reports no error, while [accepts] rejects
    ["aa"]. *)
Lemma accepts_rejects_tokenizable :
  ∃ g, build 20 (addTokenPattern "T" "a" new) = Some g
       ∧ LexicalAnalyzer.tokenize 20 (finalDFA g) "aa"
         = Some ([LexicalAnalyzer.mkToken "T" "a" 1 2;
                  LexicalAnalyzer.mkToken "T" "a" 1 4], [])
       ∧ DFA.accepts (finalDFA g) "aa" = false.
Proof. eexists. split; [by vm_compute|]. split; by vm_compute. Qed.

End Scanner.

(** * Further properties of the code *)

(** ** More on the closure and on [move] *)

Section ClosureFacts.
Import NFA.

Variable n : NFA.t.

(** The closure of one state: the state itself and all that epsilon
    transitions lead to from it, whether or not the state is one of the
    automaton; it is the closure of the singleton. *)
Theorem epsilonClosure_state_reachable (seed : Z) :
  seed ∈ epsilonClosure_state n seed
  ∧ (∀ x, x ∈ epsilonClosure_state n seed ↔ rtc (epsStep n) seed x)
  ∧ epsilonClosure n {[seed]} = epsilonClosure_state n seed.
Proof.
  split; [by apply epsilonClosure_state_spec|]. split.
  - intros x. apply epsilonClosure_state_spec.
  - apply set_eq; intros x. rewrite epsilonClosure_spec, epsilonClosure_state_spec.
    split; [intros (q & ->%elem_of_singleton & ?); done|].
    intros ?. exists seed. split; [set_solver|done].
Qed.

(** The closure of the empty set is empty and the closure of a union is the
    union of the closures. *)
Theorem epsilonClosure_union (S T : gset Z) :
  epsilonClosure n ∅ = ∅
  ∧ epsilonClosure n (S ∪ T) = epsilonClosure n S ∪ epsilonClosure n T.
Proof.
  split; apply set_eq; intros x.
  - rewrite epsilonClosure_spec. split; [intros (q & Hq & _); set_solver|set_solver].
  - rewrite elem_of_union, !epsilonClosure_spec. split.
    + intros (q & [Hq|Hq]%elem_of_union & ?); [left|right]; by exists q.
    + intros [(q & Hq & ?)|(q & Hq & ?)]; exists q; set_solver.
Qed.

(** The closure is the least set that holds the given states and is closed
    under epsilon transitions. *)
Theorem epsilonClosure_least (S C : gset Z) :
  S ⊆ C → (∀ a b, a ∈ C → epsStep n a b → b ∈ C) →
  S ⊆ epsilonClosure n S
  ∧ (∀ a b, a ∈ epsilonClosure n S → epsStep n a b → b ∈ epsilonClosure n S)
  ∧ epsilonClosure n S ⊆ C.
Proof.
  intros HS HC. destruct (epsilonClosure_saturated n S) as [H1 H2].
  split; [done|]. split; [done|].
  intros x (q & Hq & Hreach)%epsilonClosure_spec.
  apply (closed_rtc n C q x); [done|done|]. by apply HS.
Qed.

Lemma elem_of_move (S : gset Z) (c : ascii) (x : Z) :
  x ∈ move n S c
  ↔ ∃ trans, trans ∈ transitions n
             ∧ fromState trans ∈ S ∧ symbol trans = c ∧ toState trans = x.
Proof.
  unfold move.
  assert (Hinner : ∀ (q : Z) (ts : list Transition) (acc : gset Z),
            x ∈ foldl (λ result trans,
                         if bool_decide (fromState trans = q) && bool_decide (symbol trans = c)
                         then {[toState trans]} ∪ result else result) acc ts
            ↔ x ∈ acc ∨ ∃ trans, trans ∈ ts ∧ fromState trans = q
                                  ∧ symbol trans = c ∧ toState trans = x).
  { intros q ts; induction ts as [|t ts IH]; intros acc; cbn [foldl].
    - split; [by left|]. intros [?|(t & Ht & _)]; [done|]. by apply elem_of_nil in Ht.
    - rewrite IH. cbv beta. split.
      + intros [Hx|(t' & Ht' & ?)].
        * destruct (bool_decide (fromState t = q)) eqn:Hf;
            destruct (bool_decide (symbol t = c)) eqn:Hs; cbn [andb] in Hx;
            try by left.
          apply elem_of_union in Hx as [Hx|Hx]; [|by left].
          right. exists t. apply bool_decide_eq_true in Hf, Hs. set_solver.
        * right. exists t'. set_solver.
      + intros [Hx|(t' & Ht' & Hf & Hs & Hto)].
        * left. destruct (_ && _); set_solver.
        * apply elem_of_cons in Ht' as [Heq|Ht']; [subst t'|right; by exists t'].
          left. rewrite (bool_decide_eq_true_2 _ Hf), (bool_decide_eq_true_2 _ Hs).
          cbn. set_solver. }
  assert (Houter : ∀ (l : list Z) (acc : gset Z),
            x ∈ foldl (λ result state,
                         foldl (λ result trans,
                                  if bool_decide (fromState trans = state)
                                     && bool_decide (symbol trans = c)
                                  then {[toState trans]} ∪ result else result)
                               result (transitions n)) acc l
            ↔ x ∈ acc ∨ ∃ trans, trans ∈ transitions n ∧ fromState trans ∈ l
                                  ∧ symbol trans = c ∧ toState trans = x).
  { induction l as [|q l IH]; intros acc; cbn [foldl].
    - split; [by left|]. intros [?|(t & _ & Ht & _)]; [done|]. by apply elem_of_nil in Ht.
    - rewrite IH, Hinner. split.
      + intros [[?|(t & ? & ? & ? & ?)]|(t & ? & ? & ? & ?)];
          [by left|right; exists t; set_solver|right; exists t; set_solver].
      + intros [?|(t & Ht & Hin & Hs & Hto)]; [by left; left|].
        apply elem_of_cons in Hin as [Heq|Hin];
          [left; right; by exists t|right; by exists t]. }
  rewrite Houter. split.
  - intros [?|(t & ? & ?%elem_of_ascending & ?)]; [set_solver|by exists t].
  - intros (t & ? & ? & ?). right. exists t. by rewrite elem_of_ascending.
Qed.

(** [move] collects the targets of the transitions that leave a state of the
    set on the given character, whatever the character: for the NUL
    character these are the epsilon transitions.  From no state it reaches
    nothing, and from a union what it reaches from either part. *)
Theorem move_spec (S T : gset Z) (c : ascii) :
  (∀ x, x ∈ move n S c
        ↔ ∃ trans, trans ∈ transitions n
                   ∧ fromState trans ∈ S ∧ symbol trans = c ∧ toState trans = x)
  ∧ move n ∅ c = ∅
  ∧ move n (S ∪ T) c = move n S c ∪ move n T c.
Proof.
  split; [intros x; apply elem_of_move|]. split; apply set_eq; intros x.
  - rewrite elem_of_move. split; [intros (t & _ & Hin & _); set_solver|set_solver].
  - rewrite elem_of_union, !elem_of_move. split.
    + intros (t & Ht & [Hin|Hin]%elem_of_union & Hs & Hto); [left|right]; by exists t.
    + intros [(t & Ht & Hin & Hs & Hto)|(t & Ht & Hin & Hs & Hto)]; exists t; set_solver.
Qed.

End ClosureFacts.

Lemma epsilonClosure_least_witness :
  ({[0]} : gset Z) ⊆ {[0; 1; 3]}
  ∧ (∀ a b, a ∈ ({[0; 1; 3]} : gset Z) →
            epsStep (NFA.kleeneStar (NFA.fromSymbol "a"%char)) a b →
            b ∈ ({[0; 1; 3]} : gset Z))
  ∧ 1 ∈ NFA.epsilonClosure (NFA.kleeneStar (NFA.fromSymbol "a"%char)) {[0]}
  ∧ 3 ∈ NFA.epsilonClosure (NFA.kleeneStar (NFA.fromSymbol "a"%char)) {[0]}
  ∧ NFA.epsilonClosure (NFA.kleeneStar (NFA.fromSymbol "a"%char)) {[0]} ⊆ {[0; 1; 3]}.
Proof.
  assert (Hts : NFA.transitions (NFA.kleeneStar (NFA.fromSymbol "a"%char))
                = [mkTransition 0 1 epsilon; mkTransition 0 3 epsilon;
                   mkTransition 1 2 "a"%char;
                   mkTransition 2 1 epsilon; mkTransition 2 3 epsilon])
    by (by vm_compute).
  assert (H1 : ({[0]} : gset Z) ⊆ {[0; 1; 3]}) by set_solver.
  assert (H2 : ∀ a b, a ∈ ({[0; 1; 3]} : gset Z) →
                      epsStep (NFA.kleeneStar (NFA.fromSymbol "a"%char)) a b →
                      b ∈ ({[0; 1; 3]} : gset Z)).
  { intros a b Ha (t & Ht & Hf & He & Hto). rewrite Hts in Ht.
    repeat (apply elem_of_cons in Ht as [->|Ht]); cbn in *; subst;
      [set_solver|set_solver|discriminate He|set_solver|set_solver|].
    by apply elem_of_nil in Ht. }
  assert (Hstep : ∀ b, mkTransition 0 b epsilon
                       ∈ NFA.transitions (NFA.kleeneStar (NFA.fromSymbol "a"%char)) →
                  b ∈ NFA.epsilonClosure (NFA.kleeneStar (NFA.fromSymbol "a"%char)) {[0]}).
  { intros b Hb.
    destruct (epsilonClosure_least (NFA.kleeneStar (NFA.fromSymbol "a"%char))
                {[0]} {[0; 1; 3]} H1 H2) as (Hin & Hclosed & _).
    apply (Hclosed 0 b); [apply Hin; set_solver|]. by exists (mkTransition 0 b epsilon). }
  split; [exact H1|]. split; [exact H2|].
  split; [apply Hstep; rewrite Hts; set_solver|].
  split; [apply Hstep; rewrite Hts; set_solver|].
  exact (proj2 (proj2 (epsilonClosure_least (NFA.kleeneStar (NFA.fromSymbol "a"%char))
                         {[0]} {[0; 1; 3]} H1 H2))).
Defined.

(** ** RegexParser::isValidRegex, what it decides *)

Section Balanced.
Import RegexParser.

Lemma depth_from (l : list ascii) (a : Z) :
  foldl (λ n c, if bool_decide (c = "("%char) then n + 1
                else if bool_decide (c = ")"%char) then n - 1 else n) a l
  = a + depth l.
Proof.
  unfold depth.
  set (f := λ (n : Z) (c : ascii),
              if bool_decide (c = "("%char) then n + 1
              else if bool_decide (c = ")"%char) then n - 1 else n).
  revert a; induction l as [|x l IH]; intros a; cbn [foldl]; [lia|].
  rewrite (IH (f a x)), (IH (f 0 x)). unfold f. repeat case_bool_decide; lia.
Qed.

Lemma depth_cons (c : ascii) (l : list ascii) :
  depth (c :: l)
  = (if bool_decide (c = "("%char) then 1
     else if bool_decide (c = ")"%char) then -1 else 0) + depth l.
Proof.
  unfold depth at 1. cbn [foldl]. rewrite depth_from. repeat case_bool_decide; lia.
Qed.

Lemma isValidRegex_loop_balanced (l : list ascii) (n : Z) :
  0 ≤ n →
  isValidRegex_loop n l = true ↔ n + depth l = 0 ∧ ∀ k : nat, 0 ≤ n + depth (take k l).
Proof.
  revert n; induction l as [|c l IH]; intros n Hn.
  - cbn. rewrite bool_decide_eq_true. split.
    + intros ->. split; [done|]. intros k. by rewrite take_nil.
    + intros [H _]. unfold depth in H; cbn in H. lia.
  - cbn [isValidRegex_loop]. rewrite depth_cons.
    set (n' := if bool_decide (c = ")"%char)
               then (if bool_decide (c = "("%char) then n + 1 else n) - 1
               else if bool_decide (c = "("%char) then n + 1 else n).
    assert (Hn' : n' = n + (if bool_decide (c = "("%char) then 1
                            else if bool_decide (c = ")"%char) then -1 else 0)).
    { subst n'. repeat case_bool_decide; simplify_eq; lia. }
    destruct (decide (n' < 0)) as [Hneg|Hneg];
      [rewrite (bool_decide_eq_true_2 _ Hneg)|rewrite (bool_decide_eq_false_2 _ Hneg)].
    + split; [done|]. intros [_ Hk]. specialize (Hk 1%nat).
      cbn [take] in Hk. rewrite take_0, depth_cons in Hk.
      unfold depth in Hk; cbn in Hk. lia.
    + rewrite IH by lia. rewrite Hn'. split.
      * intros [H0 Hk]. split; [lia|]. intros [|k]; cbn [take].
        -- unfold depth; cbn. lia.
        -- rewrite depth_cons. specialize (Hk k). lia.
      * intros [H0 Hk]. split; [lia|]. intros k. specialize (Hk (S k)).
        cbn [take] in Hk. rewrite depth_cons in Hk. lia.
Qed.

(** [isValidRegex] answers [true] exactly for the patterns whose parentheses
    are balanced: no prefix closes more than it has opened, and the whole
    pattern closes all it has opened.  The empty pattern is valid. *)
Theorem isValidRegex_balanced (regex : string) :
  (isValidRegex regex = true ↔ balanced (chars regex))
  ∧ isValidRegex "" = true.
Proof.
  split; [|by vm_compute]. unfold isValidRegex, balanced.
  rewrite isValidRegex_loop_balanced by done.
  split; intros [H0 Hk]; (split; [lia|]); intros k; specialize (Hk k); lia.
Qed.

End Balanced.

(** ** RegexParser::infixToPostfix, what reaches the output *)

Section PostfixFacts.
Import RegexParser.

Lemma isOperand_cases (c : ascii) :
  (c = "("%char ∧ isOperand c = false ∧ PostfixSpec.precedence c = None)
  ∨ (c = ")"%char ∧ isOperand c = false ∧ PostfixSpec.precedence c = None)
  ∨ (isOperator c = true ∧ isOperand c = false ∧ noParen c
     ∧ PostfixSpec.precedence c = Some (getPrecedence c))
  ∨ (isOperand c = true ∧ isOperator c = false ∧ noParen c
     ∧ PostfixSpec.precedence c = None).
Proof.
  unfold isOperand, noParen. rewrite isOperator_precedence.
  destruct (decide (c = "("%char)) as [->|Hl]; [left; by vm_compute|].
  destruct (decide (c = ")"%char)) as [->|Hr]; [right; left; by vm_compute|].
  rewrite (bool_decide_eq_true_2 _ Hl), (bool_decide_eq_true_2 _ Hr).
  destruct (isOperator c); [right; right; left|right; right; right]; done.
Qed.

Lemma onStack_not_operand (c : ascii) : onStack c → isOperand c = false.
Proof.
  intros [->|Hop]; [by vm_compute|].
  destruct (isOperand_cases c) as [(_ & ? & _)|[(_ & ? & _)|[(_ & ? & _)|(_ & ? & _)]]];
    congruence.
Qed.

Lemma filter_operand_onStack (l : list ascii) :
  Forall onStack l → List.filter isOperand l = [].
Proof.
  induction 1 as [|c l Hc _ IH]; [done|]. cbn. by rewrite (onStack_not_operand c Hc).
Qed.

Lemma popWhile_app (P : ascii → bool) (stack : list ascii) :
  (PostfixSpec.popWhile P stack).1 ++ (PostfixSpec.popWhile P stack).2 = stack.
Proof.
  induction stack as [|top rest IH]; cbn; [done|].
  destruct (P top); cbn; [by rewrite IH|done].
Qed.

Lemma popWhile_popped (P : ascii → bool) (stack : list ascii) :
  Forall (λ c, P c = true) (PostfixSpec.popWhile P stack).1.
Proof.
  induction stack as [|top rest IH]; cbn; [done|].
  destruct (P top) eqn:HP; cbn; [by constructor|done].
Qed.

Lemma popWhile_left (P : ascii → bool) (stack : list ascii) :
  match (PostfixSpec.popWhile P stack).2 with
  | [] => True
  | top :: _ => P top = false
  end.
Proof.
  induction stack as [|top rest IH]; cbn; [done|].
  destruct (P top) eqn:HP; cbn; done.
Qed.

Lemma popWhile_popped_onStack (P : ascii → bool) (stack : list ascii) :
  Forall onStack stack → Forall onStack (PostfixSpec.popWhile P stack).1.
Proof.
  intros H. rewrite <- (popWhile_app P stack) in H. by apply Forall_app in H as [? _].
Qed.

Lemma insertConcat_filter (f : ascii → bool) (l : list ascii) :
  f "."%char = false →
  List.filter f (PostfixSpec.insertConcat l) = List.filter f l.
Proof.
  intros Hdot. induction l as [|a rest IH]; [done|].
  cbn [PostfixSpec.insertConcat]. destruct rest as [|b rest']; [done|].
  destruct (PostfixSpec.joins a b).
  - cbn [List.filter]. rewrite Hdot. by rewrite IH.
  - cbn [List.filter]. by rewrite IH.
Qed.

Lemma shunt_operands (st : list ascii * list ascii) (c : ascii) :
  Forall onStack st.2 →
  List.filter isOperand (PostfixSpec.shunt st c).1
  = List.filter isOperand st.1 ++ List.filter isOperand [c].
Proof.
  intros Hst. unfold PostfixSpec.shunt.
  destruct (isOperand_cases c)
    as [(-> & Hc & Hp)|[(-> & Hc & Hp)|[(Hop & Hc & [Hl Hr] & Hp)|(Hc & Hop & [Hl Hr] & Hp)]]].
  - rewrite (bool_decide_eq_true_2 ("("%char = "("%char)) by done.
    cbn [fst List.filter]. rewrite Hc. by rewrite app_nil_r.
  - rewrite (bool_decide_eq_false_2 (")"%char = "("%char)) by done.
    rewrite (bool_decide_eq_true_2 (")"%char = ")"%char)) by done.
    cbn [fst List.filter]. rewrite Hc, List.filter_app.
    by rewrite (filter_operand_onStack _ (popWhile_popped_onStack _ _ Hst)).
  - rewrite (bool_decide_eq_false_2 _ Hl), (bool_decide_eq_false_2 _ Hr), Hp.
    cbn [fst List.filter]. rewrite Hc, List.filter_app.
    by rewrite (filter_operand_onStack _ (popWhile_popped_onStack _ _ Hst)).
  - rewrite (bool_decide_eq_false_2 _ Hl), (bool_decide_eq_false_2 _ Hr), Hp.
    cbn [fst]. by rewrite List.filter_app.
Qed.

Lemma shunt_onStack (st : list ascii * list ascii) (c : ascii) :
  Forall onStack st.2 → Forall onStack (PostfixSpec.shunt st c).2.
Proof. intros Hst. by destruct (postfixStep_shunt st c Hst). Qed.

Lemma foldl_shunt_operands (l : list ascii) (st : list ascii * list ascii) :
  Forall onStack st.2 →
  List.filter isOperand (foldl PostfixSpec.shunt st l).1
  = List.filter isOperand st.1 ++ List.filter isOperand l
  ∧ Forall onStack (foldl PostfixSpec.shunt st l).2.
Proof.
  revert st; induction l as [|c l IH]; intros st Hst; cbn [foldl].
  { cbn. by rewrite app_nil_r. }
  destruct (IH (PostfixSpec.shunt st c) (shunt_onStack st c Hst)) as [-> H2].
  split; [|done]. rewrite (shunt_operands st c Hst), <- app_assoc. f_equal.
  cbn [List.filter]. by destruct (isOperand c).
Qed.

(** The operands of a pattern reach the postfix string all, once each and in
    the order in which the pattern has them; only operators move. *)
Theorem infixToPostfix_operands (regex : string) :
  List.filter isOperand (chars (infixToPostfix regex))
  = List.filter isOperand (chars regex).
Proof.
  unfold infixToPostfix. rewrite chars_str, addConcat_insertConcat, toPostfix_shuntingYard.
  unfold PostfixSpec.shuntingYard.
  destruct (foldl_shunt_operands (PostfixSpec.insertConcat (chars regex)) ([], []))
    as [H1 H2]; [constructor|].
  rewrite List.filter_app, H1, (filter_operand_onStack _ H2), app_nil_r. cbn [fst app].
  by apply insertConcat_filter.
Qed.

(** *** Parentheses *)

Lemma opens_app (l1 l2 : list ascii) : opens (l1 ++ l2) = (opens l1 + opens l2)%nat.
Proof. unfold opens. by rewrite List.filter_app, length_app. Qed.

Lemma opens_zero (l : list ascii) :
  Forall (λ c, c ≠ "("%char) l → opens l = 0%nat.
Proof.
  unfold opens. induction 1 as [|c l Hc _ IH]; [done|]. cbn.
  by rewrite (bool_decide_eq_false_2 _ Hc).
Qed.

Lemma opens_cons (c : ascii) (l : list ascii) :
  opens (c :: l) = if bool_decide (c = "("%char) then S (opens l) else opens l.
Proof. unfold opens. cbn [List.filter]. by destruct (bool_decide _). Qed.

Lemma onStack_noParen (l : list ascii) :
  Forall onStack l → Forall (λ c, c ≠ "("%char) l → Forall noParen l.
Proof.
  induction 1 as [|c l Hc _ IH]; [done|]. intros [Hne Hl]%Forall_cons.
  constructor; [|by apply IH]. destruct Hc as [->|Hop]; [done|].
  by apply isOperator_not_paren.
Qed.

Lemma shunt_parens (st : list ascii * list ascii) (c : ascii) (n : Z) :
  0 ≤ n → Z.of_nat (opens st.2) = n → Forall noParen st.1 → Forall onStack st.2 →
  let n' := if bool_decide (c = ")"%char)
            then (if bool_decide (c = "("%char) then n + 1 else n) - 1
            else if bool_decide (c = "("%char) then n + 1 else n in
  0 ≤ n' →
  Z.of_nat (opens (PostfixSpec.shunt st c).2) = n'
  ∧ Forall noParen (PostfixSpec.shunt st c).1.
Proof.
  intros Hn Hopens Hout Hst n' Hn'. subst n'. unfold PostfixSpec.shunt.
  destruct (isOperand_cases c)
    as [(-> & Hc & Hp)|[(-> & Hc & Hp)|[(Hop & Hc & [Hl Hr] & Hp)|(Hc & Hop & [Hl Hr] & Hp)]]].
  - rewrite (bool_decide_eq_true_2 ("("%char = "("%char)) by done.
    rewrite (bool_decide_eq_false_2 ("("%char = ")"%char)) by done.
    cbn [fst snd]. split; [|done].
    rewrite opens_cons, (bool_decide_eq_true_2 ("("%char = "("%char)) by done. lia.
  - rewrite (bool_decide_eq_false_2 (")"%char = "("%char)) in * by done.
    rewrite (bool_decide_eq_true_2 (")"%char = ")"%char)) in * by done.
    cbn [fst snd].
    set (P := λ top : ascii, bool_decide (top ≠ "("%char)).
    pose proof (popWhile_app P st.2) as Happ.
    pose proof (popWhile_popped P st.2) as Hpopped.
    pose proof (popWhile_left P st.2) as Hleft.
    pose proof (popWhile_popped_onStack P st.2 Hst) as Hpst.
    destruct (PostfixSpec.popWhile P st.2) as [popped left]; cbn [fst snd] in *.
    assert (Hpne : Forall (λ c, c ≠ "("%char) popped).
    { eapply Forall_impl; [exact Hpopped|]. intros x Hx. by apply bool_decide_eq_true in Hx. }
    rewrite <- Happ, opens_app, (opens_zero _ Hpne) in Hopens.
    split.
    + destruct left as [|top left']; [unfold opens in Hopens; cbn in Hopens; lia|].
      apply bool_decide_eq_false in Hleft. apply dec_stable in Hleft as ->.
      rewrite opens_cons, (bool_decide_eq_true_2 ("("%char = "("%char)) in Hopens by done.
      cbn [tail]. lia.
    + apply Forall_app; split; [done|]. by apply onStack_noParen.
  - rewrite (bool_decide_eq_false_2 _ Hl), (bool_decide_eq_false_2 _ Hr), Hp in *.
    cbn [fst snd].
    pose proof (popWhile_app (PostfixSpec.outranks c) st.2) as Happ.
    pose proof (popWhile_popped (PostfixSpec.outranks c) st.2) as Hpopped.
    pose proof (popWhile_popped_onStack (PostfixSpec.outranks c) st.2 Hst) as Hpst.
    destruct (PostfixSpec.popWhile (PostfixSpec.outranks c) st.2) as [popped left];
      cbn [fst snd] in *.
    assert (Hpne : Forall (λ c, c ≠ "("%char) popped).
    { eapply Forall_impl; [exact Hpopped|]. intros x Hx ->. by vm_compute in Hx. }
    rewrite <- Happ, opens_app, (opens_zero _ Hpne) in Hopens.
    split.
    + rewrite opens_cons, (bool_decide_eq_false_2 _ Hl). lia.
    + apply Forall_app; split; [done|]. by apply onStack_noParen.
  - rewrite (bool_decide_eq_false_2 _ Hl), (bool_decide_eq_false_2 _ Hr), Hp in *.
    cbn [fst snd]. split; [done|]. apply Forall_app; split; [done|].
    by repeat constructor.
Qed.

Lemma foldl_shunt_parens (l : list ascii) (st : list ascii * list ascii) (n : Z) :
  0 ≤ n → Z.of_nat (opens st.2) = n → Forall noParen st.1 → Forall onStack st.2 →
  isValidRegex_loop n l = true →
  opens (foldl PostfixSpec.shunt st l).2 = 0%nat
  ∧ Forall noParen (foldl PostfixSpec.shunt st l).1
  ∧ Forall onStack (foldl PostfixSpec.shunt st l).2.
Proof.
  revert st n; induction l as [|c l IH]; intros st n Hn Hopens Hout Hst Hvalid.
  { cbn in *. apply bool_decide_eq_true in Hvalid. split; [lia|done]. }
  cbn [foldl isValidRegex_loop] in *.
  set (n' := if bool_decide (c = ")"%char)
             then (if bool_decide (c = "("%char) then n + 1 else n) - 1
             else if bool_decide (c = "("%char) then n + 1 else n) in *.
  destruct (decide (n' < 0)) as [Hneg|Hneg];
    [by rewrite (bool_decide_eq_true_2 _ Hneg) in Hvalid|].
  rewrite (bool_decide_eq_false_2 _ Hneg) in Hvalid.
  destruct (shunt_parens st c n Hn Hopens Hout Hst) as [H1 H2]; [fold n'; lia|].
  fold n' in H1. apply (IH _ n'); [lia|done|done|by apply shunt_onStack|done].
Qed.

(** A pattern that [isValidRegex] accepts is translated to a postfix string
    without parentheses: every parenthesis is used up by the stack.  (An
    invalid one may keep a ['('], as ["a(b"] does, and [fromRegex] then
    builds an automaton that reads the character ['('].) *)
Theorem infixToPostfix_no_parenthesis (regex : string) :
  isValidRegex regex = true →
  Forall noParen (chars (infixToPostfix regex)).
Proof.
  intros Hvalid. unfold infixToPostfix.
  rewrite chars_str, addConcat_insertConcat, toPostfix_shuntingYard.
  unfold PostfixSpec.shuntingYard, isValidRegex in *.
  assert (Hvalid' : isValidRegex_loop 0 (PostfixSpec.insertConcat (chars regex)) = true).
  { rewrite isValidRegex_loop_filter by done.
    rewrite insertConcat_filter by (by vm_compute).
    by rewrite <- isValidRegex_loop_filter. }
  destruct (foldl_shunt_parens _ ([], []) 0 (Z.le_refl 0) eq_refl
              (List.Forall_nil _) (List.Forall_nil _) Hvalid') as (H0 & Hout & Hst).
  apply Forall_app; split; [done|]. apply onStack_noParen; [done|].
  apply Forall_forall. intros x Hx ->.
  apply list_elem_of_split in Hx as (l1 & l2 & Heq). rewrite Heq, opens_app in H0.
  rewrite opens_cons, (bool_decide_eq_true_2 ("("%char = "("%char)) in H0 by done. lia.
Qed.

Lemma infixToPostfix_no_parenthesis_witness :
  isValidRegex "(a|b)c" = true
  ∧ Forall noParen (chars (infixToPostfix "(a|b)c")).
Proof.
  assert (H : isValidRegex "(a|b)c" = true) by (by vm_compute).
  split; [exact H|]. exact (infixToPostfix_no_parenthesis "(a|b)c" H).
Defined.

(** *** Words *)

Lemma insertConcat_word (a : ascii) (l : list ascii) :
  isOperand a = true → Forall (λ c, isOperand c = true) l →
  PostfixSpec.insertConcat (a :: l) = a :: flat_map (λ c, ["."%char; c]) l.
Proof.
  intros Ha Hl; revert a Ha; induction Hl as [|b l Hb _ IH]; intros a Ha; [done|].
  cbn [PostfixSpec.insertConcat flat_map app]. rewrite <- (IH b Hb).
  assert (Hj : PostfixSpec.joins a b = true); [|by rewrite Hj].
  unfold PostfixSpec.joins.
  destruct (isOperand_cases a)
    as [(_ & ? & _)|[(_ & ? & _)|[(_ & ? & _)|(_ & Hopa & [Hal Har] & _)]]];
    try congruence.
  destruct (isOperand_cases b)
    as [(_ & ? & _)|[(_ & ? & _)|[(_ & ? & _)|(_ & Hopb & [Hbl Hbr] & _)]]];
    try congruence.
  apply andb_true_iff; split; apply bool_decide_eq_true; rewrite !not_elem_of_cons;
    unfold isOperator in *; repeat split; try done;
    try apply not_elem_of_nil; intros ->; by vm_compute in Hopa, Hopb.
Qed.

Lemma shunt_word (l : list ascii) (out : list ascii) :
  Forall (λ c, isOperand c = true) l →
  foldl PostfixSpec.shunt (out, ["."%char]) (flat_map (λ c, ["."%char; c]) l)
  = (out ++ flat_map (λ c, ["."%char; c]) l, ["."%char]).
Proof.
  intros Hl; revert out; induction Hl as [|b l Hb _ IH]; intros out.
  { cbn. by rewrite app_nil_r. }
  cbn [flat_map app foldl].
  assert (H1 : PostfixSpec.shunt (out, ["."%char]) "."%char = (out ++ ["."%char], ["."%char]))
    by (by vm_compute).
  rewrite H1.
  assert (H2 : PostfixSpec.shunt (out ++ ["."%char], ["."%char]) b
               = ((out ++ ["."%char]) ++ [b], ["."%char])).
  { unfold PostfixSpec.shunt.
    destruct (isOperand_cases b)
      as [(_ & ? & _)|[(_ & ? & _)|[(_ & ? & _)|(_ & _ & [Hbl Hbr] & Hp)]]]; try congruence.
    by rewrite (bool_decide_eq_false_2 _ Hbl), (bool_decide_eq_false_2 _ Hbr), Hp. }
  rewrite H2, IH. by rewrite <- !app_assoc.
Qed.

Lemma infixToPostfix_operands_only (a : ascii) (l : list ascii) :
  isOperand a = true → Forall (λ c, isOperand c = true) l →
  infixToPostfix (str (a :: l)) = str (a :: flat_map (λ c, [c; "."%char]) l).
Proof.
  intros Ha Hl. unfold infixToPostfix.
  rewrite chars_str, addConcat_insertConcat, toPostfix_shuntingYard.
  rewrite (insertConcat_word a l Ha Hl). unfold PostfixSpec.shuntingYard. f_equal.
  cbn [foldl].
  assert (H1 : PostfixSpec.shunt ([], []) a = ([a], [])).
  { unfold PostfixSpec.shunt.
    destruct (isOperand_cases a)
      as [(_ & ? & _)|[(_ & ? & _)|[(_ & ? & _)|(_ & _ & [Hal Har] & Hp)]]]; try congruence.
    by rewrite (bool_decide_eq_false_2 _ Hal), (bool_decide_eq_false_2 _ Har), Hp. }
  rewrite H1. destruct Hl as [|b l Hb Hl]; [done|].
  cbn [flat_map app foldl].
  assert (H2 : PostfixSpec.shunt ([a], []) "."%char = ([a], ["."%char])) by (by vm_compute).
  rewrite H2.
  assert (H3 : PostfixSpec.shunt ([a], ["."%char]) b = ([a; b], ["."%char])).
  { unfold PostfixSpec.shunt.
    destruct (isOperand_cases b)
      as [(_ & ? & _)|[(_ & ? & _)|[(_ & ? & _)|(_ & _ & [Hbl Hbr] & Hp)]]]; try congruence.
    by rewrite (bool_decide_eq_false_2 _ Hbl), (bool_decide_eq_false_2 _ Hbr), Hp. }
  rewrite H3, (shunt_word l [a; b] Hl). cbn [fst snd app]. f_equal. f_equal.
  clear. induction l as [|c l IH]; [done|]. cbn [flat_map app]. by rewrite IH.
Qed.

(** A pattern made of operands only, such as a keyword, is translated to its
    first character followed by every further character with a ['.'] after
    it: ["abc"] becomes ["ab.c."], the concatenations nested to the left. *)
Theorem infixToPostfix_word (a : ascii) (l : list ascii) :
  isOperand a = true → Forall (λ c, isOperand c = true) l →
  infixToPostfix (str (a :: l)) = str (a :: flat_map (λ c, [c; "."%char]) l).
Proof. apply infixToPostfix_operands_only. Qed.

Lemma infixToPostfix_word_witness :
  isOperand "i"%char = true
  ∧ Forall (λ c, isOperand c = true) ["f"%char]
  ∧ infixToPostfix "if" = "if."%string.
Proof.
  assert (Ha : isOperand "i"%char = true) by (by vm_compute).
  assert (Hl : Forall (λ c, isOperand c = true) ["f"%char]).
  { constructor; [by vm_compute|constructor]. }
  split; [exact Ha|]. split; [exact Hl|].
  exact (infixToPostfix_word "i"%char ["f"%char] Ha Hl).
Defined.

End PostfixFacts.

(** ** Thompson's construction: the automata it builds *)

Section ThompsonFields.
Import NFA.

Lemma elem_of_flat_map {A B : Type} (f : A → list B) (l : list A) (y : B) :
  y ∈ flat_map f l ↔ ∃ x, x ∈ l ∧ y ∈ f x.
Proof.
  rewrite list_elem_of_In, in_flat_map. split; intros (x & Hx & Hy); exists x.
  - by rewrite !list_elem_of_In.
  - by rewrite <- !list_elem_of_In.
Qed.

Lemma addStatesFrom_accepting (src : list State) (offset : Z) (keep : bool) (n : NFA.t) (q : Z) :
  q ∈ acceptingStates (addStatesFrom src offset keep n)
  ↔ q ∈ acceptingStates n
    ∨ ∃ s, s ∈ src ∧ keep && isAccepting s = true ∧ q = id s + offset.
Proof.
  unfold addStatesFrom. revert n; induction src as [|s src IH]; intros n; cbn [foldl].
  { split; [by left|]. intros [?|(s & Hs & _)]; [done|]. by apply elem_of_nil in Hs. }
  rewrite IH. cbn [acceptingStates addState]. split.
  - intros [Hq|(s' & Hs' & ? & ?)].
    + destruct (keep && isAccepting s) eqn:Hk; [|by left].
      apply elem_of_union in Hq as [->%elem_of_singleton|?]; [|by left].
      right. exists s. set_solver.
    + right. exists s'. set_solver.
  - intros [Hq|(s' & Hs' & Hk & ->)].
    + left. destruct (keep && isAccepting s); set_solver.
    + apply elem_of_cons in Hs' as [->|Hs']; [|right; by exists s'].
      left. rewrite Hk. set_solver.
Qed.

Lemma addStatesFrom_counter (src : list State) (offset : Z) (keep : bool) (n : NFA.t) :
  stateCounter (addStatesFrom src offset keep n) = stateCounter n.
Proof.
  unfold addStatesFrom. revert n; induction src as [|s src IH]; intros n; cbn [foldl]; [done|].
  by rewrite IH.
Qed.

(** The automaton that [concatenate] returns, field by field. *)
Lemma concatenate_fields (nfa1 nfa2 : NFA.t) :
  let offset := Z.of_nat (length (states nfa1)) in
  states (concatenate nfa1 nfa2)
  = ((λ s, mkState (id s + 0) false "") <$> states nfa1)
    ++ ((λ s, mkState (id s + offset) (isAccepting s) "") <$> states nfa2)
  ∧ transitions (concatenate nfa1 nfa2)
    = ((λ t, mkTransition (fromState t + 0) (toState t + 0) (symbol t)) <$> transitions nfa1)
      ++ ((λ a, mkTransition (a + 0) (startState nfa2 + offset) epsilon)
            <$> ascending (acceptingStates nfa1))
      ++ ((λ t, mkTransition (fromState t + offset) (toState t + offset) (symbol t))
            <$> transitions nfa2)
  ∧ startState (concatenate nfa1 nfa2) = startState nfa1
  ∧ (∀ q, q ∈ acceptingStates (concatenate nfa1 nfa2)
          ↔ ∃ s, s ∈ states nfa2 ∧ isAccepting s = true ∧ q = id s + offset)
  ∧ stateCounter (concatenate nfa1 nfa2)
    = Z.of_nat (length (states nfa1)) + Z.of_nat (length (states nfa2)).
Proof.
  intros offset. unfold concatenate. fold offset.
  set (r1 := addStatesFrom (states nfa1) 0 false new).
  set (r2 := addStatesFrom (states nfa2) offset true r1).
  set (r3 := addTransitionsFrom (transitions nfa1) 0 r2).
  set (r4 := linkAccepting (acceptingStates nfa1) 0 (startState nfa2 + offset) r3).
  set (r5 := addTransitionsFrom (transitions nfa2) offset r4).
  destruct (addStatesFrom_fields (states nfa1) 0 false new) as (S1 & T1 & Q1 & A1).
  destruct (addStatesFrom_fields (states nfa2) offset true r1) as (S2 & T2 & Q2 & _).
  destruct (addTransitionsFrom_fields (transitions nfa1) 0 r2) as (S3 & T3 & Q3 & A3).
  destruct (linkAccepting_fields (acceptingStates nfa1) 0 (startState nfa2 + offset) r3)
    as (S4 & T4 & Q4 & A4).
  destruct (addTransitionsFrom_fields (transitions nfa2) offset r4) as (S5 & T5 & Q5 & A5).
  fold r1 in S1, T1, Q1, A1. fold r2 in S2, T2, Q2. fold r3 in S3, T3, Q3, A3.
  fold r4 in S4, T4, Q4, A4. fold r5 in S5, T5, Q5, A5.
  cbn [acceptingStates states transitions startState stateCounter setStateCounter
       setStartState].
  rewrite S5, S4, S3, S2, S1, T5, T4, T3, T2, T1, A5, A4, A3.
  cbn [states transitions new app andb]. rewrite <- !app_assoc.
  repeat split; try done.
  - intros Hq. apply addStatesFrom_accepting in Hq as [Hq|(s & ? & ? & ?)].
    + rewrite A1 in Hq by done. set_solver.
    + by exists s.
  - intros (s & ? & ? & ?). apply addStatesFrom_accepting. right. by exists s.
Qed.

(** The automaton that [kleeneStar] returns, field by field. *)
Lemma kleeneStar_fields (nfa : NFA.t) :
  let newAccept := 1 + Z.of_nat (length (states nfa)) in
  states (kleeneStar nfa)
  = mkState 0 false ""
    :: ((λ s, mkState (id s + 1) false "") <$> states nfa)
    ++ [mkState newAccept true ""]
  ∧ transitions (kleeneStar nfa)
    = mkTransition 0 (startState nfa + 1) epsilon
      :: mkTransition 0 newAccept epsilon
      :: ((λ t, mkTransition (fromState t + 1) (toState t + 1) (symbol t))
            <$> transitions nfa)
      ++ flat_map (λ a, [mkTransition (a + 1) (startState nfa + 1) epsilon;
                         mkTransition (a + 1) newAccept epsilon])
                  (ascending (acceptingStates nfa))
  ∧ startState (kleeneStar nfa) = 0
  ∧ acceptingStates (kleeneStar nfa) = {[newAccept]}
  ∧ stateCounter (kleeneStar nfa) = newAccept + 1.
Proof.
  intros newAccept. unfold kleeneStar. fold newAccept.
  set (r1 := setStartState 0 (addState 0 false new)).
  set (r2 := addStatesFrom (states nfa) 1 false r1).
  set (r5 := addTransition 0 newAccept epsilon
               (addTransition 0 (startState nfa + 1) epsilon (addState newAccept true r2))).
  set (r6 := addTransitionsFrom (transitions nfa) 1 r5).
  destruct (addStatesFrom_fields (states nfa) 1 false r1) as (S2 & T2 & Q2 & A2).
  destruct (addTransitionsFrom_fields (transitions nfa) 1 r5) as (S6 & T6 & Q6 & A6).
  fold r2 in S2, T2, Q2, A2. fold r6 in S6, T6, Q6, A6.
  cbn [acceptingStates states transitions startState stateCounter setStateCounter].
  assert (Hloop : ∀ (l : list Z) (r : NFA.t),
            let r' := foldl (λ r acceptState,
                               addTransition (acceptState + 1) newAccept epsilon
                                 (addTransition (acceptState + 1) (startState nfa + 1) epsilon r))
                            r l in
            states r' = states r
            ∧ transitions r'
              = transitions r
                ++ flat_map (λ a, [mkTransition (a + 1) (startState nfa + 1) epsilon;
                                   mkTransition (a + 1) newAccept epsilon]) l
            ∧ startState r' = startState r
            ∧ acceptingStates r' = acceptingStates r).
  { induction l as [|a l IH]; intros r; cbn [foldl flat_map].
    - by rewrite app_nil_r.
    - destruct (IH (addTransition (a + 1) newAccept epsilon
                      (addTransition (a + 1) (startState nfa + 1) epsilon r)))
        as (I1 & I2 & I3 & I4).
      cbn zeta in *. rewrite I1, I2, I3, I4.
      cbn [states transitions startState acceptingStates addTransition].
      by rewrite <- !app_assoc. }
  destruct (Hloop (ascending (acceptingStates nfa)) r6) as (L1 & L2 & L3 & L4).
  cbn zeta in *. rewrite L1, L2, L3, L4, S6, T6, Q6, A6.
  cbn [acceptingStates states transitions startState addTransition addState r5].
  rewrite S2, T2, Q2, A2 by done.
  cbn [acceptingStates states transitions startState setStartState addState r1 new app andb].
  repeat split; try done. set_solver.
Qed.

End ThompsonFields.

Section ThompsonWellFormed.
Import NFA.

Lemma wellFormed_accepting_inRange (n : NFA.t) (q : Z) :
  wellFormed n → q ∈ acceptingStates n → inRange n q.
Proof.
  intros Hwf (s & Hs & <- & _)%(wf_accepting n Hwf).
  assert (Hin : id s ∈ id <$> states n) by (apply list_elem_of_fmap; by exists s).
  rewrite (wf_ids n Hwf) in Hin. apply elem_of_seqZ in Hin. unfold inRange. lia.
Qed.

Lemma wellFormed_state_inRange (n : NFA.t) (s : State) :
  wellFormed n → s ∈ states n → inRange n (id s).
Proof.
  intros Hwf Hs.
  assert (Hin : id s ∈ id <$> states n) by (apply list_elem_of_fmap; by exists s).
  rewrite (wf_ids n Hwf) in Hin. apply elem_of_seqZ in Hin. unfold inRange. lia.
Qed.

Lemma fmap_shift_ids (l : list State) (offset : Z) (f : State → bool) :
  id <$> ((λ s, mkState (id s + offset) (f s) "") <$> l) = Z.add offset <$> (id <$> l).
Proof.
  rewrite <- !list_fmap_compose. apply list_fmap_ext. intros _ s _. cbn. lia.
Qed.

Lemma seqZ_one (m : Z) : seqZ m 1 = [m].
Proof. unfold seqZ. cbn. f_equal. Qed.

Lemma seqZ_two_blocks (a b : Z) :
  0 ≤ a → 0 ≤ b →
  0 :: (Z.add 1 <$> seqZ 0 a) ++ (Z.add (1 + a) <$> seqZ 0 b) ++ [1 + a + b]
  = seqZ 0 (a + b + 2).
Proof.
  intros Ha Hb. rewrite !fmap_add_seqZ.
  replace (a + b + 2) with (1 + (a + (b + 1))) by lia.
  rewrite (seqZ_app 0 1 (a + (b + 1))) by lia.
  rewrite (seqZ_app (0 + 1) a (b + 1)) by lia.
  rewrite (seqZ_app (0 + 1 + a) b 1) by lia.
  rewrite !seqZ_one. cbn [app]. by rewrite ?Z.add_0_r, ?Z.add_0_l.
Qed.

Lemma seqZ_one_block (a : Z) :
  0 ≤ a → 0 :: (Z.add 1 <$> seqZ 0 a) ++ [1 + a] = seqZ 0 (a + 2).
Proof.
  intros Ha. rewrite !fmap_add_seqZ.
  replace (a + 2) with (1 + (a + 1)) by lia.
  rewrite (seqZ_app 0 1 (a + 1)) by lia.
  rewrite (seqZ_app (0 + 1) a 1) by lia.
  rewrite !seqZ_one. cbn [app]. by rewrite ?Z.add_0_r, ?Z.add_0_l.
Qed.

Lemma fromSymbol_wellFormed (c : ascii) : wellFormed (fromSymbol c).
Proof.
  split; cbn.
  - done.
  - repeat constructor; unfold inRange; cbn; lia.
  - unfold inRange; cbn; lia.
  - intros q. split.
    + intros Hq. exists (mkState 1 true ""). set_solver.
    + intros (s & Hs & <- & Hacc).
      apply elem_of_cons in Hs as [->|Hs]; [done|].
      apply list_elem_of_singleton in Hs as ->. set_solver.
  - done.
Qed.

Lemma union_op_wellFormed (nfa1 nfa2 : NFA.t) :
  wellFormed nfa1 → wellFormed nfa2 → wellFormed (union_op nfa1 nfa2).
Proof.
  intros W1 W2. destruct (union_op_fields nfa1 nfa2) as (Hst & Htr & Hstart & Hacc).
  cbn zeta in *.
  set (k1 := Z.of_nat (length (states nfa1))) in *.
  set (k2 := Z.of_nat (length (states nfa2))) in *.
  assert (Hlen : Z.of_nat (length (states (union_op nfa1 nfa2))) = k1 + k2 + 2).
  { rewrite Hst. cbn [length]. rewrite !length_app, !length_fmap. cbn [length]. lia. }
  assert (Hr : ∀ q, inRange (union_op nfa1 nfa2) q ↔ 0 ≤ q < k1 + k2 + 2).
  { intros q. unfold inRange. by rewrite Hlen. }
  split.
  - rewrite Hlen, Hst. cbn [fmap list_fmap]. rewrite !fmap_app, !fmap_shift_ids.
    rewrite (wf_ids _ W1), (wf_ids _ W2). fold k1 k2. cbn [fmap list_fmap id].
    apply seqZ_two_blocks; lia.
  - rewrite Htr. pose proof (wf_transitions _ W1) as H1. pose proof (wf_transitions _ W2) as H2.
    pose proof (wf_start _ W1) as Hs1. pose proof (wf_start _ W2) as Hs2.
    unfold inRange in Hs1, Hs2. fold k1 k2 in Hs1, Hs2.
    rewrite !Forall_cons, !Forall_app, !Forall_fmap. cbn [fromState toState].
    rewrite !Hr. repeat split; try lia.
    + eapply Forall_impl; [exact H1|]. intros t [Hf Ht]; cbn.
      unfold inRange in Hf, Ht. fold k1 in Hf, Ht. rewrite !Hr. lia.
    + eapply Forall_impl; [exact H2|]. intros t [Hf Ht]; cbn.
      unfold inRange in Hf, Ht. fold k2 in Hf, Ht. rewrite !Hr. lia.
    + apply Forall_forall. intros a Ha%elem_of_ascending; cbn.
      apply (wellFormed_accepting_inRange _ _ W1) in Ha. unfold inRange in Ha. fold k1 in Ha.
      rewrite !Hr. lia.
    + apply Forall_forall. intros a Ha%elem_of_ascending; cbn.
      apply (wellFormed_accepting_inRange _ _ W2) in Ha. unfold inRange in Ha. fold k2 in Ha.
      rewrite !Hr. lia.
  - rewrite Hstart, Hr. lia.
  - intros q. rewrite Hacc, Hst, elem_of_singleton. split.
    + intros ->. exists (mkState (1 + k1 + k2) true ""). split; [|done].
      apply elem_of_cons; right. rewrite !elem_of_app. right; right.
      by apply list_elem_of_singleton.
    + intros (s & Hs & <- & Hflag).
      rewrite elem_of_cons, !elem_of_app, !list_elem_of_fmap in Hs.
      destruct Hs as [->|[(s' & -> & _)|[(s' & -> & _)|Hs]]]; try done.
      by apply list_elem_of_singleton in Hs as ->.
  - cbn [stateCounter union_op setStateCounter]. rewrite Hlen. fold k1 k2. lia.
Qed.

Lemma concatenate_wellFormed (nfa1 nfa2 : NFA.t) :
  wellFormed nfa1 → wellFormed nfa2 → wellFormed (concatenate nfa1 nfa2).
Proof.
  intros W1 W2.
  destruct (concatenate_fields nfa1 nfa2) as (Hst & Htr & Hstart & Hacc & Hcnt).
  cbn zeta in *.
  set (k1 := Z.of_nat (length (states nfa1))) in *.
  set (k2 := Z.of_nat (length (states nfa2))) in *.
  assert (Hlen : Z.of_nat (length (states (concatenate nfa1 nfa2))) = k1 + k2).
  { rewrite Hst. rewrite !length_app, !length_fmap. lia. }
  assert (Hr : ∀ q, inRange (concatenate nfa1 nfa2) q ↔ 0 ≤ q < k1 + k2).
  { intros q. unfold inRange. by rewrite Hlen. }
  pose proof (wf_start _ W1) as Hs1. pose proof (wf_start _ W2) as Hs2.
  unfold inRange in Hs1, Hs2. fold k1 k2 in Hs1, Hs2.
  split.
  - rewrite Hlen, Hst. rewrite !fmap_app, !fmap_shift_ids.
    rewrite (wf_ids _ W1), (wf_ids _ W2). fold k1 k2.
    rewrite !fmap_add_seqZ. rewrite (seqZ_app 0 k1 k2) by lia.
    by rewrite ?Z.add_0_r, ?Z.add_0_l.
  - rewrite Htr. pose proof (wf_transitions _ W1) as H1. pose proof (wf_transitions _ W2) as H2.
    rewrite !Forall_app, !Forall_fmap. repeat split.
    + eapply Forall_impl; [exact H1|]. intros t [Hf Ht]; cbn.
      unfold inRange in Hf, Ht. fold k1 in Hf, Ht. rewrite !Hr. lia.
    + apply Forall_forall. intros a Ha%elem_of_ascending; cbn.
      apply (wellFormed_accepting_inRange _ _ W1) in Ha. unfold inRange in Ha. fold k1 in Ha.
      rewrite !Hr. lia.
    + eapply Forall_impl; [exact H2|]. intros t [Hf Ht]; cbn.
      unfold inRange in Hf, Ht. fold k2 in Hf, Ht. rewrite !Hr. lia.
  - rewrite Hstart, Hr. lia.
  - intros q. rewrite Hacc, Hst. split.
    + intros (s & Hs & Hflag & ->). exists (mkState (id s + k1) (isAccepting s) "").
      split; [|done]. apply elem_of_app; right. apply list_elem_of_fmap. by exists s.
    + intros (s & Hs & <- & Hflag).
      rewrite elem_of_app, !list_elem_of_fmap in Hs.
      destruct Hs as [(s' & -> & _)|(s' & -> & Hs')]; [done|]. by exists s'.
  - rewrite Hcnt, Hlen. done.
Qed.

Lemma kleeneStar_wellFormed (nfa : NFA.t) :
  wellFormed nfa → wellFormed (kleeneStar nfa).
Proof.
  intros W. destruct (kleeneStar_fields nfa) as (Hst & Htr & Hstart & Hacc & Hcnt).
  cbn zeta in *.
  set (k := Z.of_nat (length (states nfa))) in *.
  assert (Hlen : Z.of_nat (length (states (kleeneStar nfa))) = k + 2).
  { rewrite Hst. cbn [length]. rewrite !length_app, !length_fmap. cbn [length]. lia. }
  assert (Hr : ∀ q, inRange (kleeneStar nfa) q ↔ 0 ≤ q < k + 2).
  { intros q. unfold inRange. by rewrite Hlen. }
  pose proof (wf_start _ W) as Hs. unfold inRange in Hs. fold k in Hs.
  split.
  - rewrite Hlen, Hst. cbn [fmap list_fmap]. rewrite !fmap_app, !fmap_shift_ids.
    rewrite (wf_ids _ W). fold k. cbn [fmap list_fmap id].
    apply seqZ_one_block; lia.
  - rewrite Htr. pose proof (wf_transitions _ W) as H1.
    rewrite !Forall_cons, !Forall_app, !Forall_fmap. cbn [fromState toState].
    rewrite !Hr. repeat split; try lia.
    + eapply Forall_impl; [exact H1|]. intros t [Hf Ht]; cbn.
      unfold inRange in Hf, Ht. fold k in Hf, Ht. rewrite !Hr. lia.
    + apply Forall_forall. intros t (a & Ha%elem_of_ascending & Ht)%elem_of_flat_map.
      apply (wellFormed_accepting_inRange _ _ W) in Ha. unfold inRange in Ha. fold k in Ha.
      apply elem_of_cons in Ht as [->|Ht]; [cbn; rewrite !Hr; lia|].
      apply list_elem_of_singleton in Ht as ->. cbn; rewrite !Hr; lia.
  - rewrite Hstart, Hr. lia.
  - intros q. rewrite Hacc, Hst, elem_of_singleton. split.
    + intros ->. exists (mkState (1 + k) true ""). split; [|done].
      apply elem_of_cons; right. rewrite !elem_of_app. right.
      by apply list_elem_of_singleton.
    + intros (s & Hin & <- & Hflag).
      rewrite elem_of_cons, !elem_of_app, !list_elem_of_fmap in Hin.
      destruct Hin as [->|[(s' & -> & _)|Hin]]; try done.
      by apply list_elem_of_singleton in Hin as ->.
  - rewrite Hcnt, Hlen. lia.
Qed.

Lemma thompsonStep_wellFormed (nfaStack : list NFA.t) (c : ascii) :
  Forall wellFormed nfaStack → Forall wellFormed (thompsonStep nfaStack c).
Proof.
  intros Hst. unfold thompsonStep. repeat case_bool_decide.
  - destruct Hst as [|nfa rest Hn Hrest]; [done|].
    constructor; [by apply kleeneStar_wellFormed|done].
  - destruct Hst as [|nfa2 rest Hn2 Hrest]; [done|].
    destruct Hrest as [|nfa1 rest Hn1 Hrest]; [by constructor|].
    constructor; [by apply union_op_wellFormed|done].
  - destruct Hst as [|nfa2 rest Hn2 Hrest]; [done|].
    destruct Hrest as [|nfa1 rest Hn1 Hrest]; [by constructor|].
    constructor; [by apply concatenate_wellFormed|done].
  - constructor; [apply fromSymbol_wellFormed|done].
Qed.

Lemma evalPostfix_wellFormed (postfix : list ascii) :
  Forall wellFormed (evalPostfix postfix).
Proof.
  unfold evalPostfix.
  assert (Hgen : ∀ st, Forall wellFormed st → Forall wellFormed (foldl thompsonStep st postfix)).
  { induction postfix as [|c l IH]; intros st Hst; [done|].
    cbn [foldl]. apply IH. by apply thompsonStep_wellFormed. }
  by apply Hgen.
Qed.

(** Whatever the postfix string, every automaton on the stack of the
    Thompson builder is well formed; so what [fromRegex] returns is either
    well formed or, when the stack ended empty, the automaton without
    states. *)
Theorem fromRegex_wellFormed (regex : string) (postfix : list ascii) :
  Forall wellFormed (evalPostfix postfix)
  ∧ (fromRegex regex = NFA.new ∨ wellFormed (fromRegex regex)).
Proof.
  split; [apply evalPostfix_wellFormed|]. unfold fromRegex, fromPostfix.
  pose proof (evalPostfix_wellFormed (chars (RegexParser.infixToPostfix regex))) as H.
  destruct (evalPostfix _) as [|top rest]; [by left|].
  right. by apply Forall_cons in H as [? _].
Qed.

End ThompsonWellFormed.

(** ** Thompson's construction: the languages *)

Section Paths.
Import NFA.

Lemma transition_eta (t : Transition) :
  mkTransition (fromState t) (toState t) (symbol t) = t.
Proof. by destruct t. Qed.

Lemma reaches_app (n : NFA.t) (q q' q'' : Z) (w1 w2 : list ascii) :
  reaches n q w1 q' → reaches n q' w2 q'' → reaches n q (w1 ++ w2) q''.
Proof.
  induction 1 as [|? ? ? ? Hstep _ IH|? ? ? ? ? Hc Ht _ IH]; intros H2; cbn.
  - done.
  - eapply reaches_eps; [done|]. by apply IH.
  - eapply reaches_char; [done|done|]. by apply IH.
Qed.

Lemma reaches_eps_last (n : NFA.t) (q q' q'' : Z) (w : list ascii) :
  reaches n q w q' → mkTransition q' q'' epsilon ∈ transitions n → reaches n q w q''.
Proof.
  intros H Ht. rewrite <- (app_nil_r w). eapply reaches_app; [done|].
  eapply reaches_eps; [|constructor]. by exists (mkTransition q' q'' epsilon).
Qed.

(** A map of states that carries every transition of [a] to a transition of
    [U] carries the paths of [a] to paths of [U]. *)
Lemma reaches_embed (a U : NFA.t) (f : Z → Z) (q q' : Z) (w : list ascii) :
  (∀ t, t ∈ transitions a →
        mkTransition (f (fromState t)) (f (toState t)) (symbol t) ∈ transitions U) →
  reaches a q w q' → reaches U (f q) w (f q').
Proof.
  intros H. induction 1 as [|? ? ? ? (t & Ht & <- & He & <-) _ IH|? ? ? ? ? Hc Ht _ IH].
  - constructor.
  - eapply reaches_eps; [|exact IH].
    exists (mkTransition (f (fromState t)) (f (toState t)) (symbol t)).
    split; [by apply H|done].
  - eapply reaches_char; [done| |exact IH]. by apply (H _ Ht).
Qed.

(** A state that no transition leaves is where a path from it ends. *)
Lemma reaches_stuck (U : NFA.t) (e q' : Z) (w : list ascii) :
  (∀ t, t ∈ transitions U → fromState t ≠ e) →
  reaches U e w q' → w = [] ∧ q' = e.
Proof.
  intros H. destruct 1 as [|? ? ? ? (t & Ht & Hf & _) _|? ? ? ? ? _ Ht _]; [done| |].
  - by destruct (H t Ht).
  - by destruct (H _ Ht).
Qed.

(** Paths of [U] that start in the copy of [a]: as long as every transition
    that leaves the copy is either the copy of a transition of [a] or an
    epsilon transition from the copy of a state in [X] to a state in [E], a
    path either stays in the copy and is the copy of a path of [a], or is
    such a copy up to a state in [X], followed by a path from a state in
    [E]. *)
Lemma reaches_region (a U : NFA.t) (f : Z → Z) (X E : Z → Prop) :
  (∀ t x, t ∈ transitions U → inRange a x → fromState t = f x →
          (∃ y, inRange a y ∧ toState t = f y
                ∧ mkTransition x y (symbol t) ∈ transitions a)
          ∨ (symbol t = epsilon ∧ X x ∧ E (toState t))) →
  ∀ q w q', reaches U q w q' → ∀ x, inRange a x → q = f x →
    (∃ y, inRange a y ∧ q' = f y ∧ reaches a x w y)
    ∨ (∃ w1 w2 y e, w = w1 ++ w2 ∧ reaches a x w1 y ∧ X y ∧ E e ∧ reaches U e w2 q').
Proof.
  intros H q w q'.
  induction 1 as [q|q q1 w q2 (t & Ht & Hfrom & Hsym & Hto) Hrest IH
                  |q c q1 w q2 Hc Ht Hrest IH]; intros x Hx ->.
  - left. exists x. split; [done|]. split; [done|constructor].
  - destruct (H t x Ht Hx Hfrom) as [(y & Hy & Hty & Hin)|(_ & HX & HE)].
    + assert (Hstep : epsStep a x y).
      { exists (mkTransition x y (symbol t)). by rewrite Hsym in *. }
      destruct (IH y Hy) as [(y' & Hy' & -> & Hpath)|(w1 & w2 & y' & e & -> & Hp & ? & ? & ?)];
        [congruence| |].
      * left. exists y'. split; [done|]. split; [done|]. by eapply reaches_eps.
      * right. exists w1, w2, y', e. split; [done|]. split; [|done].
        by eapply reaches_eps.
    + right. exists [], w, x, q1. rewrite Hto in HE. split; [done|].
      split; [constructor|done].
  - destruct (H _ x Ht Hx eq_refl) as [(y & Hy & Hty & Hin)|(Hsym & _)]; [|done].
    cbn in Hty, Hin.
    destruct (IH y Hy Hty) as [(y' & Hy' & -> & Hpath)|(w1 & w2 & y' & e & -> & Hp & ? & ? & ?)].
    * left. exists y'. split; [done|]. split; [done|]. by eapply reaches_char.
    * right. exists (c :: w1), w2, y', e. split; [done|]. split; [|done].
      by eapply reaches_char.
Qed.

End Paths.

Section SymbolLanguage.
Import NFA.

(** The automaton of a character accepts that character and nothing else.
    (For the NUL character the one transition is an epsilon transition, and
    the automaton accepts the empty string instead.) *)
Theorem fromSymbol_language (c : ascii) (w : string) :
  c ≠ epsilon → (nfaAccepts (fromSymbol c) w ↔ chars w = [c]).
Proof.
  intros Hc. unfold nfaAccepts. cbn [startState acceptingStates fromSymbol setStateCounter
    setStartState addTransition addState new].
  assert (Hts : transitions (fromSymbol c) = [mkTransition 0 1 c]) by done.
  assert (Hstuck : ∀ t, t ∈ transitions (fromSymbol c) → fromState t ≠ 1).
  { intros t Ht. rewrite Hts in Ht. by apply list_elem_of_singleton in Ht as ->. }
  split.
  - intros (q & Hq & Hreach).
    assert (q = 1) as -> by set_solver.
    inversion Hreach as [|? ? ? ? (t & Ht & Hf & He & Hto) Hrest|? ? ? ? ? Hne Ht Hrest]; subst.
    + rewrite Hts in Ht. apply list_elem_of_singleton in Ht as ->. by cbn in He.
    + rewrite Hts in Ht. apply list_elem_of_singleton in Ht. injection Ht as -> ->.
      by destruct (reaches_stuck _ _ _ _ Hstuck Hrest) as [-> _].
  - intros ->. exists 1. split; [set_solver|].
    eapply reaches_char; [done| |constructor]. rewrite Hts. set_solver.
Qed.

Lemma fromSymbol_language_witness :
  "a"%char ≠ epsilon
  ∧ (nfaAccepts (fromSymbol "a"%char) "a" ↔ chars "a" = ["a"%char]).
Proof.
  assert (H : "a"%char ≠ epsilon) by discriminate.
  split; [exact H|]. exact (fromSymbol_language "a"%char "a" H).
Defined.

End SymbolLanguage.

Section UnionLanguage.
Import NFA.

Variables nfa1 nfa2 : NFA.t.
Hypothesis W1 : wellFormed nfa1.
Hypothesis W2 : wellFormed nfa2.

Local Notation "'k1'" := (Z.of_nat (length (states nfa1))) (only parsing).
Local Notation "'k2'" := (Z.of_nat (length (states nfa2))) (only parsing).

Lemma union_op_transition (t : Transition) :
  t ∈ transitions (union_op nfa1 nfa2)
  ↔ t = mkTransition 0 (startState nfa1 + 1) epsilon
    ∨ t = mkTransition 0 (startState nfa2 + (1 + k1)) epsilon
    ∨ (∃ t', t' ∈ transitions nfa1
             ∧ t = mkTransition (fromState t' + 1) (toState t' + 1) (symbol t'))
    ∨ (∃ t', t' ∈ transitions nfa2
             ∧ t = mkTransition (fromState t' + (1 + k1)) (toState t' + (1 + k1)) (symbol t'))
    ∨ (∃ x, x ∈ acceptingStates nfa1 ∧ t = mkTransition (x + 1) (1 + k1 + k2) epsilon)
    ∨ (∃ x, x ∈ acceptingStates nfa2
            ∧ t = mkTransition (x + (1 + k1)) (1 + k1 + k2) epsilon).
Proof.
  destruct (union_op_fields nfa1 nfa2) as (_ & -> & _ & _).
  rewrite !elem_of_cons, !elem_of_app, !list_elem_of_fmap.
  setoid_rewrite elem_of_ascending. naive_solver.
Qed.

Lemma union_op_range1 (t : Transition) :
  t ∈ transitions nfa1 → 0 ≤ fromState t < k1 ∧ 0 ≤ toState t < k1.
Proof.
  intros Ht. pose proof (wf_transitions _ W1) as H. rewrite Forall_forall in H.
  apply (H t Ht).
Qed.

Lemma union_op_range2 (t : Transition) :
  t ∈ transitions nfa2 → 0 ≤ fromState t < k2 ∧ 0 ≤ toState t < k2.
Proof.
  intros Ht. pose proof (wf_transitions _ W2) as H. rewrite Forall_forall in H.
  apply (H t Ht).
Qed.

Lemma union_op_final_stuck (t : Transition) :
  t ∈ transitions (union_op nfa1 nfa2) → fromState t ≠ 1 + k1 + k2.
Proof.
  intros Ht. apply union_op_transition in Ht
    as [->|[->|[(t' & Ht' & ->)|[(t' & Ht' & ->)|[(x & Hx & ->)|(x & Hx & ->)]]]]];
    cbn.
  - lia.
  - lia.
  - apply union_op_range1 in Ht'. lia.
  - apply union_op_range2 in Ht'. lia.
  - apply (wellFormed_accepting_inRange _ _ W1) in Hx. unfold inRange in Hx. lia.
  - apply (wellFormed_accepting_inRange _ _ W2) in Hx. unfold inRange in Hx. lia.
Qed.

Lemma union_op_region1 (t : Transition) (x : Z) :
  t ∈ transitions (union_op nfa1 nfa2) → inRange nfa1 x → fromState t = x + 1 →
  (∃ y, inRange nfa1 y ∧ toState t = y + 1
        ∧ mkTransition x y (symbol t) ∈ transitions nfa1)
  ∨ (symbol t = epsilon ∧ x ∈ acceptingStates nfa1 ∧ toState t = 1 + k1 + k2).
Proof.
  unfold inRange.
  intros Ht Hx Hfrom. apply union_op_transition in Ht
    as [->|[->|[(t' & Ht' & ->)|[(t' & Ht' & ->)|[(x' & Hx' & ->)|(x' & Hx' & ->)]]]]];
    cbn in *.
  - lia.
  - lia.
  - left. exists (toState t'). pose proof (union_op_range1 _ Ht').
    split; [unfold inRange; lia|]. split; [done|].
    replace x with (fromState t') by lia. by rewrite transition_eta.
  - apply union_op_range2 in Ht'. lia.
  - right. replace x with x' by lia. done.
  - apply (wellFormed_accepting_inRange _ _ W2) in Hx'. unfold inRange in Hx'. lia.
Qed.

Lemma union_op_region2 (t : Transition) (x : Z) :
  t ∈ transitions (union_op nfa1 nfa2) → inRange nfa2 x → fromState t = x + (1 + k1) →
  (∃ y, inRange nfa2 y ∧ toState t = y + (1 + k1)
        ∧ mkTransition x y (symbol t) ∈ transitions nfa2)
  ∨ (symbol t = epsilon ∧ x ∈ acceptingStates nfa2 ∧ toState t = 1 + k1 + k2).
Proof.
  unfold inRange.
  intros Ht Hx Hfrom. apply union_op_transition in Ht
    as [->|[->|[(t' & Ht' & ->)|[(t' & Ht' & ->)|[(x' & Hx' & ->)|(x' & Hx' & ->)]]]]];
    cbn in *.
  - lia.
  - lia.
  - apply union_op_range1 in Ht'. lia.
  - left. exists (toState t'). pose proof (union_op_range2 _ Ht').
    split; [unfold inRange; lia|]. split; [done|].
    replace x with (fromState t') by lia. by rewrite transition_eta.
  - apply (wellFormed_accepting_inRange _ _ W1) in Hx'. unfold inRange in Hx'. lia.
  - right. replace x with x' by lia. done.
Qed.

Lemma union_op_accepts_chars (l : list ascii) :
  nfaAcceptsChars (union_op nfa1 nfa2) l
  ↔ nfaAcceptsChars nfa1 l ∨ nfaAcceptsChars nfa2 l.
Proof.
  unfold nfaAcceptsChars.
  destruct (union_op_fields nfa1 nfa2) as (_ & _ & -> & ->).
  pose proof (wf_start _ W1) as Hs1. pose proof (wf_start _ W2) as Hs2.
  split.
  - intros (q & ->%elem_of_singleton & Hreach).
    assert (Hfirst : reaches (union_op nfa1 nfa2) (startState nfa1 + 1) l (1 + k1 + k2)
                     ∨ reaches (union_op nfa1 nfa2) (startState nfa2 + (1 + k1)) l
                         (1 + k1 + k2)).
    { inversion Hreach as [|? ? ? ? (t & Ht & Hf & He & Hto) Hrest|? ? ? ? ? Hne Ht Hrest];
        subst.
      - lia.
      - apply union_op_transition in Ht
          as [->|[->|[(t' & Ht' & ->)|[(t' & Ht' & ->)|[(x & Hx & ->)|(x & Hx & ->)]]]]];
          cbn in *.
        + by left.
        + by right.
        + apply union_op_range1 in Ht'. lia.
        + apply union_op_range2 in Ht'. lia.
        + apply (wellFormed_accepting_inRange _ _ W1) in Hx. unfold inRange in Hx. lia.
        + apply (wellFormed_accepting_inRange _ _ W2) in Hx. unfold inRange in Hx. lia.
      - apply union_op_transition in Ht
          as [Ht|[Ht|[(t' & Ht' & Ht)|[(t' & Ht' & Ht)|[(x & Hx & Ht)|(x & Hx & Ht)]]]]];
          simplify_eq/=; try done;
          first [apply union_op_range1 in Ht'; lia|apply union_op_range2 in Ht'; lia]. }
    destruct Hfirst as [Hpath|Hpath].
    + left.
      destruct (reaches_region nfa1 (union_op nfa1 nfa2) (λ x, x + 1)
                  (λ x, x ∈ acceptingStates nfa1) (λ e, e = 1 + k1 + k2)
                  union_op_region1 _ _ _ Hpath (startState nfa1) Hs1 eq_refl)
        as [(y & Hy & Heq & _)|(w1 & w2 & y & e & -> & Hp & Hacc & -> & Hrest)].
      * unfold inRange in Hy. lia.
      * destruct (reaches_stuck _ _ _ _ union_op_final_stuck Hrest) as [-> _].
        exists y. by rewrite app_nil_r.
    + right.
      destruct (reaches_region nfa2 (union_op nfa1 nfa2) (λ x, x + (1 + k1))
                  (λ x, x ∈ acceptingStates nfa2) (λ e, e = 1 + k1 + k2)
                  union_op_region2 _ _ _ Hpath (startState nfa2) Hs2 eq_refl)
        as [(y & Hy & Heq & _)|(w1 & w2 & y & e & -> & Hp & Hacc & -> & Hrest)].
      * unfold inRange in Hy. lia.
      * destruct (reaches_stuck _ _ _ _ union_op_final_stuck Hrest) as [-> _].
        exists y. by rewrite app_nil_r.
  - intros [(q & Hq & Hreach)|(q & Hq & Hreach)]; exists (1 + k1 + k2);
      (split; [set_solver|]).
    + eapply reaches_eps.
      { exists (mkTransition 0 (startState nfa1 + 1) epsilon).
        split; [apply union_op_transition; by left|done]. }
      cbn. eapply reaches_eps_last.
      * apply (reaches_embed nfa1 _ (λ x, x + 1)); [|exact Hreach].
        intros t Ht. apply union_op_transition. right; right; left. by exists t.
      * apply union_op_transition. do 4 right. left. by exists q.
    + eapply reaches_eps.
      { exists (mkTransition 0 (startState nfa2 + (1 + k1)) epsilon).
        split; [apply union_op_transition; right; by left|done]. }
      cbn. eapply reaches_eps_last.
      * apply (reaches_embed nfa2 _ (λ x, x + (1 + k1))); [|exact Hreach].
        intros t Ht. apply union_op_transition. right; right; right; left. by exists t.
      * apply union_op_transition. do 5 right. by exists q.
Qed.

End UnionLanguage.

(** The union of two well-formed automata accepts a string exactly when one
    of the two accepts it. *)
Theorem union_op_language (nfa1 nfa2 : NFA.t) (w : string) :
  wellFormed nfa1 → wellFormed nfa2 →
  (nfaAccepts (NFA.union_op nfa1 nfa2) w ↔ nfaAccepts nfa1 w ∨ nfaAccepts nfa2 w).
Proof. intros W1 W2. apply (union_op_accepts_chars nfa1 nfa2 W1 W2). Qed.

Lemma union_op_language_witness :
  wellFormed (NFA.fromSymbol "a"%char) ∧ wellFormed (NFA.fromSymbol "b"%char)
  ∧ (nfaAccepts (NFA.union_op (NFA.fromSymbol "a"%char) (NFA.fromSymbol "b"%char)) "b"
     ↔ nfaAccepts (NFA.fromSymbol "a"%char) "b" ∨ nfaAccepts (NFA.fromSymbol "b"%char) "b").
Proof.
  split; [apply fromSymbol_wellFormed|]. split; [apply fromSymbol_wellFormed|].
  exact (union_op_language _ _ "b" (fromSymbol_wellFormed "a"%char)
           (fromSymbol_wellFormed "b"%char)).
Defined.

Section ConcatLanguage.
Import NFA.

Variables nfa1 nfa2 : NFA.t.
Hypothesis W1 : wellFormed nfa1.
Hypothesis W2 : wellFormed nfa2.

Local Notation "'k1'" := (Z.of_nat (length (states nfa1))) (only parsing).
Local Notation "'k2'" := (Z.of_nat (length (states nfa2))) (only parsing).

Lemma concatenate_transition (t : Transition) :
  t ∈ transitions (concatenate nfa1 nfa2)
  ↔ (∃ t', t' ∈ transitions nfa1
           ∧ t = mkTransition (fromState t' + 0) (toState t' + 0) (symbol t'))
    ∨ (∃ x, x ∈ acceptingStates nfa1
            ∧ t = mkTransition (x + 0) (startState nfa2 + k1) epsilon)
    ∨ (∃ t', t' ∈ transitions nfa2
             ∧ t = mkTransition (fromState t' + k1) (toState t' + k1) (symbol t')).
Proof.
  destruct (concatenate_fields nfa1 nfa2) as (_ & -> & _ & _).
  rewrite !elem_of_app, !list_elem_of_fmap.
  setoid_rewrite elem_of_ascending. naive_solver.
Qed.

Lemma concatenate_accepting (q : Z) :
  q ∈ acceptingStates (concatenate nfa1 nfa2)
  ↔ ∃ y, y ∈ acceptingStates nfa2 ∧ q = y + k1.
Proof.
  destruct (concatenate_fields nfa1 nfa2) as (_ & _ & _ & Hacc & _). rewrite Hacc. split.
  - intros (s & Hs & Hflag & ->). exists (id s). split; [|done].
    apply (wf_accepting _ W2). by exists s.
  - intros (y & (s & Hs & <- & Hflag)%(wf_accepting _ W2) & ->). by exists s.
Qed.

Lemma concatenate_region1 (t : Transition) (x : Z) :
  t ∈ transitions (concatenate nfa1 nfa2) → inRange nfa1 x → fromState t = x + 0 →
  (∃ y, inRange nfa1 y ∧ toState t = y + 0
        ∧ mkTransition x y (symbol t) ∈ transitions nfa1)
  ∨ (symbol t = epsilon ∧ x ∈ acceptingStates nfa1 ∧ toState t = startState nfa2 + k1).
Proof.
  unfold inRange.
  intros [(t' & Ht' & ->)|[(x' & Hx' & ->)|(t' & Ht' & ->)]]%concatenate_transition
    Hx Hfrom; cbn in *.
  - left. exists (toState t'). pose proof (union_op_range1 nfa1 W1 _ Ht').
    split; [unfold inRange; lia|]. split; [done|].
    replace x with (fromState t') by lia. by rewrite transition_eta.
  - right. replace x with x' by lia. done.
  - apply (union_op_range2 nfa2 W2) in Ht'. lia.
Qed.

Lemma concatenate_region2 (t : Transition) (x : Z) :
  t ∈ transitions (concatenate nfa1 nfa2) → inRange nfa2 x → fromState t = x + k1 →
  (∃ y, inRange nfa2 y ∧ toState t = y + k1
        ∧ mkTransition x y (symbol t) ∈ transitions nfa2)
  ∨ (symbol t = epsilon ∧ False ∧ False).
Proof.
  unfold inRange.
  intros [(t' & Ht' & ->)|[(x' & Hx' & ->)|(t' & Ht' & ->)]]%concatenate_transition
    Hx Hfrom; cbn in *.
  - apply (union_op_range1 nfa1 W1) in Ht'. lia.
  - apply (wellFormed_accepting_inRange _ _ W1) in Hx'. unfold inRange in Hx'. lia.
  - left. exists (toState t'). pose proof (union_op_range2 nfa2 W2 _ Ht').
    split; [unfold inRange; lia|]. split; [done|].
    replace x with (fromState t') by lia. by rewrite transition_eta.
Qed.

Lemma concatenate_accepts_chars (l : list ascii) :
  nfaAcceptsChars (concatenate nfa1 nfa2) l
  ↔ ∃ l1 l2, l = l1 ++ l2 ∧ nfaAcceptsChars nfa1 l1 ∧ nfaAcceptsChars nfa2 l2.
Proof.
  unfold nfaAcceptsChars.
  destruct (concatenate_fields nfa1 nfa2) as (_ & _ & -> & _ & _).
  pose proof (wf_start _ W1) as Hs1. pose proof (wf_start _ W2) as Hs2.
  split.
  - intros (q & (yq & Hyq & ->)%concatenate_accepting & Hreach).
    pose proof (wellFormed_accepting_inRange _ _ W2 Hyq) as Hrq. unfold inRange in Hrq.
    destruct (reaches_region nfa1 (concatenate nfa1 nfa2) (λ x, x + 0)
                (λ x, x ∈ acceptingStates nfa1) (λ e, e = startState nfa2 + k1)
                concatenate_region1 _ _ _ Hreach (startState nfa1) Hs1
                (eq_sym (Z.add_0_r _)))
      as [(y & Hy & Heq & _)|(w1 & w2 & y & e & -> & Hp & Hacc & -> & Hrest)].
    { unfold inRange in Hy. lia. }
    exists w1, w2. split; [done|]. split; [by exists y|].
    destruct (reaches_region nfa2 (concatenate nfa1 nfa2) (λ x, x + k1)
                (λ _, False) (λ _, False)
                concatenate_region2 _ _ _ Hrest (startState nfa2) Hs2 eq_refl)
      as [(y' & Hy' & Heq & Hpath)|(? & ? & ? & ? & _ & _ & [] & _)].
    assert (y' = yq) as -> by lia. by exists yq.
  - intros (l1 & l2 & -> & (q1 & Hq1 & Hr1) & (q2 & Hq2 & Hr2)).
    exists (q2 + k1). split; [apply concatenate_accepting; by exists q2|].
    rewrite <- (Z.add_0_r (startState nfa1)).
    eapply reaches_app.
    + eapply reaches_eps_last.
      * apply (reaches_embed nfa1 _ (λ x, x + 0)); [|exact Hr1].
        intros t Ht. apply concatenate_transition. left. by exists t.
      * apply concatenate_transition. right; left. by exists q1.
    + apply (reaches_embed nfa2 _ (λ x, x + k1)); [|exact Hr2].
      intros t Ht. apply concatenate_transition. right; right. by exists t.
Qed.

End ConcatLanguage.

(** The concatenation of two well-formed automata accepts exactly the
    strings that split into a part the first accepts followed by a part the
    second accepts. *)
Theorem concatenate_language (nfa1 nfa2 : NFA.t) (w : string) :
  wellFormed nfa1 → wellFormed nfa2 →
  (nfaAccepts (NFA.concatenate nfa1 nfa2) w
   ↔ ∃ l1 l2, chars w = l1 ++ l2 ∧ nfaAcceptsChars nfa1 l1 ∧ nfaAcceptsChars nfa2 l2).
Proof. intros W1 W2. apply (concatenate_accepts_chars nfa1 nfa2 W1 W2). Qed.

Lemma concatenate_language_witness :
  wellFormed (NFA.fromSymbol "a"%char) ∧ wellFormed (NFA.fromSymbol "b"%char)
  ∧ (nfaAccepts (NFA.concatenate (NFA.fromSymbol "a"%char) (NFA.fromSymbol "b"%char)) "ab"
     ↔ ∃ l1 l2, chars "ab" = l1 ++ l2
                ∧ nfaAcceptsChars (NFA.fromSymbol "a"%char) l1
                ∧ nfaAcceptsChars (NFA.fromSymbol "b"%char) l2).
Proof.
  split; [apply fromSymbol_wellFormed|]. split; [apply fromSymbol_wellFormed|].
  exact (concatenate_language _ _ "ab" (fromSymbol_wellFormed "a"%char)
           (fromSymbol_wellFormed "b"%char)).
Defined.

Section StarLanguage.
Import NFA.

Variable nfa : NFA.t.
Hypothesis W : wellFormed nfa.

Local Notation "'k'" := (Z.of_nat (length (states nfa))) (only parsing).

Lemma kleeneStar_transition (t : Transition) :
  t ∈ transitions (kleeneStar nfa)
  ↔ t = mkTransition 0 (startState nfa + 1) epsilon
    ∨ t = mkTransition 0 (1 + k) epsilon
    ∨ (∃ t', t' ∈ transitions nfa
             ∧ t = mkTransition (fromState t' + 1) (toState t' + 1) (symbol t'))
    ∨ (∃ x, x ∈ acceptingStates nfa
            ∧ (t = mkTransition (x + 1) (startState nfa + 1) epsilon
               ∨ t = mkTransition (x + 1) (1 + k) epsilon)).
Proof.
  destruct (kleeneStar_fields nfa) as (_ & -> & _ & _).
  rewrite !elem_of_cons, !elem_of_app, !list_elem_of_fmap, elem_of_flat_map.
  setoid_rewrite elem_of_ascending. setoid_rewrite elem_of_cons.
  setoid_rewrite list_elem_of_singleton. naive_solver.
Qed.

Lemma kleeneStar_final_stuck (t : Transition) :
  t ∈ transitions (kleeneStar nfa) → fromState t ≠ 1 + k.
Proof.
  intros [->|[->|[(t' & Ht' & ->)|(x & Hx & [->| ->])]]]%kleeneStar_transition; cbn;
    try lia.
  - apply (union_op_range1 nfa W) in Ht'. lia.
  - apply (wellFormed_accepting_inRange _ _ W) in Hx. unfold inRange in Hx. lia.
  - apply (wellFormed_accepting_inRange _ _ W) in Hx. unfold inRange in Hx. lia.
Qed.

Lemma kleeneStar_region (t : Transition) (x : Z) :
  t ∈ transitions (kleeneStar nfa) → inRange nfa x → fromState t = x + 1 →
  (∃ y, inRange nfa y ∧ toState t = y + 1
        ∧ mkTransition x y (symbol t) ∈ transitions nfa)
  ∨ (symbol t = epsilon ∧ x ∈ acceptingStates nfa
     ∧ (toState t = startState nfa + 1 ∨ toState t = 1 + k)).
Proof.
  unfold inRange.
  intros [->|[->|[(t' & Ht' & ->)|(x' & Hx' & [->| ->])]]]%kleeneStar_transition
    Hx Hfrom; cbn in *; try lia.
  - left. exists (toState t'). pose proof (union_op_range1 nfa W _ Ht').
    split; [unfold inRange; lia|]. split; [done|].
    replace x with (fromState t') by lia. by rewrite transition_eta.
  - right. replace x with x' by lia. split; [done|]. split; [done|by left].
  - right. replace x with x' by lia. split; [done|]. split; [done|by right].
Qed.

(** A path from the copy of a state to the new accepting state: the copy of
    an accepting path of the automaton, followed by accepted strings. *)
Lemma kleeneStar_paths (q q' : Z) (w : list ascii) :
  reaches (kleeneStar nfa) q w q' → q' = 1 + k →
  ∀ x, inRange nfa x → q = x + 1 →
  ∃ w0 ls y, w = w0 ++ concat ls ∧ y ∈ acceptingStates nfa ∧ reaches nfa x w0 y
             ∧ Forall (nfaAcceptsChars nfa) ls.
Proof.
  induction 1 as [q|q q1 w q2 (t & Ht & Hfrom & Hsym & Hto) Hrest IH
                  |q c q1 w q2 Hc Ht Hrest IH]; intros Hfin x Hx Hq.
  - unfold inRange in Hx. lia.
  - destruct (kleeneStar_region t x Ht Hx (eq_trans Hfrom Hq))
      as [(y & Hy & Hty & Hin)|(_ & Hacc & [Hloop|Hend])].
    + destruct (IH Hfin y Hy) as (w0 & ls & y' & -> & Hy' & Hpath & Hls); [congruence|].
      exists w0, ls, y'. split; [done|]. split; [done|]. split; [|done].
      eapply reaches_eps; [|done]. exists (mkTransition x y (symbol t)). by rewrite Hsym in *.
    + destruct (IH Hfin (startState nfa) (wf_start _ W))
        as (w0 & ls & y' & -> & Hy' & Hpath & Hls); [congruence|].
      exists [], (w0 :: ls), x. split; [done|]. split; [done|]. split; [constructor|].
      constructor; [by exists y'|done].
    + rewrite Hto in Hend. rewrite Hend in Hrest.
      destruct (reaches_stuck _ _ _ _ kleeneStar_final_stuck Hrest) as [-> _].
      exists [], [], x. split; [done|]. split; [done|]. split; constructor.
  - destruct (kleeneStar_region _ x Ht Hx Hq)
      as [(y & Hy & Hty & Hin)|(Hsym & _)]; [|done].
    cbn in Hty, Hin.
    destruct (IH Hfin y Hy Hty) as (w0 & ls & y' & -> & Hy' & Hpath & Hls).
    exists (c :: w0), ls, y'. split; [done|]. split; [done|]. split; [|done].
    by eapply reaches_char.
Qed.

Lemma kleeneStar_repeat (ls : list (list ascii)) (q : Z) :
  q ∈ acceptingStates nfa → Forall (nfaAcceptsChars nfa) ls →
  reaches (kleeneStar nfa) (q + 1) (concat ls) (1 + k).
Proof.
  intros Hq Hls; revert q Hq; induction Hls as [|l ls (q' & Hq' & Hpath) _ IH]; intros q Hq.
  - cbn. eapply reaches_eps; [|constructor].
    exists (mkTransition (q + 1) (1 + k) epsilon).
    split; [|done]. apply kleeneStar_transition. do 3 right. exists q. split; [done|by right].
  - cbn. eapply reaches_eps.
    { exists (mkTransition (q + 1) (startState nfa + 1) epsilon).
      split; [|done]. apply kleeneStar_transition. do 3 right. exists q.
      split; [done|by left]. }
    cbn. eapply reaches_app; [|apply (IH q' Hq')].
    apply (reaches_embed nfa _ (λ x, x + 1)); [|exact Hpath].
    intros t Ht. apply kleeneStar_transition. right; right; left. by exists t.
Qed.

Lemma kleeneStar_accepts_chars (l : list ascii) :
  nfaAcceptsChars (kleeneStar nfa) l
  ↔ ∃ ls, l = concat ls ∧ Forall (nfaAcceptsChars nfa) ls.
Proof.
  unfold nfaAcceptsChars at 1.
  destruct (kleeneStar_fields nfa) as (_ & _ & -> & -> & _).
  split.
  - intros (q & ->%elem_of_singleton & Hreach).
    inversion Hreach as [|? ? ? ? (t & Ht & Hf & He & Hto) Hrest|? ? ? ? ? Hne Ht Hrest]; subst.
    + lia.
    + apply kleeneStar_transition in Ht
        as [->|[->|[(t' & Ht' & ->)|(x & Hx & [->| ->])]]]; cbn in *.
      * destruct (kleeneStar_paths _ _ _ Hrest eq_refl (startState nfa) (wf_start _ W) eq_refl)
          as (w0 & ls & y & -> & Hy & Hpath & Hls).
        exists (w0 :: ls). split; [done|]. constructor; [by exists y|done].
      * destruct (reaches_stuck _ _ _ _ kleeneStar_final_stuck Hrest) as [-> _].
        by exists [].
      * apply (union_op_range1 nfa W) in Ht'. lia.
      * apply (wellFormed_accepting_inRange _ _ W) in Hx. unfold inRange in Hx. lia.
      * apply (wellFormed_accepting_inRange _ _ W) in Hx. unfold inRange in Hx. lia.
    + apply kleeneStar_transition in Ht
        as [Ht|[Ht|[(t' & Ht' & Ht)|(x & Hx & [Ht|Ht])]]]; simplify_eq/=; try done.
      apply (union_op_range1 nfa W) in Ht'. lia.
  - intros (ls & -> & Hls). exists (1 + k). split; [set_solver|].
    destruct Hls as [|l ls (q & Hq & Hpath) Hls].
    + cbn. eapply reaches_eps; [|constructor].
      exists (mkTransition 0 (1 + k) epsilon).
      split; [|done]. apply kleeneStar_transition. right; by left.
    + cbn. eapply reaches_eps.
      { exists (mkTransition 0 (startState nfa + 1) epsilon).
        split; [|done]. apply kleeneStar_transition. by left. }
      cbn. eapply reaches_app; [|apply (kleeneStar_repeat ls q Hq Hls)].
      apply (reaches_embed nfa _ (λ x, x + 1)); [|exact Hpath].
      intros t Ht. apply kleeneStar_transition. right; right; left. by exists t.
Qed.

End StarLanguage.

(** The star of a well-formed automaton accepts exactly the concatenations of
    strings that the automaton accepts, the empty concatenation included. *)
Theorem kleeneStar_language (nfa : NFA.t) (w : string) :
  wellFormed nfa →
  (nfaAccepts (NFA.kleeneStar nfa) w
   ↔ ∃ ls, chars w = concat ls ∧ Forall (nfaAcceptsChars nfa) ls)
  ∧ nfaAccepts (NFA.kleeneStar nfa) "".
Proof.
  intros W. split; [apply (kleeneStar_accepts_chars nfa W)|].
  apply (kleeneStar_accepts_chars nfa W). by exists [].
Qed.

Lemma kleeneStar_language_witness :
  wellFormed (NFA.fromSymbol "a"%char)
  ∧ (nfaAccepts (NFA.kleeneStar (NFA.fromSymbol "a"%char)) "aa"
     ↔ ∃ ls, chars "aa" = concat ls
             ∧ Forall (nfaAcceptsChars (NFA.fromSymbol "a"%char)) ls)
  ∧ nfaAccepts (NFA.kleeneStar (NFA.fromSymbol "a"%char)) "".
Proof.
  split; [apply fromSymbol_wellFormed|].
  exact (kleeneStar_language _ "aa" (fromSymbol_wellFormed "a"%char)).
Defined.

(** ** A union with the automaton without states *)

Section UnionEmpty.
Import NFA.

Variable nfa1 : NFA.t.
Hypothesis W1 : wellFormed nfa1.

Local Notation "'k1'" := (Z.of_nat (length (states nfa1))) (only parsing).

(** The second epsilon transition of the new start state is meant for the
    start state of the second operand; with no state there, what it reaches
    is the new accepting state. *)
Lemma union_op_new_transition (t : Transition) :
  t ∈ transitions (union_op nfa1 NFA.new)
  ↔ t = mkTransition 0 (startState nfa1 + 1) epsilon
    ∨ t = mkTransition 0 (1 + k1) epsilon
    ∨ (∃ t', t' ∈ transitions nfa1
             ∧ t = mkTransition (fromState t' + 1) (toState t' + 1) (symbol t'))
    ∨ (∃ x, x ∈ acceptingStates nfa1 ∧ t = mkTransition (x + 1) (1 + k1) epsilon).
Proof.
  rewrite union_op_transition. cbn [NFA.new startState states transitions acceptingStates length].
  rewrite !Z.add_0_r, !Z.add_0_l. split.
  - intros [?|[?|[?|[(t' & Ht' & _)|[?|(x & Hx & _)]]]]]; auto.
    + by apply elem_of_nil in Ht'.
    + by apply elem_of_empty in Hx.
  - intros [?|[?|[?|?]]]; auto 10.
Qed.

Lemma union_op_new_final_stuck (t : Transition) :
  t ∈ transitions (union_op nfa1 NFA.new) → fromState t ≠ 1 + k1.
Proof.
  intros [->|[->|[(t' & Ht' & ->)|(x & Hx & ->)]]]%union_op_new_transition; cbn.
  - lia.
  - lia.
  - apply (union_op_range1 nfa1 W1) in Ht'. lia.
  - apply (wellFormed_accepting_inRange _ _ W1) in Hx. unfold inRange in Hx. lia.
Qed.

Lemma union_op_new_region (t : Transition) (x : Z) :
  t ∈ transitions (union_op nfa1 NFA.new) → inRange nfa1 x → fromState t = x + 1 →
  (∃ y, inRange nfa1 y ∧ toState t = y + 1
        ∧ mkTransition x y (symbol t) ∈ transitions nfa1)
  ∨ (symbol t = epsilon ∧ x ∈ acceptingStates nfa1 ∧ toState t = 1 + k1).
Proof.
  unfold inRange.
  intros [->|[->|[(t' & Ht' & ->)|(x' & Hx' & ->)]]]%union_op_new_transition
    Hx Hfrom; cbn in *.
  - lia.
  - lia.
  - left. exists (toState t'). pose proof (union_op_range1 nfa1 W1 _ Ht').
    split; [unfold inRange; lia|]. split; [done|].
    replace x with (fromState t') by lia. by rewrite transition_eta.
  - right. replace x with x' by lia. done.
Qed.

Lemma union_op_new_accepts_chars (l : list ascii) :
  nfaAcceptsChars (union_op nfa1 NFA.new) l ↔ nfaAcceptsChars nfa1 l ∨ l = [].
Proof.
  unfold nfaAcceptsChars.
  destruct (union_op_fields nfa1 NFA.new) as (_ & _ & -> & ->).
  cbn [NFA.new states length]. rewrite !Z.add_0_r.
  pose proof (wf_start _ W1) as Hs1.
  split.
  - intros (q & ->%elem_of_singleton & Hreach).
    inversion Hreach as [|? ? ? ? (t & Ht & Hf & He & Hto) Hrest|? ? ? ? ? Hne Ht Hrest];
      subst.
    + lia.
    + apply union_op_new_transition in Ht
        as [->|[->|[(t' & Ht' & ->)|(x & Hx & ->)]]]; cbn in *.
      * left.
        destruct (reaches_region nfa1 (union_op nfa1 NFA.new) (λ x, x + 1)
                    (λ x, x ∈ acceptingStates nfa1) (λ e, e = 1 + k1)
                    union_op_new_region _ _ _ Hrest (startState nfa1) Hs1 eq_refl)
          as [(y & Hy & Heq & _)|(w1 & w2 & y & e & -> & Hp & Hacc & -> & Hrest')].
        -- unfold inRange in Hy. lia.
        -- destruct (reaches_stuck _ _ _ _ union_op_new_final_stuck Hrest') as [-> _].
           exists y. by rewrite app_nil_r.
      * right. by destruct (reaches_stuck _ _ _ _ union_op_new_final_stuck Hrest) as [-> _].
      * apply (union_op_range1 nfa1 W1) in Ht'. lia.
      * apply (wellFormed_accepting_inRange _ _ W1) in Hx. unfold inRange in Hx. lia.
    + apply union_op_new_transition in Ht
        as [Ht|[Ht|[(t' & Ht' & Ht)|(x & Hx & Ht)]]]; simplify_eq/=; try done.
      apply (union_op_range1 nfa1 W1) in Ht'. lia.
  - intros [(q & Hq & Hreach)| ->]; exists (1 + k1); (split; [set_solver|]).
    + eapply reaches_eps.
      { exists (mkTransition 0 (startState nfa1 + 1) epsilon).
        split; [apply union_op_new_transition; by left|done]. }
      cbn. eapply reaches_eps_last.
      * apply (reaches_embed nfa1 _ (λ x, x + 1)); [|exact Hreach].
        intros t Ht. apply union_op_new_transition. right; right; left. by exists t.
      * apply union_op_new_transition. do 3 right. by exists q.
    + eapply reaches_eps; [|constructor].
      exists (mkTransition 0 (1 + k1) epsilon).
      split; [apply union_op_new_transition; right; by left|done].
Qed.

End UnionEmpty.

(** [union_op] with the automaton without states as its second operand, the
    automaton that [fromRegex] returns for a pattern such as [""], does not
    give the language of the first operand: the union accepts the empty
    string as well.  So the empty pattern, whose own automaton accepts
    nothing, makes [build] accept the empty string when another pattern
    comes before it. *)
Theorem union_op_without_states (nfa1 : NFA.t) (w : string) :
  wellFormed nfa1 →
  (nfaAccepts (NFA.union_op nfa1 NFA.new) w ↔ nfaAccepts nfa1 w ∨ w = ""%string).
Proof.
  intros W1. change (nfaAccepts ?n w) with (nfaAcceptsChars n (chars w)).
  rewrite (union_op_new_accepts_chars nfa1 W1).
  assert (chars w = [] ↔ w = ""%string) as ->; [|done].
  by destruct w.
Qed.

Lemma union_op_without_states_witness :
  wellFormed (NFA.fromSymbol "a")
  ∧ (nfaAccepts (NFA.union_op (NFA.fromSymbol "a") NFA.new) ""
     ↔ nfaAccepts (NFA.fromSymbol "a") "" ∨ ""%string = ""%string).
Proof.
  split; [apply fromSymbol_wellFormed|].
  exact (union_op_without_states (NFA.fromSymbol "a") "" (fromSymbol_wellFormed "a")).
Defined.

(** ** DFA::fromNFA *)

Section Alphabet.

Lemma elem_of_insertChar (c x : ascii) (l : list ascii) :
  x ∈ DFA.insertChar c l ↔ x = c ∨ x ∈ l.
Proof.
  induction l as [|y l IH]; cbn [DFA.insertChar]; [set_solver|].
  destruct (N_of_ascii c ?= N_of_ascii y)%N eqn:Hcmp.
  - apply (Ascii.compare_eq_iff c y) in Hcmp as ->. set_solver.
  - set_solver.
  - rewrite elem_of_cons, IH. set_solver.
Qed.

Lemma insertChar_sorted (c : ascii) (l : list ascii) :
  StronglySorted charLt l → StronglySorted charLt (DFA.insertChar c l).
Proof.
  induction 1 as [|y l Hl IH Hall]; cbn [DFA.insertChar]; [repeat constructor|].
  destruct (N_of_ascii c ?= N_of_ascii y)%N eqn:Hcmp.
  - by constructor.
  - rewrite N.compare_lt_iff in Hcmp. constructor; [by constructor|].
    constructor; [done|]. eapply Forall_impl; [exact Hall|].
    intros z Hz. unfold charLt in *. lia.
  - rewrite N.compare_gt_iff in Hcmp. constructor; [done|].
    apply Forall_forall. intros z [->|Hz]%elem_of_insertChar; [done|].
    rewrite Forall_forall in Hall. by apply Hall.
Qed.

Lemma sorted_chars_NoDup (l : list ascii) : StronglySorted charLt l → NoDup l.
Proof.
  induction 1 as [|y l Hl IH Hall]; constructor; [|done].
  intros Hin. rewrite Forall_forall in Hall. specialize (Hall y Hin).
  unfold charLt in Hall. lia.
Qed.

Lemma alphabet_spec (ts : list Transition) (acc : list ascii) :
  let alpha := foldl (λ a trans, if bool_decide (symbol trans ≠ epsilon)
                                 then DFA.insertChar (symbol trans) a else a) acc ts in
  (∀ c, c ∈ alpha ↔ c ∈ acc ∨ (c ≠ epsilon ∧ ∃ t, t ∈ ts ∧ symbol t = c))
  ∧ (StronglySorted charLt acc → StronglySorted charLt alpha).
Proof.
  revert acc; induction ts as [|t ts IH]; intros acc; cbn [foldl].
  { split; [|done]. intros c. split; [by left|].
    intros [?|(_ & t & Ht & _)]; [done|]. by apply elem_of_nil in Ht. }
  cbn zeta in IH.
  destruct (IH (if bool_decide (symbol t ≠ epsilon)
                then DFA.insertChar (symbol t) acc else acc)) as [I1 I2].
  split.
  - intros c. rewrite I1. case_bool_decide as Hs.
    + rewrite elem_of_insertChar. split.
      * intros [[->|?]|(Hc & t' & Ht' & Heq)]; [right|by left|right].
        -- split; [done|]. exists t. set_solver.
        -- split; [done|]. exists t'. set_solver.
      * intros [?|(Hc & t' & [->|Ht']%elem_of_cons & Heq)];
          [by left; right|left; left; done|right].
        split; [done|]. by exists t'.
    + split.
      * intros [?|(Hc & t' & Ht' & Heq)]; [by left|right].
        split; [done|]. exists t'. set_solver.
      * intros [?|(Hc & t' & [->|Ht']%elem_of_cons & Heq)]; [by left|congruence|right].
        split; [done|]. by exists t'.
  - intros Hacc. apply I2. case_bool_decide; [by apply insertChar_sorted|done].
Qed.

Lemma hasAccepting_spec (nfa : NFA.t) (T : gset Z) :
  DFA.hasAccepting nfa T = true ↔ ∃ q, q ∈ T ∧ q ∈ NFA.acceptingStates nfa.
Proof.
  unfold DFA.hasAccepting. rewrite existsb_exists. split.
  - intros (q & Hq & Hacc). exists q. apply list_elem_of_In, elem_of_ascending in Hq.
    by apply bool_decide_eq_true in Hacc.
  - intros (q & Hq & Hacc). exists q. split.
    + by apply list_elem_of_In, elem_of_ascending.
    + by apply bool_decide_eq_true.
Qed.

End Alphabet.

Section SubsetInvariant.

Variable nfa : NFA.t.
Variable alpha : list ascii.
Hypothesis alpha_NoDup : NoDup alpha.

Lemma pendingAt_head (cur : gset Z) (c : ascii) (post : list ascii)
    (rest : list (gset Z * list ascii)) (T : gset Z) (c' : ascii) :
  pendingAt ((cur, c :: post) :: rest) T c'
  ↔ (T = cur ∧ c' = c) ∨ pendingAt ((cur, post) :: rest) T c'.
Proof.
  unfold pendingAt. split.
  - intros (syms & [Heq|Hin]%elem_of_cons & Hc).
    + injection Heq as -> ->. apply elem_of_cons in Hc as [->|Hc]; [by left|].
      right. exists post. split; [by left|done].
    + right. exists syms. split; [by right|done].
  - intros [[-> ->]|(syms & [Heq|Hin]%elem_of_cons & Hc)].
    + exists (c :: post). split; [by left|by left].
    + injection Heq as -> ->. exists (c :: post). split; [by left|by right].
    + exists syms. split; [by right|done].
Qed.

Lemma pendingAt_app (pending extra : list (gset Z * list ascii)) (T : gset Z) (c : ascii) :
  pendingAt (pending ++ extra) T c ↔ pendingAt pending T c ∨ pendingAt extra T c.
Proof.
  unfold pendingAt. split.
  - intros (syms & [?|?]%elem_of_app & ?); [left|right]; by exists syms.
  - intros [(syms & ? & ?)|(syms & ? & ?)]; exists syms; (split; [|done]);
      apply elem_of_app; [by left|by right].
Qed.

Lemma pendingAt_cons_app (e : gset Z * list ascii) (rest extra : list (gset Z * list ascii))
    (T : gset Z) (c : ascii) :
  pendingAt (e :: rest ++ extra) T c ↔ pendingAt (e :: rest) T c ∨ pendingAt extra T c.
Proof. apply (pendingAt_app (e :: rest) extra). Qed.

Lemma not_pendingAt_head (cur : gset Z) (c : ascii) (post : list ascii)
    (rest : list (gset Z * list ascii)) :
  NoDup ((cur, c :: post) :: rest).*1 → NoDup (c :: post) →
  ¬ pendingAt ((cur, post) :: rest) cur c.
Proof.
  cbn. intros [Hcur _]%NoDup_cons [Hc _]%NoDup_cons (syms & [Heq|Hin]%elem_of_cons & Hin').
  - by injection Heq as ->.
  - apply Hcur. apply list_elem_of_fmap. by exists (cur, syms).
Qed.

Lemma target_closed (T : gset Z) (c : ascii) (a b : Z) :
  a ∈ target nfa T c → epsStep nfa a b → b ∈ target nfa T c.
Proof. apply epsilonClosure_saturated. Qed.

(** One character of the inner loop keeps the invariant. *)
Lemma subsetStep_inv (w : DFA.work) (cur : gset Z) (i : Z) (c : ascii) (post : list ascii) :
  subsetInv nfa alpha w ((cur, c :: post) :: queued alpha (DFA.unmarkedStates w)) →
  DFA.dfaStateMap w !! cur = Some i →
  let w' := DFA.subsetStep nfa cur i w c in
  subsetInv nfa alpha w' ((cur, post) :: queued alpha (DFA.unmarkedStates w'))
  ∧ (∀ T j, DFA.dfaStateMap w !! T = Some j → DFA.dfaStateMap w' !! T = Some j).
Proof.
  intros [[Hs1 Hs2] Hinj Hrange Hclosed Hacc Haccr Htrr Hdone Htodo Hpend Hnodup] Hcur.
  set (rest := queued alpha (DFA.unmarkedStates w)) in *.
  assert (Hc_alpha : c ∈ alpha).
  { destruct (Hpend cur (c :: post)) as (_ & _ & H); [by left|]. apply H. by left. }
  assert (Hpost : NoDup (c :: post)).
  { destruct (Hpend cur (c :: post)) as (_ & H & _); [by left|done]. }
  assert (Hnot : ¬ pendingAt ((cur, post) :: rest) cur c)
    by (by apply not_pendingAt_head).
  assert (Hpend' : ∀ T syms, (T, syms) ∈ (cur, post) :: rest →
            is_Some (DFA.dfaStateMap w !! T) ∧ NoDup syms ∧ ∀ c, c ∈ syms → c ∈ alpha).
  { intros T syms [Heq|Hin]%elem_of_cons.
    - injection Heq as -> ->. split; [by eexists|]. split.
      + by apply NoDup_cons in Hpost as [_ ?].
      + intros c' Hc'. destruct (Hpend cur (c :: post)) as (_ & _ & H); [by left|].
        apply H. by right.
    - apply Hpend. by right. }
  unfold DFA.subsetStep. fold (target nfa cur c).
  destruct (decide (target nfa cur c = ∅)) as [Hempty|Hne].
  { rewrite (bool_decide_eq_true_2 _ Hempty). cbn zeta. split; [|done]. fold rest. split; try done.
    - intros T i' c' HT Hc' Hnp.
      destruct (decide (T = cur ∧ c' = c)) as [[-> ->]|Hother].
      + assert (i' = i) as -> by congruence. left. split; [done|].
        apply (Htodo cur i c Hcur). left. apply pendingAt_head. by left.
      + apply Hdone; [done|done|]. rewrite pendingAt_head. tauto.
    - intros T i' c' HT [Hp|Hc']; apply (Htodo T i' c' HT); [left|by right].
      apply pendingAt_head. by right. }
  rewrite (bool_decide_eq_false_2 _ Hne).
  destruct (DFA.dfaStateMap w !! target nfa cur c) as [j|] eqn:Hlook.
  - (* the subset is known *)
    cbn zeta. rewrite Hlook. cbn [default DFA.dfaStateMap DFA.unmarkedStates
      DFA.dfaStateCounter DFA.dfa]. split; [|done]. fold rest.
    split; cbn [DFA.dfaStateMap DFA.dfa DFA.dfaStateCounter DFA.transitions DFA.addTransition
                DFA.acceptingStates DFA.startState]; try done.
    + intros i' c' j'. destruct (decide ((i, c) = (i', c'))) as [Heq|Hneq].
      * injection Heq as <- <-. intros _. by apply (Hrange cur).
      * rewrite lookup_insert_ne by done. apply Htrr.
    + intros T i' c' HT Hc' Hnp. unfold settled.
      cbn [DFA.dfaStateMap DFA.dfa DFA.transitions DFA.addTransition].
      destruct (decide (T = cur ∧ c' = c)) as [[-> ->]|Hother].
      * assert (i' = i) as -> by congruence. right. split; [done|]. exists j.
        split; [done|]. by rewrite lookup_insert_eq.
      * assert (Hkey : (i, c) ≠ (i', c')).
        { intros Heq. injection Heq as <- <-. apply Hother. split; [|done].
          by apply (Hinj T cur i). }
        rewrite lookup_insert_ne by done. apply Hdone; [done|done|].
        rewrite pendingAt_head. tauto.
    + intros T i' c' HT Hp.
      assert (Hkey : (i, c) ≠ (i', c')).
      { intros Heq. injection Heq as <- <-.
        assert (T = cur) as -> by (by apply (Hinj T cur i)).
        destruct Hp as [Hp|Hp]; [by apply Hnot|by apply Hp]. }
      rewrite lookup_insert_ne by done. apply (Htodo T i' c' HT).
      destruct Hp as [Hp|Hp]; [left|by right]. apply pendingAt_head. by right.
  - (* a new subset *)
    cbn zeta. cbn [DFA.dfaStateMap DFA.unmarkedStates DFA.dfaStateCounter DFA.dfa].
    rewrite lookup_insert_eq. cbn [default].
    set (k := DFA.dfaStateCounter w) in *.
    set (U := target nfa cur c) in *.
    set (d1 := DFA.addState k false (DFA.dfa w)).
    set (d2 := if DFA.hasAccepting nfa U then DFA.addAcceptingState k d1 else d1).
    assert (Htr2 : DFA.transitions d2 = DFA.transitions (DFA.dfa w)).
    { subst d2 d1. by destruct (DFA.hasAccepting nfa U). }
    assert (Hst2 : DFA.startState d2 = DFA.startState (DFA.dfa w)).
    { subst d2 d1. by destruct (DFA.hasAccepting nfa U). }
    assert (Hacc2 : ∀ s, s ∈ DFA.acceptingStates d2
                         ↔ s ∈ DFA.acceptingStates (DFA.dfa w)
                           ∨ (s = k ∧ DFA.hasAccepting nfa U = true)).
    { intros s. subst d2 d1. destruct (DFA.hasAccepting nfa U); cbn; set_solver. }
    assert (Hmono : ∀ T j, DFA.dfaStateMap w !! T = Some j
                           → <[U := k]> (DFA.dfaStateMap w) !! T = Some j).
    { intros T j HT. rewrite lookup_insert_ne; [done|]. intros <-. congruence. }
    split; [|done].
    unfold queued. rewrite fmap_app. cbn [fmap list_fmap]. fold (queued alpha (DFA.unmarkedStates w)).
    fold rest.
    split; cbn [DFA.dfaStateMap DFA.dfa DFA.dfaStateCounter DFA.transitions DFA.addTransition
                DFA.acceptingStates DFA.startState].
    + split; [by apply Hmono|congruence].
    + intros T T' i'. destruct (decide (T = U)) as [->|HT]; destruct (decide (T' = U)) as [->|HT'];
        rewrite ?lookup_insert_eq, ?lookup_insert_ne by done; try done.
      * intros [= <-] H'. apply Hrange in H'. lia.
      * intros H' [= <-]. apply Hrange in H'. lia.
      * apply Hinj.
    + intros T i'. destruct (decide (T = U)) as [->|HT];
        rewrite ?lookup_insert_eq, ?lookup_insert_ne by done.
      * intros [= <-]. pose proof (Hrange cur i Hcur). lia.
      * intros H'. apply Hrange in H'. lia.
    + intros T i'. destruct (decide (T = U)) as [->|HT];
        rewrite ?lookup_insert_eq, ?lookup_insert_ne by done.
      * intros _. apply target_closed.
      * apply Hclosed.
    + intros T i'. destruct (decide (T = U)) as [->|HT];
        rewrite ?lookup_insert_eq, ?lookup_insert_ne by done.
      * intros [= <-]. rewrite Hacc2. split; [|by right].
        intros [Hin|[_ ?]]; [|done]. apply Haccr in Hin. lia.
      * intros H'. rewrite Hacc2, <- (Hacc T i' H'). split; [|by left].
        intros [?|[-> _]]; [done|]. apply Hrange in H'. lia.
    + intros s [Hin|[-> _]]%Hacc2; [apply Haccr in Hin|pose proof (Hrange cur i Hcur)]; lia.
    + intros i' c' j'. rewrite Htr2. destruct (decide ((i, c) = (i', c'))) as [Heq|Hneq].
      * injection Heq as <- <-. intros _. pose proof (Hrange cur i Hcur). lia.
      * rewrite lookup_insert_ne by done. intros H'. apply Htrr in H'. lia.
    + intros T i' c' HT Hc' Hnp. unfold settled.
      cbn [DFA.dfaStateMap DFA.dfa DFA.transitions DFA.addTransition]. rewrite Htr2.
      rewrite pendingAt_cons_app in Hnp.
      assert (HTU : T ≠ U).
      { intros ->. apply Hnp. right. exists alpha. split; [by left|done]. }
      rewrite lookup_insert_ne in HT by done.
      destruct (decide (T = cur ∧ c' = c)) as [[-> ->]|Hother].
      * assert (i' = i) as -> by congruence. right. split; [done|]. exists k.
        fold U. by rewrite !lookup_insert_eq.
      * assert (Hkey : (i, c) ≠ (i', c')).
        { intros Heq. injection Heq as <- <-. apply Hother. split; [|done].
          by apply (Hinj T cur i). }
        rewrite lookup_insert_ne by done.
        destruct (Hdone T i' c' HT Hc') as [[H1 H2]|(H1 & j' & H2 & H3)].
        { rewrite pendingAt_head. tauto. }
        -- by left.
        -- right. split; [done|]. exists j'. split; [by apply Hmono|done].
    + intros T i' c' HT Hp. rewrite Htr2.
      destruct (decide (T = U)) as [->|HTU].
      * rewrite lookup_insert_eq in HT. injection HT as <-.
        assert (Hkey : (i, c) ≠ (k, c')).
        { intros Heq. injection Heq as -> _. pose proof (Hrange cur _ Hcur). lia. }
        rewrite lookup_insert_ne by done.
        destruct (DFA.transitions (DFA.dfa w) !! (k, c')) as [j'|] eqn:Hk; [|done].
        apply Htrr in Hk. lia.
      * rewrite lookup_insert_ne in HT by done.
        assert (Hp' : pendingAt ((cur, post) :: rest) T c' ∨ c' ∉ alpha).
        { destruct Hp as [Hp|Hp]; [|by right]. left.
          apply pendingAt_cons_app in Hp as [Hp|(syms & Hin & _)]; [done|].
          apply list_elem_of_singleton in Hin. by injection Hin as -> _. }
        assert (Hkey : (i, c) ≠ (i', c')).
        { intros Heq. injection Heq as <- <-.
          assert (T = cur) as -> by (by apply (Hinj T cur i)).
          destruct Hp' as [Hp'|Hp']; [by apply Hnot|by apply Hp']. }
        rewrite lookup_insert_ne by done. apply (Htodo T i' c' HT).
        destruct Hp' as [Hp'|Hp']; [left|by right]. apply pendingAt_head. by right.
    + intros T syms Hin.
      rewrite app_comm_cons in Hin. apply elem_of_app in Hin as [Hin|Hin].
      * destruct (Hpend' T syms Hin) as ([j HT] & ? & ?). split; [|done].
        exists j. by apply Hmono.
      * apply list_elem_of_singleton in Hin. injection Hin as -> ->.
        split; [by rewrite lookup_insert_eq|]. split; [done|done].
    + cbn [fmap list_fmap fst]. rewrite fmap_app. cbn [fmap list_fmap fst].
      rewrite app_comm_cons. apply NoDup_app. split; [done|]. split; [|apply NoDup_singleton].
      intros T HT ->%list_elem_of_singleton.
      assert (Hin : ∃ syms, (U, syms) ∈ (cur, post) :: rest).
      { change (cur :: rest.*1) with (((cur, post) :: rest).*1) in HT.
        apply list_elem_of_fmap in HT as ([T' syms] & -> & Hin). by exists syms. }
      destruct Hin as (syms & Hin). destruct (Hpend' U syms Hin) as ([j HU] & _).
      congruence.
Qed.

End SubsetInvariant.

(** ** The subset construction keeps the language *)

Section SubsetLoops.

Variable nfa : NFA.t.
Variable alpha : list ascii.
Hypothesis alpha_NoDup : NoDup alpha.

(** The inner loop keeps the invariant and uses up the characters of the
    current subset. *)
Lemma subsetSteps_inv (syms : list ascii) (w : DFA.work) (cur : gset Z) (i : Z) :
  subsetInv nfa alpha w ((cur, syms) :: queued alpha (DFA.unmarkedStates w)) →
  DFA.dfaStateMap w !! cur = Some i →
  let w' := foldl (DFA.subsetStep nfa cur i) w syms in
  subsetInv nfa alpha w' ((cur, []) :: queued alpha (DFA.unmarkedStates w')).
Proof.
  revert w; induction syms as [|c post IH]; intros w Hinv Hcur; [done|].
  cbn [foldl].
  destruct (subsetStep_inv nfa alpha alpha_NoDup w cur i c post Hinv Hcur) as [Hinv' Hmono].
  apply IH; [done|]. by apply Hmono.
Qed.

Lemma subsetInv_drop (w : DFA.work) (cur : gset Z) (pending : list (gset Z * list ascii)) :
  subsetInv nfa alpha w ((cur, []) :: pending) → subsetInv nfa alpha w pending.
Proof.
  intros [Hs Hinj Hrange Hclosed Hacc Haccr Htrr Hdone Htodo Hpend Hnodup].
  assert (Heq : ∀ T c, pendingAt ((cur, []) :: pending) T c ↔ pendingAt pending T c).
  { intros T c. unfold pendingAt. split.
    - intros (syms & [Heq|Hin]%elem_of_cons & Hc).
      + injection Heq as -> ->. by apply elem_of_nil in Hc.
      + by exists syms.
    - intros (syms & Hin & Hc). exists syms. split; [by right|done]. }
  split; try done.
  - intros T i c HT Hc Hnp. apply Hdone; [done|done|]. by rewrite Heq.
  - intros T i c HT Hp. apply (Htodo T i c HT). by rewrite Heq.
  - intros T syms Hin. apply Hpend. by right.
  - by apply NoDup_cons in Hnodup as [_ ?].
Qed.

(** When the outer loop ends, the invariant holds with nothing left to do. *)
Lemma subsetLoop_inv (fuel : nat) (w : DFA.work) (d : DFA.t) :
  subsetInv nfa alpha w (queued alpha (DFA.unmarkedStates w)) →
  DFA.subsetLoop fuel nfa alpha w = Some d →
  ∃ w', DFA.dfa w' = d ∧ subsetInv nfa alpha w' [].
Proof.
  revert w; induction fuel as [|fuel IH]; intros w Hinv Hrun.
  - cbn in Hrun. destruct (DFA.unmarkedStates w) eqn:Hq; [|done].
    injection Hrun as <-. by exists w.
  - cbn in Hrun. destruct (DFA.unmarkedStates w) as [|cur rest] eqn:Hq.
    { injection Hrun as <-. by exists w. }
    destruct (si_pending _ _ _ _ Hinv cur alpha) as ([i Hcur] & _); [by left|].
    rewrite Hcur in Hrun. cbn [default] in Hrun.
    set (w1 := DFA.mkWork (DFA.dfa w) (DFA.dfaStateMap w) rest (DFA.dfaStateCounter w)) in *.
    assert (Hinv1 : subsetInv nfa alpha w1 ((cur, alpha) :: queued alpha (DFA.unmarkedStates w1))).
    { destruct Hinv. by split. }
    pose proof (subsetSteps_inv alpha w1 cur i Hinv1 Hcur) as Hinv2. cbn zeta in Hinv2.
    apply subsetInv_drop in Hinv2. by apply (IH _ Hinv2).
Qed.

Lemma epsilonClosure_state_closed (q a b : Z) :
  a ∈ NFA.epsilonClosure_state nfa q → epsStep nfa a b → b ∈ NFA.epsilonClosure_state nfa q.
Proof.
  rewrite !epsilonClosure_state_spec. intros Ha Hab. by apply rtc_r with a.
Qed.

End SubsetLoops.

Section SubsetLanguage.

Variable nfa : NFA.t.

Lemma rtc_eps_reaches (a b q : Z) (l : list ascii) :
  rtc (epsStep nfa) a b → reaches nfa b l q → reaches nfa a l q.
Proof. induction 1; [done|]. intros H'. eapply reaches_eps; [done|]. by apply IHrtc. Qed.

Lemma reaches_nil_closed (T : gset Z) (q q' : Z) (l : list ascii) :
  (∀ a b, a ∈ T → epsStep nfa a b → b ∈ T) →
  reaches nfa q l q' → l = [] → q ∈ T → q' ∈ T.
Proof.
  intros Hclosed. induction 1 as [|? ? ? ? Hstep _ IH|]; intros Hl Hq; [done| |done].
  apply IH; [done|]. by apply (Hclosed q).
Qed.

Lemma reaches_first_char (T : gset Z) (q q' : Z) (w : list ascii) :
  (∀ a b, a ∈ T → epsStep nfa a b → b ∈ T) →
  reaches nfa q w q' → ∀ c l, w = c :: l → q ∈ T →
  c ≠ epsilon
  ∧ ∃ p p1, p ∈ T ∧ mkTransition p p1 c ∈ NFA.transitions nfa ∧ reaches nfa p1 l q'.
Proof.
  intros Hclosed. induction 1 as [|? ? ? ? Hstep _ IH|? ? ? ? ? Hc Ht Hrest _];
    intros c' l Hw Hq; [done| |].
  - apply (IH c' l Hw). by apply (Hclosed q).
  - injection Hw as -> ->. split; [done|]. by exists q, q'.
Qed.

Lemma acceptsFrom_nil (T : gset Z) :
  (∀ a b, a ∈ T → epsStep nfa a b → b ∈ T) →
  acceptsFrom nfa T [] ↔ DFA.hasAccepting nfa T = true.
Proof.
  intros Hclosed. rewrite hasAccepting_spec. split.
  - intros (q & q' & Hq & Hq' & Hreach). exists q'. split; [|done].
    by apply (reaches_nil_closed T q q' [] Hclosed).
  - intros (q & Hq & Hacc). exists q, q. repeat split; try done. constructor.
Qed.

Lemma acceptsFrom_cons (T : gset Z) (c : ascii) (l : list ascii) :
  (∀ a b, a ∈ T → epsStep nfa a b → b ∈ T) →
  acceptsFrom nfa T (c :: l)
  ↔ (c ≠ epsilon ∧ ∃ t, t ∈ NFA.transitions nfa ∧ symbol t = c)
    ∧ acceptsFrom nfa (target nfa T c) l.
Proof.
  intros Hclosed. split.
  - intros (q & q' & Hq & Hq' & Hreach).
    destruct (reaches_first_char T q q' _ Hclosed Hreach c l eq_refl Hq)
      as (Hc & p & p1 & Hp & Ht & Hrest).
    split; [split; [done|by exists (mkTransition p p1 c)]|].
    exists p1, q'. split; [|done].
    apply epsilonClosure_spec. exists p1. split; [|done].
    apply elem_of_move. by exists (mkTransition p p1 c).
  - intros ((Hc & _) & q1 & q' & Hq1 & Hq' & Hreach).
    apply epsilonClosure_spec in Hq1 as (p1 & Hp1 & Heps).
    apply elem_of_move in Hp1 as (t & Ht & Hfrom & Hsym & Hto).
    exists (fromState t), q'. split; [done|]. split; [done|].
    subst c p1. apply reaches_char with (toState t); [done| |].
    + by rewrite transition_eta.
    + by apply (rtc_eps_reaches _ q1).
Qed.

(** With nothing left to do, the table runs the subsets. *)
Lemma accepts_loop_acceptsFrom (alpha : list ascii) (w : DFA.work) (l : list ascii) :
  subsetInv nfa alpha w [] →
  (∀ c, c ∈ alpha ↔ c ≠ epsilon ∧ ∃ t, t ∈ NFA.transitions nfa ∧ symbol t = c) →
  ∀ T i, DFA.dfaStateMap w !! T = Some i →
  DFA.accepts_loop (DFA.dfa w) i l = true ↔ acceptsFrom nfa T l.
Proof.
  intros Hinv Halpha. induction l as [|c l IH]; intros T i HT.
  - cbn. rewrite bool_decide_eq_true, (si_accept _ _ _ _ Hinv T i HT).
    symmetry. apply acceptsFrom_nil. apply (si_closed _ _ _ _ Hinv T i HT).
  - cbn [DFA.accepts_loop]. unfold DFA.getNextState.
    rewrite (acceptsFrom_cons T c l (si_closed _ _ _ _ Hinv T i HT)), <- Halpha.
    destruct (decide (c ∈ alpha)) as [Hc|Hc].
    + destruct (si_done _ _ _ _ Hinv T i c HT Hc) as [[Hempty Hnone]|(Hne & j & Hj & Hsome)].
      { intros (syms & Hin & _). by apply elem_of_nil in Hin. }
      * rewrite Hnone. rewrite bool_decide_eq_true_2 by done. split; [done|].
        intros (_ & q & q' & Hq & _). rewrite Hempty in Hq. set_solver.
      * rewrite Hsome. pose proof (si_range _ _ _ _ Hinv _ _ Hj).
        rewrite bool_decide_eq_false_2 by lia. rewrite (IH _ _ Hj). tauto.
    + rewrite (si_todo _ _ _ _ Hinv T i c HT) by (by right).
      rewrite bool_decide_eq_true_2 by done. split; [done|tauto].
Qed.

Lemma fromNFA_accepts (fuel : nat) (d : DFA.t) (w : string) :
  DFA.fromNFA fuel nfa = Some d →
  (DFA.accepts d w = true ↔ nfaAccepts nfa w).
Proof.
  unfold DFA.fromNFA. intros Hrun.
  set (alpha := foldl _ [] (NFA.transitions nfa)) in *.
  destruct (alphabet_spec (NFA.transitions nfa) []) as [Halpha Hsorted].
  cbn zeta in Halpha, Hsorted. fold alpha in Halpha, Hsorted.
  assert (Hnodup : NoDup alpha) by (apply sorted_chars_NoDup, Hsorted; constructor).
  set (start := NFA.epsilonClosure_state nfa (NFA.startState nfa)) in *.
  set (d0 := DFA.addState 0 false (DFA.setStartState 0 (DFA.setAlphabet alpha DFA.new))) in *.
  set (d1 := if DFA.hasAccepting nfa start then DFA.addAcceptingState 0 d0 else d0) in *.
  assert (Hinv0 : subsetInv nfa alpha (DFA.mkWork d1 {[start := 0]} [start] 1)
                    (queued alpha [start])).
  { assert (Hacc1 : ∀ s, s ∈ DFA.acceptingStates d1
                         ↔ s = 0 ∧ DFA.hasAccepting nfa start = true).
    { intros s. subst d1 d0. destruct (DFA.hasAccepting nfa start); cbn; set_solver. }
    assert (Htr1 : DFA.transitions d1 = ∅).
    { subst d1 d0. by destruct (DFA.hasAccepting nfa start). }
    assert (Hst1 : DFA.startState d1 = 0).
    { subst d1 d0. by destruct (DFA.hasAccepting nfa start). }
    split; cbn [DFA.dfaStateMap DFA.dfa DFA.dfaStateCounter].
    - split; [by rewrite lookup_singleton_eq|done].
    - intros T T' i [<- _]%lookup_singleton_Some [<- _]%lookup_singleton_Some. done.
    - intros T i [_ <-]%lookup_singleton_Some. lia.
    - intros T i [<- _]%lookup_singleton_Some. apply epsilonClosure_state_closed.
    - intros T i [<- <-]%lookup_singleton_Some. rewrite Hacc1. tauto.
    - intros s [-> _]%Hacc1. lia.
    - intros i c j. by rewrite Htr1.
    - intros T i c [<- _]%lookup_singleton_Some Hc Hnp. destruct Hnp.
      exists alpha. split; [by left|done].
    - intros T i c _ _. by rewrite Htr1.
    - intros T syms Hin%list_elem_of_singleton. injection Hin as -> ->.
      split; [by rewrite lookup_singleton_eq|]. split; [done|done].
    - cbn. apply NoDup_singleton. }
  destruct (subsetLoop_inv nfa alpha Hnodup fuel _ d Hinv0 Hrun) as (wf & <- & Hinv).
  unfold DFA.accepts. destruct (si_start _ _ _ _ Hinv) as [Hs1 Hs2]. rewrite Hs2.
  rewrite (accepts_loop_acceptsFrom alpha wf (chars w) Hinv).
  2: { intros c. rewrite Halpha. split; [|by right].
       intros [Hc|Hc]; [by apply elem_of_nil in Hc|done]. }
  2: exact Hs1.
  unfold nfaAccepts, acceptsFrom. fold start. split.
  - intros (q & q' & Hq & Hq' & Hreach). exists q'. split; [done|].
    apply (rtc_eps_reaches _ q); [|done]. by apply epsilonClosure_state_spec.
  - intros (q' & Hq' & Hreach). exists (NFA.startState nfa), q'.
    split; [|done]. by apply epsilonClosure_state_spec.
Qed.

(** The subset construction keeps the language: when [fromNFA] returns an
    automaton, that automaton accepts a string exactly when the
    nondeterministic one does. *)
Theorem fromNFA_language (fuel : nat) (d : DFA.t) (w : string) :
  DFA.fromNFA fuel nfa = Some d →
  (DFA.accepts d w = true ↔ nfaAccepts nfa w).
Proof. apply fromNFA_accepts. Qed.

End SubsetLanguage.

Lemma fromNFA_language_witness :
  ∃ d, DFA.fromNFA 20 (NFA.fromRegex "a|b") = Some d
       ∧ (DFA.accepts d "b" = true ↔ nfaAccepts (NFA.fromRegex "a|b") "b").
Proof.
  eexists. split; [vm_compute; reflexivity|].
  apply (fromNFA_language (NFA.fromRegex "a|b") 20). vm_compute. reflexivity.
Defined.

(** ** Termination of the subset construction *)

Section Powerset.

Lemma size_union_le (X Y : gset (gset Z)) : (size (X ∪ Y) ≤ size X + size Y)%nat.
Proof.
  rewrite size_union_alt. assert (size (Y ∖ X) ≤ size Y)%nat; [|lia].
  apply subseteq_size. set_solver.
Qed.

Lemma size_set_map_le (f : gset Z → gset Z) (X : gset (gset Z)) :
  (size (set_map f X : gset (gset Z)) ≤ size X)%nat.
Proof.
  induction X as [|T X Hout IH] using set_ind_L.
  - by rewrite set_map_empty.
  - rewrite set_map_union_L, set_map_singleton_L.
    rewrite (size_union ({[T]} : gset (gset Z)) X) by set_solver.
    pose proof (size_union_le {[f T]} (set_map f X)) as Hle.
    rewrite !size_singleton in *. lia.
Qed.

(** A family of subsets of [U] has at most [2 ^ size U] members. *)
Lemma size_subsets (U : gset Z) (X : gset (gset Z)) :
  (∀ T, T ∈ X → T ⊆ U) → (size X ≤ 2 ^ size U)%nat.
Proof.
  revert X. induction U as [|x U Hout IH] using set_ind_L; intros X Hsub.
  - rewrite size_empty. cbn. rewrite <- (size_singleton (∅ : gset Z) (C:=gset (gset Z))).
    apply subseteq_size. intros T HT. apply Hsub in HT.
    apply elem_of_singleton, set_eq. intros y. set_solver.
  - rewrite (size_union ({[x]} : gset Z) U) by set_solver. rewrite size_singleton.
    set (Y := filter (λ T, x ∉ T) X).
    set (Z' := set_map (λ T, T ∖ {[x]}) (filter (λ T, x ∈ T) X) : gset (gset Z)).
    assert (HX : X ⊆ Y ∪ set_map (λ T, {[x]} ∪ T) Z').
    { intros T HT. destruct (decide (x ∈ T)) as [Hx|Hx].
      - apply elem_of_union_r, elem_of_map. exists (T ∖ {[x]}). split.
        + apply set_eq; intros y. destruct (decide (y = x)); set_solver.
        + apply elem_of_map. exists T. split; [done|]. by apply elem_of_filter.
      - apply elem_of_union_l. by apply elem_of_filter. }
    assert (HY : (size Y ≤ 2 ^ size U)%nat).
    { apply IH. intros T [Hx HT%Hsub]%elem_of_filter. set_solver. }
    assert (HZ : (size Z' ≤ 2 ^ size U)%nat).
    { apply IH. intros T (T' & -> & [Hx HT%Hsub]%elem_of_filter)%elem_of_map. set_solver. }
    pose proof (subseteq_size _ _ HX) as H1.
    pose proof (size_union_le Y (set_map (λ T, {[x]} ∪ T) Z')) as H2.
    pose proof (size_set_map_le (λ T, {[x]} ∪ T) Z') as H3.
    cbn [Nat.pow Nat.add]. lia.
Qed.

End Powerset.

Section SubsetTermination.

Variable nfa : NFA.t.

Lemma rtc_eps_reachable (a b : Z) :
  rtc (epsStep nfa) a b → a ∈ reachable nfa → b ∈ reachable nfa.
Proof.
  intros [->|(y & _ & t & Ht & _ & _ & <-)]%rtc_inv_r Ha; [done|].
  apply elem_of_union_r, elem_of_list_to_set, list_elem_of_fmap. by exists t.
Qed.

Lemma target_reachable (T : gset Z) (c : ascii) : target nfa T c ⊆ reachable nfa.
Proof.
  intros x (s & Hs & Hrtc)%epsilonClosure_spec. apply (rtc_eps_reachable s); [done|].
  apply elem_of_move in Hs as (t & Ht & _ & _ & <-).
  apply elem_of_union_r, elem_of_list_to_set, list_elem_of_fmap. by exists t.
Qed.

Lemma start_reachable :
  NFA.epsilonClosure_state nfa (NFA.startState nfa) ⊆ reachable nfa.
Proof.
  intros x Hx%epsilonClosure_state_spec.
  apply (rtc_eps_reachable (NFA.startState nfa)); [done|]. set_solver.
Qed.

Lemma size_reachable : (size (reachable nfa) ≤ S (length (NFA.transitions nfa)))%nat.
Proof.
  unfold reachable, targets.
  pose proof (size_list_to_set_le (toState <$> NFA.transitions nfa)) as Hle.
  rewrite length_fmap in Hle. rewrite size_union_alt, size_singleton.
  assert (size (list_to_set (toState <$> NFA.transitions nfa) ∖ ({[NFA.startState nfa]} : gset Z))
          ≤ size (list_to_set (toState <$> NFA.transitions nfa) : gset Z))%nat; [|lia].
  apply subseteq_size. set_solver.
Qed.

Lemma bounded_size (w : DFA.work) :
  bounded nfa w → (size (DFA.dfaStateMap w) ≤ 2 ^ size (reachable nfa))%nat.
Proof.
  intros Hb. rewrite <- (size_dom (D:=gset (gset Z))). apply size_subsets.
  intros T HT%elem_of_dom. by apply Hb.
Qed.

Lemma subsetStep_progress (cur : gset Z) (i : Z) (w : DFA.work) (c : ascii) :
  bounded nfa w →
  bounded nfa (DFA.subsetStep nfa cur i w c)
  ∧ progress w ≤ progress (DFA.subsetStep nfa cur i w c).
Proof.
  intros Hb. unfold DFA.subsetStep. cbv zeta.
  change (NFA.epsilonClosure nfa (NFA.move nfa cur c)) with (target nfa cur c).
  case_bool_decide as Hempty; [done|].
  destruct (DFA.dfaStateMap w !! target nfa cur c) eqn:Hlook; [done|].
  unfold bounded, progress. cbn. split.
  - intros T [<-|HT]%lookup_insert_is_Some'; [apply target_reachable|by apply Hb].
  - rewrite map_size_insert_None, length_app by done. cbn. lia.
Qed.

Lemma subsetSteps_progress (cur : gset Z) (i : Z) (syms : list ascii) (w : DFA.work) :
  bounded nfa w →
  bounded nfa (foldl (DFA.subsetStep nfa cur i) w syms)
  ∧ progress w ≤ progress (foldl (DFA.subsetStep nfa cur i) w syms).
Proof.
  revert w; induction syms as [|c syms IH]; intros w Hb; [done|]. cbn [foldl].
  destruct (subsetStep_progress cur i w c Hb) as [Hb1 Hp1].
  destruct (IH _ Hb1) as [Hb2 Hp2]. split; [done|lia].
Qed.

Lemma subsetLoop_terminates (alpha : list ascii) (fuel : nat) (w : DFA.work) :
  bounded nfa w →
  2 * Z.of_nat (2 ^ size (reachable nfa)) - progress w ≤ Z.of_nat fuel →
  is_Some (DFA.subsetLoop fuel nfa alpha w).
Proof.
  revert w; induction fuel as [|fuel IH]; intros w Hb Hfuel.
  - cbn. destruct (DFA.unmarkedStates w) as [|cur rest] eqn:Hq; [done|].
    pose proof (bounded_size w Hb). unfold progress in Hfuel. rewrite Hq in Hfuel.
    cbn [length] in Hfuel. lia.
  - cbn. destruct (DFA.unmarkedStates w) as [|cur rest] eqn:Hq; [done|].
    set (w1 := DFA.mkWork (DFA.dfa w) (DFA.dfaStateMap w) rest (DFA.dfaStateCounter w)).
    assert (Hb1 : bounded nfa w1) by done.
    destruct (subsetSteps_progress cur (default 0 (DFA.dfaStateMap w !! cur)) alpha w1 Hb1)
      as [Hb2 Hp2].
    apply IH; [done|].
    assert (progress w1 = progress w + 1); [|lia].
    unfold progress, w1. rewrite Hq. cbn [length DFA.dfaStateMap DFA.unmarkedStates]. lia.
Qed.

(** The subset construction ends for every automaton: the loop runs at most
    once for each set of states, so [subsetFuel] iterations are enough and
    [fromNFA] returns an automaton. *)
Theorem fromNFA_terminates : is_Some (DFA.fromNFA (subsetFuel nfa) nfa).
Proof.
  unfold DFA.fromNFA. apply subsetLoop_terminates.
  - intros T [x Hx]. cbn in Hx. apply lookup_singleton_Some in Hx as [<- _].
    apply start_reachable.
  - unfold progress, subsetFuel. cbn [DFA.dfaStateMap DFA.unmarkedStates length].
    rewrite map_size_singleton.
    pose proof (Nat.pow_le_mono_r 2 _ _ ltac:(lia) size_reachable). lia.
Qed.

End SubsetTermination.

(** ** The shape of the automaton that [fromNFA] returns *)

Section SubsetStructure.

Variable nfa : NFA.t.
Variable alpha : list ascii.
Hypothesis alpha_sorted : StronglySorted charLt alpha.

Lemma insertChar_present (c : ascii) (l : list ascii) :
  StronglySorted charLt l → c ∈ l → DFA.insertChar c l = l.
Proof.
  induction 1 as [|y l Hl IH Hall]; intros Hc; [by apply elem_of_nil in Hc|].
  cbn [DFA.insertChar]. destruct (N_of_ascii c ?= N_of_ascii y)%N eqn:Hcmp; [done| |].
  - rewrite N.compare_lt_iff in Hcmp. apply elem_of_cons in Hc as [->|Hc]; [lia|].
    rewrite Forall_forall in Hall. specialize (Hall c Hc). unfold charLt in Hall. lia.
  - rewrite N.compare_gt_iff in Hcmp. apply elem_of_cons in Hc as [->|Hc]; [lia|].
    by rewrite IH.
Qed.

Lemma markAccepting_ids (k : Z) (l : list State) :
  id <$> DFA.markAccepting k l = id <$> l.
Proof.
  induction l as [|s l IH]; [done|]. cbn [DFA.markAccepting].
  case_bool_decide; [done|]. cbn [fmap list_fmap]. f_equal. exact IH.
Qed.

(** The state that was just added is the one that [addAcceptingState]
    marks. *)
Lemma markAccepting_last (k : Z) (l : list State) (b : bool) (ty : string) :
  k ∉ id <$> l →
  DFA.markAccepting k (l ++ [mkState k b ty]) = l ++ [mkState k true ty].
Proof.
  induction l as [|s l IH]; intros Hk; cbn [DFA.markAccepting app].
  - by rewrite bool_decide_eq_true_2.
  - rewrite bool_decide_eq_false_2 by set_solver. f_equal. apply IH. set_solver.
Qed.

Lemma seqZ_snoc (n : Z) : 0 ≤ n → seqZ 0 (n + 1) = seqZ 0 n ++ [n].
Proof. intros Hn. rewrite (seqZ_app 0 n 1) by lia. by rewrite seqZ_one. Qed.

Lemma structInv_newState (w : DFA.work) (T : gset Z) (accepting : bool) :
  structInv alpha w →
  let newDfaState := DFA.dfaStateCounter w in
  let d := DFA.addState newDfaState false (DFA.dfa w) in
  let d := if accepting then DFA.addAcceptingState newDfaState d else d in
  structInv alpha
    (DFA.mkWork d (<[T := newDfaState]> (DFA.dfaStateMap w))
       (DFA.unmarkedStates w ++ [T]) (DFA.dfaStateCounter w + 1)).
Proof.
  intros [Hids Hcnt Hstart Hflags Htypes Hacc Hmap Htr Halpha Hlabels]. cbn zeta.
  set (k := DFA.dfaStateCounter w) in *.
  assert (Hfresh : k ∉ id <$> DFA.states (DFA.dfa w)).
  { rewrite Hids. intros Hk%elem_of_seqZ. lia. }
  assert (Hnotacc : k ∉ DFA.acceptingStates (DFA.dfa w)).
  { intros Hk%Hacc. lia. }
  assert (Hstates :
    DFA.states (if accepting then DFA.addAcceptingState k (DFA.addState k false (DFA.dfa w))
                else DFA.addState k false (DFA.dfa w))
    = DFA.states (DFA.dfa w) ++ [mkState k accepting ""]).
  { destruct accepting; cbn [DFA.states DFA.addAcceptingState DFA.addState]; [|done].
    by apply markAccepting_last. }
  assert (Haccs : ∀ q,
    q ∈ DFA.acceptingStates
          (if accepting then DFA.addAcceptingState k (DFA.addState k false (DFA.dfa w))
           else DFA.addState k false (DFA.dfa w))
    ↔ (q = k ∧ accepting = true) ∨ q ∈ DFA.acceptingStates (DFA.dfa w)).
  { intros q. destruct accepting; cbn; set_solver. }
  assert (Hrest :
    let d' := if accepting then DFA.addAcceptingState k (DFA.addState k false (DFA.dfa w))
              else DFA.addState k false (DFA.dfa w) in
    DFA.startState d' = DFA.startState (DFA.dfa w)
    ∧ DFA.transitions d' = DFA.transitions (DFA.dfa w)
    ∧ DFA.alphabet d' = DFA.alphabet (DFA.dfa w)
    ∧ DFA.stateToTokenType d' = DFA.stateToTokenType (DFA.dfa w)).
  { by destruct accepting. }
  cbn zeta in Hrest. destruct Hrest as (R1 & R2 & R3 & R4).
  split; cbn [DFA.dfa DFA.dfaStateMap DFA.dfaStateCounter].
  - rewrite Hstates, fmap_app, Hids, seqZ_snoc by lia. done.
  - lia.
  - by rewrite R1.
  - intros s. rewrite Hstates, Haccs. intros [Hs| ->%list_elem_of_singleton]%elem_of_app.
    + rewrite (Hflags s Hs). split; [by right|]. intros [[Hk _]|?]; [|done].
      destruct Hfresh. rewrite <- Hk. apply list_elem_of_fmap. by exists s.
    + cbn. split; [by left|]. intros [[_ ?]|?]; done.
  - intros s. rewrite Hstates. intros [Hs| ->%list_elem_of_singleton]%elem_of_app; [|done].
    by apply Htypes.
  - intros q [[-> _]|Hq]%Haccs; [lia|]. apply Hacc in Hq. lia.
  - intros T' j [[_ <-]|[_ Hj]]%lookup_insert_Some; [lia|]. apply Hmap in Hj. lia.
  - intros i c j. rewrite R2. intros Hij.
    destruct (Htr _ _ _ Hij) as (Hi & Hj & Hc). repeat split; try lia. done.
  - by rewrite R3.
  - by rewrite R4.
Qed.

Lemma subsetStep_struct (cur : gset Z) (i : Z) (w : DFA.work) (c : ascii) :
  structInv alpha w → 0 ≤ i < DFA.dfaStateCounter w → c ∈ alpha →
  structInv alpha (DFA.subsetStep nfa cur i w c)
  ∧ DFA.dfaStateCounter w ≤ DFA.dfaStateCounter (DFA.subsetStep nfa cur i w c).
Proof.
  intros Hinv Hi Hc. unfold DFA.subsetStep. cbv zeta.
  change (NFA.epsilonClosure nfa (NFA.move nfa cur c)) with (target nfa cur c).
  case_bool_decide as Hempty; [split; [done|lia]|].
  set (w1 := match DFA.dfaStateMap w !! target nfa cur c with
             | Some _ => w
             | None => _
             end).
  assert (Hinv1 : structInv alpha w1 ∧ DFA.dfaStateCounter w ≤ DFA.dfaStateCounter w1).
  { subst w1. destruct (DFA.dfaStateMap w !! target nfa cur c); [split; [done|lia]|].
    split; [by apply structInv_newState|cbn; lia]. }
  clearbody w1. destruct Hinv1 as [Hinv1 Hle].
  destruct Hinv1 as [Hids Hcnt Hstart Hflags Htypes Hacc Hmap Htr Halpha Hlabels].
  split; [|done].
  assert (Hnext : 0 ≤ default 0 (DFA.dfaStateMap w1 !! target nfa cur c)
                  < DFA.dfaStateCounter w1).
  { destruct (DFA.dfaStateMap w1 !! target nfa cur c) as [j|] eqn:Hj; cbn; [|lia].
    by apply Hmap in Hj. }
  split; cbn [DFA.dfa DFA.dfaStateMap DFA.dfaStateCounter DFA.addTransition DFA.states
              DFA.startState DFA.acceptingStates DFA.transitions DFA.alphabet
              DFA.stateToTokenType]; try done.
  - intros i' c' j [[Heq <-]|[_ Hj]]%lookup_insert_Some.
    + injection Heq as <- <-. repeat split; try lia. done.
    + by apply Htr.
  - rewrite Halpha. by apply insertChar_present.
Qed.

Lemma subsetSteps_struct (cur : gset Z) (i : Z) (syms : list ascii) (w : DFA.work) :
  structInv alpha w → 0 ≤ i < DFA.dfaStateCounter w → Forall (λ c, c ∈ alpha) syms →
  structInv alpha (foldl (DFA.subsetStep nfa cur i) w syms).
Proof.
  revert w; induction syms as [|c syms IH]; intros w Hinv Hi Hsyms; [done|].
  cbn [foldl]. apply Forall_cons in Hsyms as [Hc Hsyms].
  destruct (subsetStep_struct cur i w c Hinv Hi Hc) as [Hinv' Hle].
  apply IH; [done|lia|done].
Qed.

Lemma subsetLoop_struct (fuel : nat) (w : DFA.work) (d : DFA.t) :
  structInv alpha w → DFA.subsetLoop fuel nfa alpha w = Some d →
  ∃ w', DFA.dfa w' = d ∧ structInv alpha w'.
Proof.
  revert w; induction fuel as [|fuel IH]; intros w Hinv Hrun.
  - cbn in Hrun. destruct (DFA.unmarkedStates w); [|done].
    injection Hrun as <-. by exists w.
  - cbn in Hrun. destruct (DFA.unmarkedStates w) as [|cur rest] eqn:Hq.
    { injection Hrun as <-. by exists w. }
    apply IH in Hrun; [done|]. apply subsetSteps_struct.
    + destruct Hinv. by split.
    + cbn. destruct (DFA.dfaStateMap w !! cur) as [j|] eqn:Hj; cbn.
      * by apply (sv_map _ _ Hinv) in Hj.
      * pose proof (sv_counter _ _ Hinv). lia.
    + by apply Forall_forall.
Qed.

End SubsetStructure.

Section SubsetShape.

(** The automaton that the subset construction returns is a proper table:
    its states are numbered from [0] in the order of the vector and state
    [0] is the start state; the accepting flag of a state and the set of
    accepting states agree; every entry of the table leads from a state to a
    state on a character of the alphabet, so no entry holds the [-1] that
    [getNextState] uses for a missing one; the alphabet holds, once each,
    the characters of the transitions of the nondeterministic automaton,
    epsilon left out; and no state has a label yet. *)
Theorem fromNFA_wellFormed (nfa : NFA.t) (fuel : nat) (d : DFA.t) :
  DFA.fromNFA fuel nfa = Some d → dfaWellFormed nfa d.
Proof.
  unfold DFA.fromNFA. intros Hrun.
  set (alpha := foldl _ [] (NFA.transitions nfa)) in *.
  destruct (alphabet_spec (NFA.transitions nfa) []) as [Halpha Hsorted].
  cbn zeta in Halpha, Hsorted. fold alpha in Halpha, Hsorted.
  specialize (Hsorted (SSorted_nil _)).
  set (start := NFA.epsilonClosure_state nfa (NFA.startState nfa)) in *.
  apply (subsetLoop_struct nfa alpha Hsorted) in Hrun as (w & <- & Hinv).
  - destruct Hinv as [Hids Hcnt Hstart Hflags Htypes Hacc Hmap Htr Halph Hlabels].
    assert (Hlen : Z.of_nat (length (DFA.states (DFA.dfa w))) = DFA.dfaStateCounter w).
    { rewrite <- (length_fmap id), Hids, length_seqZ. lia. }
    split.
    + by rewrite Hlen.
    + split; [done|]. unfold isState. rewrite Hlen. lia.
    + done.
    + intros q Hq. unfold isState. rewrite Hlen. by apply Hacc.
    + intros i c j Hij. unfold isState. rewrite Hlen, Halph. by apply Htr.
    + rewrite Halph. split; [by apply sorted_chars_NoDup|]. intros c. rewrite Halpha. split.
      * intros [Hc|Hc]; [by apply elem_of_nil in Hc|done].
      * by right.
    + by split.
  - set (d0 := DFA.addState 0 false (DFA.setStartState 0 (DFA.setAlphabet alpha DFA.new))).
    set (d1 := if DFA.hasAccepting nfa start then DFA.addAcceptingState 0 d0 else d0).
    assert (Hst : DFA.states d1 = [mkState 0 (DFA.hasAccepting nfa start) ""]).
    { subst d1 d0. by destruct (DFA.hasAccepting nfa start). }
    assert (Hacc : ∀ q, q ∈ DFA.acceptingStates d1
                        ↔ q = 0 ∧ DFA.hasAccepting nfa start = true).
    { intros q. subst d1 d0. destruct (DFA.hasAccepting nfa start); cbn; set_solver. }
    assert (Hrest : DFA.startState d1 = 0 ∧ DFA.transitions d1 = ∅
                    ∧ DFA.alphabet d1 = alpha ∧ DFA.stateToTokenType d1 = ∅).
    { subst d1 d0. by destruct (DFA.hasAccepting nfa start). }
    destruct Hrest as (R1 & R2 & R3 & R4).
    split; cbn [DFA.dfa DFA.dfaStateMap DFA.dfaStateCounter]; try done.
    + by rewrite Hst.
    + intros s. rewrite Hst, Hacc. intros ->%list_elem_of_singleton. cbn. tauto.
    + intros s. rewrite Hst. by intros ->%list_elem_of_singleton.
    + intros q [-> _]%Hacc. lia.
    + intros T j [_ <-]%lookup_singleton_Some. lia.
    + intros i c j. by rewrite R2.
Qed.

End SubsetShape.

Lemma fromNFA_wellFormed_witness :
  ∃ d, DFA.fromNFA 20 (NFA.fromRegex "a|b") = Some d
       ∧ dfaWellFormed (NFA.fromRegex "a|b") d.
Proof.
  eexists. split; [vm_compute; reflexivity|].
  apply (fromNFA_wellFormed (NFA.fromRegex "a|b") 20). vm_compute. reflexivity.
Defined.

(** ** The language of [fromRegex] and of [build] *)

Section PostfixLanguage.
Import NFA.

Lemma fromSymbol_accepts_chars (c : ascii) (l : list ascii) :
  nfaAcceptsChars (fromSymbol c) l ↔ langSymbol c l.
Proof.
  unfold nfaAcceptsChars, langSymbol.
  cbn [startState acceptingStates fromSymbol setStateCounter
    setStartState addTransition addState new].
  assert (Hts : transitions (fromSymbol c) = [mkTransition 0 1 c]) by done.
  assert (Hstuck : ∀ t, t ∈ transitions (fromSymbol c) → fromState t ≠ 1).
  { intros t Ht. rewrite Hts in Ht. by apply list_elem_of_singleton in Ht as ->. }
  split.
  - intros (q & Hq & Hreach).
    assert (q = 1) as -> by set_solver.
    inversion Hreach as [|? ? ? ? (t & Ht & Hf & He & Hto) Hrest|? ? ? ? ? Hne Ht Hrest]; subst.
    + rewrite Hts in Ht. apply list_elem_of_singleton in Ht as ->. cbn in He. subst c.
      rewrite bool_decide_eq_true_2 by done.
      by destruct (reaches_stuck _ _ _ _ Hstuck Hrest) as [-> _].
    + rewrite Hts in Ht. apply list_elem_of_singleton in Ht. injection Ht as -> ->.
      rewrite bool_decide_eq_false_2 by done.
      by destruct (reaches_stuck _ _ _ _ Hstuck Hrest) as [-> _].
  - intros Hl. exists 1. split; [set_solver|]. case_bool_decide as Hc; subst l.
    + eapply reaches_eps; [|constructor]. exists (mkTransition 0 1 c).
      rewrite Hts. repeat split; [set_solver|done].
    + eapply reaches_char; [done| |constructor]. rewrite Hts. set_solver.
Qed.

Lemma thompsonStep_recognizes (nfaStack : list NFA.t) (stack : list language) (c : ascii) :
  Forall2 recognizes nfaStack stack →
  Forall2 recognizes (thompsonStep nfaStack c) (denoteStep stack c).
Proof.
  intros Hst. unfold thompsonStep, denoteStep. repeat case_bool_decide.
  - destruct Hst as [|nfa L rest rest' [W HL] Hrest]; [done|].
    constructor; [|done]. split; [by apply kleeneStar_wellFormed|].
    intros l. rewrite (kleeneStar_accepts_chars nfa W). unfold langStar.
    split; intros (ls & -> & Hls); exists ls; (split; [done|]);
      (eapply Forall_impl; [exact Hls|]); intros x; by apply HL.
  - destruct Hst as [|nfa2 L2 rest rest' [W2 HL2] Hrest]; [done|].
    destruct Hrest as [|nfa1 L1 rest rest' [W1 HL1] Hrest];
      [constructor; [by split|constructor]|].
    constructor; [|done]. split; [by apply union_op_wellFormed|].
    intros l. rewrite (union_op_accepts_chars nfa1 nfa2 W1 W2). unfold langUnion.
    by rewrite HL1, HL2.
  - destruct Hst as [|nfa2 L2 rest rest' [W2 HL2] Hrest]; [done|].
    destruct Hrest as [|nfa1 L1 rest rest' [W1 HL1] Hrest];
      [constructor; [by split|constructor]|].
    constructor; [|done]. split; [by apply concatenate_wellFormed|].
    intros l. rewrite (concatenate_accepts_chars nfa1 nfa2 W1 W2). unfold langConcat.
    split; intros (u & v & -> & Hu & Hv); exists u, v;
      (split; [done|]); split; by (apply HL1 || apply HL2).
  - constructor; [|done]. split; [apply fromSymbol_wellFormed|].
    apply fromSymbol_accepts_chars.
Qed.

(** Thompson's construction is right on every postfix expression: the
    automata on the stack of [fromRegex] accept, one by one, the languages
    that the expression denotes, the operators read as star, union and
    concatenation and every other character as itself. *)
Theorem evalPostfix_language (postfix : list ascii) :
  Forall2 (λ n L, ∀ l, nfaAcceptsChars n l ↔ L l)
          (evalPostfix postfix) (denotePostfix postfix).
Proof.
  assert (H : Forall2 recognizes (evalPostfix postfix) (denotePostfix postfix)).
  { unfold evalPostfix, denotePostfix.
    assert (Hgen : ∀ st st', Forall2 recognizes st st' →
              Forall2 recognizes (foldl thompsonStep st postfix) (foldl denoteStep st' postfix)).
    { induction postfix as [|c l IH]; intros st st' Hst; [done|].
      cbn [foldl]. apply IH. by apply thompsonStep_recognizes. }
    apply Hgen. constructor. }
  eapply Forall2_impl; [exact H|]. by intros n L [_ HL].
Qed.

End PostfixLanguage.

Section BuildLanguage.
Import LexicalAnalyzerGenerator.

Lemma fromRegex_wellFormed_states (regex : string) :
  NFA.states (NFA.fromRegex regex) ≠ [] → wellFormed (NFA.fromRegex regex).
Proof.
  unfold NFA.fromRegex, NFA.fromPostfix.
  pose proof (evalPostfix_wellFormed (chars (RegexParser.infixToPostfix regex))) as H.
  destruct (NFA.evalPostfix _) as [|top rest]; [done|].
  intros _. by apply Forall_cons in H as [? _].
Qed.

Lemma combine_language (first : NFA.t) (others : list NFA.t) (l : list ascii) :
  wellFormed first → Forall wellFormed others →
  wellFormed (combine first others)
  ∧ (nfaAcceptsChars (combine first others) l
     ↔ ∃ n, n ∈ first :: others ∧ nfaAcceptsChars n l).
Proof.
  intros Wf Wo. unfold combine.
  induction others as [|other others IH] using rev_ind.
  { split; [done|]. cbn. split.
    - intros H. exists first. split; [by left|done].
    - by intros (n & ->%list_elem_of_singleton & H). }
  apply Forall_app in Wo as [Wo Wother]. apply Forall_cons in Wother as [Wother _].
  destruct (IH Wo) as [Wc Hc]. rewrite foldl_app. cbn [foldl].
  split; [by apply union_op_wellFormed|].
  rewrite (union_op_accepts_chars _ _ Wc Wother), Hc. split.
  - intros [(n & Hn & Hacc)|Hacc].
    + exists n. split; [|done]. rewrite app_comm_cons. by apply elem_of_app; left.
    + exists other. split; [|done]. rewrite app_comm_cons. apply elem_of_app; right.
      by left.
  - intros (n & Hn & Hacc). rewrite app_comm_cons in Hn.
    apply elem_of_app in Hn as [Hn| ->%list_elem_of_singleton]; [left|by right].
    by exists n.
Qed.

Lemma build_accepts (fuel : nat) (g g' : t) (w : string) :
  tokenPatterns g ≠ [] →
  Forall (λ p, NFA.states (NFA.fromRegex p.2) ≠ []) (tokenPatterns g) →
  build fuel g = Some g' →
  (DFA.accepts (finalDFA g') w = true
   ↔ ∃ p, p ∈ tokenPatterns g ∧ nfaAccepts (NFA.fromRegex p.2) w).
Proof.
  unfold build. intros Hne Hall Hbuild.
  destruct (tokenPatterns g) as [|p ps] eqn:Hpat; [done|]. cbn [map] in Hbuild.
  destruct (DFA.fromNFA fuel _) as [d|] eqn:Hd; [|done].
  injection Hbuild as <-.
  change (DFA.accepts (labelAccepting (p :: ps) d) w = true
          ↔ ∃ q, q ∈ p :: ps ∧ nfaAccepts (NFA.fromRegex q.2) w).
  destruct (labelAccepting_fields (p :: ps) d) as (Hacc & Htr & Hstart).
  assert (Hsame : DFA.accepts (labelAccepting (p :: ps) d) w = DFA.accepts d w).
  { unfold DFA.accepts. rewrite Hstart. generalize (DFA.startState d).
    induction (chars w) as [|c l IH]; intros s; cbn [DFA.accepts_loop].
    - by rewrite Hacc.
    - unfold DFA.getNextState. rewrite Htr. by rewrite IH. }
  rewrite Hsame, (fromNFA_accepts _ fuel d w Hd).
  apply Forall_cons in Hall as [Hp Hps].
  destruct (combine_language (NFA.fromRegex p.2) (map (λ pattern, NFA.fromRegex pattern.2) ps)
              (chars w)) as [_ Hlang].
  { by apply fromRegex_wellFormed_states. }
  { apply Forall_map. eapply Forall_impl; [exact Hps|].
    intros q. apply fromRegex_wellFormed_states. }
  change (nfaAccepts ?n w) with (nfaAcceptsChars n (chars w)).
  rewrite Hlang. split.
  - intros (n & [->|Hn]%elem_of_cons & Hacc'); [exists p; split; [by left|done]|].
    apply list_elem_of_fmap in Hn as (q & -> & Hq). exists q. split; [by right|done].
  - intros (q & [->|Hq]%elem_of_cons & Hacc'); eexists; (split; [|exact Hacc']);
      [by left|right]. apply list_elem_of_fmap. by exists q.
Qed.

(** The automaton that [build] leaves in the generator accepts a string
    exactly when the automaton of one of the patterns does, provided there
    is a pattern and each pattern leaves an automaton on the stack of
    [fromRegex]. *)
Theorem build_language (fuel : nat) (g g' : t) (w : string) :
  tokenPatterns g ≠ [] →
  Forall (λ p, NFA.states (NFA.fromRegex p.2) ≠ []) (tokenPatterns g) →
  build fuel g = Some g' →
  (DFA.accepts (finalDFA g') w = true
   ↔ ∃ p, p ∈ tokenPatterns g ∧ nfaAccepts (NFA.fromRegex p.2) w).
Proof. apply build_accepts. Qed.

End BuildLanguage.

Lemma build_language_witness :
  ∃ g', LexicalAnalyzerGenerator.build 20
          (LexicalAnalyzerGenerator.addTokenPattern "B" "b"
             (LexicalAnalyzerGenerator.addTokenPattern "A" "a"
                LexicalAnalyzerGenerator.new)) = Some g'
        ∧ (DFA.accepts (LexicalAnalyzerGenerator.finalDFA g') "b" = true
           ↔ ∃ p, p ∈ [("A", "a"); ("B", "b")]%string
                  ∧ nfaAccepts (NFA.fromRegex p.2) "b").
Proof.
  eexists. split; [vm_compute; reflexivity|].
  apply (build_language 20
           (LexicalAnalyzerGenerator.addTokenPattern "B" "b"
              (LexicalAnalyzerGenerator.addTokenPattern "A" "a"
                 LexicalAnalyzerGenerator.new))).
  - by vm_compute.
  - repeat constructor; by vm_compute.
  - vm_compute. reflexivity.
Defined.

(** ** Keywords *)

Section Keywords.
Import NFA.

Lemma isOperand_thompsonStep (c : ascii) (nfaStack : list NFA.t) :
  isOperand c = true → thompsonStep nfaStack c = fromSymbol c :: nfaStack.
Proof.
  intros Hc. unfold thompsonStep.
  destruct (isOperand_cases c)
    as [(_ & ? & _)|[(_ & ? & _)|[(_ & ? & _)|(_ & Hop & _)]]]; try congruence.
  unfold RegexParser.isOperator in Hop.
  apply orb_false_iff in Hop as [Hop H3]. apply orb_false_iff in Hop as [H1 H2].
  by rewrite H1, H2, H3.
Qed.

(** Each further character of a word is concatenated to the automaton of
    the characters before it. *)
Lemma evalPostfix_word (l : list ascii) (n : NFA.t) (L : language) :
  Forall (λ c, isOperand c = true ∧ c ≠ epsilon) l → recognizes n L →
  ∃ n', foldl thompsonStep [n] (flat_map (λ c, [c; "."%char]) l) = [n']
        ∧ recognizes n' (λ w, ∃ u, L u ∧ w = u ++ l).
Proof.
  intros Hl; revert n L; induction Hl as [|c l [Hc Hne] _ IH]; intros n L [W HL].
  { exists n. split; [done|]. split; [done|]. intros w. rewrite HL. split.
    - intros Hw. exists w. by rewrite app_nil_r.
    - intros (u & Hu & ->). by rewrite app_nil_r. }
  cbn [flat_map app foldl]. rewrite (isOperand_thompsonStep c [n] Hc).
  assert (Hdot : thompsonStep [fromSymbol c; n] "."%char = [concatenate n (fromSymbol c)])
    by done.
  rewrite Hdot.
  destruct (IH (concatenate n (fromSymbol c)) (λ w, ∃ u, L u ∧ w = u ++ [c]))
    as (n' & Hn' & W' & HL').
  { split; [apply concatenate_wellFormed; [done|apply fromSymbol_wellFormed]|].
    intros w. rewrite (concatenate_accepts_chars n (fromSymbol c) W (fromSymbol_wellFormed c)).
    split.
    - intros (u & v & -> & Hu%HL & Hv%fromSymbol_accepts_chars).
      unfold langSymbol in Hv. rewrite bool_decide_eq_false_2 in Hv by done.
      exists u. by rewrite Hv.
    - intros (u & Hu & ->). exists u, [c]. split; [done|]. split; [by apply HL|].
      apply fromSymbol_accepts_chars. unfold langSymbol.
      by rewrite bool_decide_eq_false_2. }
  exists n'. split; [done|]. split; [done|]. intros w. rewrite HL'. split.
  - intros (u' & (u & Hu & ->) & ->). exists u. by rewrite <- app_assoc.
  - intros (u & Hu & ->). exists (u ++ [c]). split; [by exists u|]. by rewrite <- app_assoc.
Qed.

(** The automaton of a keyword accepts the keyword and nothing else: for a
    pattern made of operand characters only, none of them NUL, [fromRegex]
    returns an automaton that accepts exactly the pattern itself. *)
Theorem fromRegex_keyword (a : ascii) (l : list ascii) (w : string) :
  Forall (λ c, isOperand c = true ∧ c ≠ epsilon) (a :: l) →
  (nfaAccepts (fromRegex (str (a :: l))) w ↔ w = str (a :: l)).
Proof.
  intros [[Ha Hne] Hl]%Forall_cons. unfold fromRegex.
  rewrite (infixToPostfix_operands_only a l Ha), chars_str.
  2: { eapply Forall_impl; [exact Hl|]. by intros c [? _]. }
  unfold fromPostfix, evalPostfix. cbn [foldl].
  rewrite (isOperand_thompsonStep a [] Ha).
  destruct (evalPostfix_word l (fromSymbol a) (langSymbol a) Hl) as (n' & -> & _ & HL).
  { split; [apply fromSymbol_wellFormed|apply fromSymbol_accepts_chars]. }
  change (nfaAccepts n' w) with (nfaAcceptsChars n' (chars w)). rewrite HL.
  unfold langSymbol. rewrite bool_decide_eq_false_2 by done. split.
  - intros (u & -> & Hw). cbn [app] in Hw. rewrite <- Hw. unfold str, chars.
    by rewrite string_of_list_ascii_of_string.
  - intros ->. exists [a]. by rewrite chars_str.
Qed.

Lemma fromRegex_keyword_witness :
  Forall (λ c, isOperand c = true ∧ c ≠ epsilon) (chars "while")
  ∧ (nfaAccepts (fromRegex "while") "while" ↔ "while"%string = "while"%string).
Proof.
  assert (H : Forall (λ c, isOperand c = true ∧ c ≠ epsilon) (chars "while")).
  { repeat constructor; by vm_compute. }
  split; [exact H|].
  exact (fromRegex_keyword "w"%char (chars "hile") "while" H).
Defined.

End Keywords.

(** ** Patterns of the usual grammar *)

Section Grammar.
Import RegexParser.

(** *** The first loop: where the concatenations go *)











(** *** The second loop: the operator stack *)









(** *** The automaton *)






End Grammar.



(** ** The generator on patterns of the usual grammar *)

Section Generator.
Import LexicalAnalyzerGenerator.


End Generator.


(** ** The emitted [tokenize] *)

Section Tokenize.
Import LexicalAnalyzer.

Variable d : DFA.t.

Lemma chars_length (s : string) : length (chars s) = String.length s.
Proof. unfold chars. induction s; cbn; congruence. Qed.

(** What one iteration does to the index and to the last match. *)
Lemma tokenizeStep_index (c : ascii) (i : Z) (v : vars) :
  let r := tokenizeStep d c i v in
  (r.1 = i
   ∧ ((lastAcceptState r.2 = lastAcceptState v ∧ lastAcceptPos r.2 = lastAcceptPos v)
      ∨ (lastAcceptState r.2 ≠ -1 ∧ lastAcceptPos r.2 = i)))
  ∨ (lastAcceptState v ≠ -1 ∧ r.1 = lastAcceptPos v ∧ lastAcceptState r.2 = -1).
Proof.
  unfold tokenizeStep.
  destruct (bool_decide (DFA.getNextState d (currentState v) c ≠ -1)) eqn:Hnext.
  - apply bool_decide_eq_true in Hnext. left.
    destruct (bool_decide (DFA.getNextState d (currentState v) c ∈ DFA.acceptingStates d));
      destruct (bool_decide (c = "010"%char)); cbn; auto.
  - destruct (bool_decide (lastAcceptState v ≠ -1)) eqn:Hlast.
    + apply bool_decide_eq_true in Hlast. right.
      destruct (bool_decide (c = "010"%char)); cbn; auto.
    + left. destruct (bool_decide (c = "010"%char)); cbn; auto.
Qed.

(** The loop ends: between two tokens the index goes up by one in each
    iteration, and a token moves the start of the next lexeme forward. *)
Lemma tokenizeLoop_terminates (input : list ascii) (fuel : nat) (b i : Z) (v : vars) :
  let n := Z.of_nat (length input) in
  0 ≤ b ≤ i → i ≤ n →
  (lastAcceptState v ≠ -1 → b ≤ lastAcceptPos v < i) →
  (n - b) * (n + 1) + (n - i) ≤ Z.of_nat fuel →
  is_Some (tokenizeLoop fuel d input i v).
Proof.
  intros n. revert b i v. induction fuel as [|fuel IH]; intros b i v Hb Hi Hlast Hfuel.
  - cbn. case_bool_decide; [|done]. fold n in H. nia.
  - cbn [tokenizeLoop]. case_bool_decide as Hlt; [|done]. fold n in Hlt.
    pose proof (tokenizeStep_index (nth (Z.to_nat i) input epsilon) i v) as Hstep.
    destruct (tokenizeStep d _ i v) as [i' v']. cbn in Hstep.
    destruct Hstep as [[-> Hkeep]|(Hl & -> & Hreset)].
    + apply (IH b); [lia|lia| |nia].
      destruct Hkeep as [[-> ->]|[_ ->]]; [|lia]. intros Hl. specialize (Hlast Hl). lia.
    + specialize (Hlast Hl). apply (IH (lastAcceptPos v + 1)); [lia|lia|done|nia].
Qed.

(** [tokenize] returns on every input and for every table, although its loop
    moves the index back after each token: a number of iterations that is
    quadratic in the length of the input is enough. *)
Theorem tokenize_terminates (input : string) :
  is_Some (tokenize (S (String.length input) * S (String.length input)) d input).
Proof.
  unfold tokenize.
  destruct (tokenizeLoop_terminates (chars input)
              (S (String.length input) * S (String.length input)) 0 0
              (mkVars (DFA.startState d) [] 1 1 (-1) (-1) [] [])) as [v Hv].
  - lia.
  - lia.
  - done.
  - rewrite chars_length, Nat2Z.inj_mul, !Nat2Z.inj_succ. nia.
  - by rewrite Hv.
Qed.

(** A run of the table is scanned without a token and without an error. *)
Lemma tokenizeLoop_runs (l pre : list ascii) (s s' : Z) (fuel : nat) (v : vars) :
  runs d s l s' → currentState v = s → (length l ≤ fuel)%nat →
  ∃ v', tokenizeLoop fuel d (pre ++ l) (Z.of_nat (length pre)) v = Some v'
        ∧ currentState v' = s'
        ∧ currentLexeme v' = currentLexeme v ++ l
        ∧ tokens v' = tokens v ∧ errors v' = errors v
        ∧ (curLine v', curColumn v') = foldl advance (curLine v, curColumn v) l
        ∧ (l ≠ [] → s' ∈ DFA.acceptingStates d → lastAcceptState v' = s').
Proof.
  intros Hrun. revert pre fuel v.
  induction Hrun as [s|s c s1 l s' Hnext Hlive Hrun IH]; intros pre fuel v Hs Hfuel.
  - exists v. rewrite app_nil_r. split.
    { destruct fuel; cbn; by rewrite bool_decide_eq_false_2 by lia. }
    by rewrite app_nil_r.
  - destruct fuel as [|fuel]; [cbn in Hfuel; lia|]. cbn [tokenizeLoop].
    rewrite bool_decide_eq_true_2 by (rewrite length_app; cbn; lia).
    rewrite Nat2Z.id, nth_middle.
    unfold tokenizeStep, DFA.getNextState. rewrite Hs, Hnext.
    rewrite (bool_decide_eq_true_2 (s1 ≠ -1)) by done.
    assert (Hlast : l = [] →
              s' = s1
              ∧ ∀ f v2, tokenizeLoop f d (pre ++ [c]) (Z.of_nat (length pre) + 1) v2
                        = Some v2).
    { intros ->. inversion Hrun; subst. split; [done|]. intros f v2.
      destruct f; cbn; by rewrite bool_decide_eq_false_2 by (rewrite length_app; cbn; lia). }
    destruct (bool_decide (s1 ∈ DFA.acceptingStates d)) eqn:Ha;
      destruct (bool_decide (c = "010"%char)) eqn:Hc; cbn -[tokenizeLoop];
      match goal with
      | |- context [tokenizeLoop fuel d _ _ ?v2] =>
          destruct (IH (pre ++ [c]) fuel v2 eq_refl)
            as (v' & Hloop & Hs' & Hlex & Htok & Herr & Hpos & Hacc);
            [cbn in Hfuel; lia|]
      end;
      rewrite <- app_assoc, length_app in Hloop; cbn [app length] in Hloop;
      replace (Z.of_nat (length pre + 1)) with (Z.of_nat (length pre) + 1) in Hloop by lia;
      cbn in Hlex, Htok, Herr, Hpos;
      exists v'; rewrite Hloop;
      (split; [done|]); (split; [done|]);
      (split; [by rewrite Hlex, <- app_assoc|]);
      (split; [done|]); (split; [done|]);
      (split; [rewrite Hpos; cbn [foldl]; f_equal; unfold advance; by rewrite Hc|]);
      intros _ Hfinal;
      (destruct l as [|c' l']; [|by apply Hacc]);
      destruct (Hlast eq_refl) as [-> Hstop];
      rewrite Hstop in Hloop; injection Hloop as <-; cbn;
      try done; by rewrite bool_decide_eq_true_2 in Ha.
Qed.

(** For an automaton that is printed as it is ([emittable]: plain
    characters in the table and in the labels), an input that the automaton
    accepts, and that is not empty, comes back as one token and without an
    error: the lexeme is the whole input, the type is the label of the state
    that the run ends in, and the line and column are those after the last
    character, since the position is read when the token is stored. *)
Theorem tokenize_accepted_input (input : string) (fuel : nat) :
  emittable d = true →
  DFA.accepts d input = true → input ≠ ""%string →
  (String.length input ≤ fuel)%nat →
  ∃ s, runs d (DFA.startState d) (chars input) s
       ∧ s ∈ DFA.acceptingStates d
       ∧ tokenize fuel d input
         = Some ([mkToken (stateToToken d s) input
                    (foldl advance (1, 1) (chars input)).1
                    (foldl advance (1, 1) (chars input)).2], []).
Proof.
  intros _ Hacc Hne Hfuel. apply accepts_loop_runs in Hacc as (s & Hrun & Hs).
  exists s. split; [done|]. split; [done|].
  pose proof (chars_length input) as Hlen.
  destruct (tokenizeLoop_runs (chars input) [] _ s fuel
              (mkVars (DFA.startState d) [] 1 1 (-1) (-1) [] []) Hrun eq_refl)
    as (v' & Hloop & Hs' & Hlex & Htok & Herr & Hpos & Hlast); [lia|].
  cbn in Hloop, Hlex, Htok, Herr, Hpos. change (Z.of_nat 0) with 0 in Hloop.
  unfold tokenize. rewrite Hloop, Herr. unfold handleLast.
  assert (Hchars : chars input ≠ []).
  { destruct input; [done|]. done. }
  rewrite (Hlast Hchars Hs), Hlex, Htok.
  assert (s ≠ -1).
  { inversion Hrun as [|? ? ? ? ? ? ? Hrest]; subst; [congruence|].
    clear -Hrest H0. induction Hrest; [done|]. by apply IHHrest. }
  rewrite bool_decide_eq_true_2 by done. rewrite <- Hpos. cbn [fst snd app].
  unfold str, chars. by rewrite string_of_list_ascii_of_string.
Qed.

End Tokenize.

Lemma tokenize_accepted_input_witness :
  ∃ g', LexicalAnalyzerGenerator.build 20
          (LexicalAnalyzerGenerator.addTokenPattern "T" "ab"
             LexicalAnalyzerGenerator.new) = Some g'
        ∧ emittable (LexicalAnalyzerGenerator.finalDFA g') = true
        ∧ DFA.accepts (LexicalAnalyzerGenerator.finalDFA g') "ab" = true
        ∧ LexicalAnalyzer.stateToToken (LexicalAnalyzerGenerator.finalDFA g') 2
          = "T"%string
        ∧ ∃ s, runs (LexicalAnalyzerGenerator.finalDFA g')
                 (DFA.startState (LexicalAnalyzerGenerator.finalDFA g')) (chars "ab") s
               ∧ s ∈ DFA.acceptingStates (LexicalAnalyzerGenerator.finalDFA g')
               ∧ LexicalAnalyzer.tokenize 2 (LexicalAnalyzerGenerator.finalDFA g') "ab"
                 = Some ([LexicalAnalyzer.mkToken
                            (LexicalAnalyzer.stateToToken
                               (LexicalAnalyzerGenerator.finalDFA g') s) "ab" 1 3], []).
Proof.
  eexists. split; [vm_compute; reflexivity|].
  set (d := LexicalAnalyzerGenerator.finalDFA _).
  assert (Hplain : emittable d = true) by (by vm_compute).
  assert (Hacc : DFA.accepts d "ab" = true) by (by vm_compute).
  assert (Hne : "ab"%string ≠ ""%string) by done.
  assert (Hfuel : (String.length "ab" ≤ 2)%nat) by (cbn; lia).
  split; [exact Hplain|]. split; [exact Hacc|]. split; [by vm_compute|].
  exact (tokenize_accepted_input d "ab" 2 Hplain Hacc Hne Hfuel).
Defined.

(** ** The tokens of [tokenize] *)

Section Tokens.
Import LexicalAnalyzer.

Variable d : DFA.t.
Variable input : list ascii.

Lemma str_nonempty (l : list ascii) : l ≠ [] → str l ≠ ""%string.
Proof. by destruct l. Qed.

Lemma take_S_nth (l : list ascii) (k : nat) :
  (k < length l)%nat → take (S k) l = take k l ++ [nth k l epsilon].
Proof.
  revert l; induction k as [|k IH]; intros [|x l] Hlt; cbn in *; try lia; [done|].
  f_equal. apply IH. lia.
Qed.

Lemma take_index (i : Z) :
  0 ≤ i < Z.of_nat (length input) →
  take (Z.to_nat (i + 1)) input = take (Z.to_nat i) input ++ [nth (Z.to_nat i) input epsilon].
Proof.
  intros Hi. replace (Z.to_nat (i + 1)) with (S (Z.to_nat i)) by lia.
  apply take_S_nth. lia.
Qed.

Lemma tokenizeStep_inv (i : Z) (v : vars) :
  i < Z.of_nat (length input) → tokenInv d input i v →
  let r := tokenizeStep d (nth (Z.to_nat i) input epsilon) i v in
  tokenInv d input (r.1 + 1) r.2.
Proof.
  intros Hi (H0 & Htok & (pre & Hpre) & Hlast). unfold tokenizeStep.
  set (c := nth (Z.to_nat i) input epsilon).
  destruct (bool_decide (DFA.getNextState d (currentState v) c ≠ -1)) eqn:Hnext.
  - assert (Hsuffix : take (Z.to_nat (i + 1)) input = pre ++ currentLexeme v ++ [c]).
    { rewrite take_index, Hpre by lia. by rewrite <- app_assoc. }
    assert (Hne : currentLexeme v ++ [c] ≠ []) by (by destruct (currentLexeme v)).
    destruct (bool_decide (DFA.getNextState d (currentState v) c ∈ DFA.acceptingStates d))
      eqn:Hacc; destruct (bool_decide (c = "010"%char)); cbn;
      (split; [lia|]); (split; [done|]); (split; [by exists pre|]); cbn.
    1,2: intros _; apply bool_decide_eq_true in Hacc; by repeat split.
    1,2: intros Hl; destruct (Hlast Hl) as (? & _ & ?); by repeat split.
  - destruct (bool_decide (lastAcceptState v ≠ -1)) eqn:Hl.
    + apply bool_decide_eq_true in Hl. destruct (Hlast Hl) as (Hacc & Hne & Hpos).
      assert (Hgood : goodToken d input
                (mkToken (stateToToken d (lastAcceptState v))
                   (str (substr0 (currentLexeme v) (lastAcceptPos v + 1)))
                   (curLine v) (curColumn v))).
      { unfold goodToken, substr0. cbn [lexeme type]. rewrite chars_str. split.
        - apply str_nonempty. destruct (currentLexeme v); [done|].
          replace (Z.to_nat (lastAcceptPos v + 1)) with (S (Z.to_nat (lastAcceptPos v))) by lia.
          done.
        - split; [|by exists (lastAcceptState v)].
          exists pre, (drop (Z.to_nat (lastAcceptPos v + 1)) (currentLexeme v)
                       ++ drop (Z.to_nat i) input).
          rewrite (app_assoc (take (Z.to_nat (lastAcceptPos v + 1)) (currentLexeme v))).
          by rewrite take_drop, app_assoc, <- Hpre, take_drop. }
      destruct (bool_decide (c = "010"%char)); cbn;
        (split; [lia|]); (split; [by apply Forall_app; split; [|constructor]|]);
        (split; [exists (take (Z.to_nat (lastAcceptPos v + 1)) input); by rewrite app_nil_r|]);
        done.
    + apply bool_decide_eq_false in Hl.
      destruct (bool_decide (c = "010"%char)); cbn;
        (split; [lia|]); (split; [done|]);
        (split; [exists (take (Z.to_nat (i + 1)) input); by rewrite app_nil_r|]);
        intros Hl'; by destruct Hl.
Qed.

Lemma tokenizeLoop_inv (fuel : nat) (i : Z) (v v' : vars) :
  tokenInv d input i v → tokenizeLoop fuel d input i v = Some v' →
  ∃ i', tokenInv d input i' v'.
Proof.
  revert i v; induction fuel as [|fuel IH]; intros i v Hinv Hrun; cbn in Hrun.
  - case_bool_decide; [done|]. injection Hrun as <-. by exists i.
  - case_bool_decide as Hi; [|injection Hrun as <-; by exists i].
    pose proof (tokenizeStep_inv i v Hi Hinv) as Hstep. cbn zeta in Hstep.
    destruct (tokenizeStep d _ i v) as [i1 v1]. by apply IH in Hrun.
Qed.

Lemma tokenize_inv (fuel : nat) (s : string) (toks : list Token) (errs : list (Z * Z)) :
  chars s = input → tokenize fuel d s = Some (toks, errs) →
  Forall (goodToken d input) toks.
Proof.
  unfold tokenize. intros -> Hrun.
  destruct (tokenizeLoop fuel d _ 0 _) as [v|] eqn:Hloop; [|done].
  injection Hrun as <- <-.
  apply tokenizeLoop_inv in Hloop as (i & Hi & Htok & (pre & Hpre) & Hlast).
  - unfold handleLast. case_bool_decide as Hl; [|done].
    destruct (Hlast Hl) as (Hacc & Hne & _).
    apply Forall_app. split; [done|]. constructor; [|constructor].
    unfold goodToken. cbn [lexeme type]. rewrite chars_str.
    split; [by apply str_nonempty|]. split; [|by exists (lastAcceptState v)].
    exists pre, (drop (Z.to_nat i) input). by rewrite app_assoc, <- Hpre, take_drop.
  - split; [done|]. split; [constructor|]. split; [by exists []|done].
Qed.

End Tokens.

Section TokenTheorems.
Import LexicalAnalyzer.

(** What [emittable] lets through and what it refuses: a label such as [T],
    a transition on [a]; not a label with a backslash, nor a transition on a
    quote. *)
Lemma emittable_samples :
  emittable (DFA.setTokenType 1 "T" (DFA.addTransition 0 "a" 1 DFA.new)) = true
  ∧ emittable (DFA.setTokenType 1 "T\n" (DFA.addTransition 0 "a" 1 DFA.new)) = false
  ∧ emittable (DFA.addTransition 0 "039" 1 DFA.new) = false
  ∧ emittable (DFA.addTransition 0 "092" 1 DFA.new) = false.
Proof. repeat split; by vm_compute. Qed.

(** Whatever the input, and for every automaton that is printed as it is
    ([emittable]: plain characters in the table and in the labels), every
    token that [tokenize] returns has a lexeme that is not empty and is a
    piece of the input, and its type is the label of an accepting state. *)
Theorem tokenize_tokens (fuel : nat) (d : DFA.t) (input : string)
    (toks : list Token) (errs : list (Z * Z)) :
  emittable d = true →
  tokenize fuel d input = Some (toks, errs) →
  Forall (goodToken d (chars input)) toks.
Proof. intros _. by apply tokenize_inv. Qed.

(** After [build], the scanner knows one name only: when the automaton is
    printed as it is (the names and the characters of the patterns are
    plain), every token that the scanner returns, for every input, has the
    name of the last pattern of the map as its type. *)
Theorem tokenize_types_last (fuel fuel' : nat) (g g' : LexicalAnalyzerGenerator.t)
    (patterns : list (string * string)) (last : string * string) (input : string)
    (toks : list Token) (errs : list (Z * Z)) :
  LexicalAnalyzerGenerator.tokenPatterns g = patterns ++ [last] →
  LexicalAnalyzerGenerator.build fuel g = Some g' →
  emittable (LexicalAnalyzerGenerator.finalDFA g') = true →
  tokenize fuel' (LexicalAnalyzerGenerator.finalDFA g') input = Some (toks, errs) →
  Forall (λ t, type t = last.1) toks.
Proof.
  intros Hpat Hbuild _ Hrun.
  apply (tokenize_inv _ (chars input) fuel' input toks errs eq_refl) in Hrun.
  eapply Forall_impl; [exact Hrun|].
  intros t (_ & _ & s & Hs & ->). unfold stateToToken.
  by rewrite (build_labels_last fuel g g' patterns last s Hpat Hbuild Hs).
Qed.

End TokenTheorems.

Lemma tokenize_tokens_witness :
  ∃ g', LexicalAnalyzerGenerator.build 20
          (LexicalAnalyzerGenerator.addTokenPattern "T" "ab"
             LexicalAnalyzerGenerator.new) = Some g'
        ∧ emittable (LexicalAnalyzerGenerator.finalDFA g') = true
        ∧ LexicalAnalyzer.tokenize 20 (LexicalAnalyzerGenerator.finalDFA g') "abab"
          = Some ([LexicalAnalyzer.mkToken "T" "ab" 1 3;
                   LexicalAnalyzer.mkToken "T" "ab" 1 6], [])
        ∧ Forall (goodToken (LexicalAnalyzerGenerator.finalDFA g') (chars "abab"))
            [LexicalAnalyzer.mkToken "T" "ab" 1 3; LexicalAnalyzer.mkToken "T" "ab" 1 6].
Proof.
  eexists. split; [vm_compute; reflexivity|].
  set (d := LexicalAnalyzerGenerator.finalDFA _).
  assert (Hplain : emittable d = true) by (by vm_compute).
  assert (Hrun : LexicalAnalyzer.tokenize 20 d "abab"
                 = Some ([LexicalAnalyzer.mkToken "T" "ab" 1 3;
                          LexicalAnalyzer.mkToken "T" "ab" 1 6], []))
    by (by vm_compute).
  split; [exact Hplain|]. split; [exact Hrun|].
  exact (tokenize_tokens 20 d "abab" _ [] Hplain Hrun).
Defined.

Lemma tokenize_types_last_witness :
  ∃ g', LexicalAnalyzerGenerator.build 20
          (LexicalAnalyzerGenerator.addTokenPattern "B" "b"
             (LexicalAnalyzerGenerator.addTokenPattern "A" "a"
                LexicalAnalyzerGenerator.new)) = Some g'
        ∧ emittable (LexicalAnalyzerGenerator.finalDFA g') = true
        ∧ LexicalAnalyzer.tokenize 20 (LexicalAnalyzerGenerator.finalDFA g') "ab"
          = Some ([LexicalAnalyzer.mkToken "B" "a" 1 2;
                   LexicalAnalyzer.mkToken "B" "b" 1 4], [])
        ∧ Forall (λ t, LexicalAnalyzer.type t = "B"%string)
            [LexicalAnalyzer.mkToken "B" "a" 1 2; LexicalAnalyzer.mkToken "B" "b" 1 4].
Proof.
  exists (default LexicalAnalyzerGenerator.new
            (LexicalAnalyzerGenerator.build 20
               (LexicalAnalyzerGenerator.addTokenPattern "B" "b"
                  (LexicalAnalyzerGenerator.addTokenPattern "A" "a"
                     LexicalAnalyzerGenerator.new)))).
  set (g := LexicalAnalyzerGenerator.addTokenPattern "B" "b"
              (LexicalAnalyzerGenerator.addTokenPattern "A" "a"
                 LexicalAnalyzerGenerator.new)).
  set (g' := default LexicalAnalyzerGenerator.new (LexicalAnalyzerGenerator.build 20 g)).
  assert (Hbuild : LexicalAnalyzerGenerator.build 20 g = Some g') by (by vm_compute).
  assert (Hpat : LexicalAnalyzerGenerator.tokenPatterns g
                 = [("A", "a")]%string ++ [("B", "b")%string]) by (by vm_compute).
  assert (Hplain : emittable (LexicalAnalyzerGenerator.finalDFA g') = true)
    by (by vm_compute).
  assert (Hrun : LexicalAnalyzer.tokenize 20 (LexicalAnalyzerGenerator.finalDFA g') "ab"
                 = Some ([LexicalAnalyzer.mkToken "B" "a" 1 2;
                          LexicalAnalyzer.mkToken "B" "b" 1 4], []))
    by (by vm_compute).
  split; [exact Hbuild|]. split; [exact Hplain|]. split; [exact Hrun|].
  exact (tokenize_types_last 20 20 g g' _ _ "ab" _ [] Hpat Hbuild Hplain Hrun).
Defined.
